(** * Kubeconfig sync: reconciliation of watched kubeconfig files

    A shallow embedding of
      - src/main/catalog-sources/kubeconfig-sync.source.ts
        (KubeconfigSyncManager, configsToModels, computeDiff,
         diffChangedConfig, watchFileChanges),
      - src/common/catalog-entity-registry.ts (CatalogEntityRegistry),
      - src/common/kubeconfig-sync-store.ts (the observable set of files),
    with the objects the code mutates (clusters, read streams, watchers,
    observable maps) kept in an explicit store, and every call on a
    collaborator recorded in a trace.

    The development first gives the embedding, then closed forms of the
    two loops of [computeDiff], then the properties of a reconciliation
    pass (key set, second pass, duplicate names, validation), of the two
    ways a record leaves a map, of the registry and the manager, and of
    overlapping reads over every sequence of events. *)

From Stdlib Require Import String Ascii List Arith Lia Bool.
From stdpp Require Import base list strings.
Import ListNotations.

Local Open Scope string_scope.
Local Open Scope list_scope.

(** ** ECMAScript [Map] / mobx [ObservableMap]

    Both keep their entries in insertion order, hold one entry per key,
    overwrite in place on [set] of a present key and append otherwise.
    The representation is the entry list; [wf] is the one-entry-per-key
    invariant that every map built with [set] and [delete] satisfies. *)
Module JsMap.

Definition t (V : Type) : Type := list (string * V).

Section Ops.
Context {V : Type}.

Definition empty : t V := [].

Fixpoint get (k : string) (m : t V) : option V :=
  match m with
  | [] => None
  | (k', v) :: r => if String.eqb k k' then Some v else get k r
  end.

Definition has (k : string) (m : t V) : bool :=
  match get k m with Some _ => true | None => false end.

Fixpoint set (k : string) (v : V) (m : t V) : t V :=
  match m with
  | [] => [(k, v)]
  | (k', v') :: r =>
      if String.eqb k k' then (k', v) :: r else (k', v') :: set k v r
  end.

Fixpoint delete (k : string) (m : t V) : t V :=
  match m with
  | [] => []
  | (k', v') :: r =>
      if String.eqb k k' then delete k r else (k', v') :: delete k r
  end.

Definition clear (m : t V) : t V := [].

Definition keys (m : t V) : list string := map fst m.
Definition values (m : t V) : list V := map snd m.
Definition entries (m : t V) : list (string * V) := m.

(** [new Map(iterable)]: the entries are [set] one after the other. *)
Definition set_entry (m : t V) (kv : string * V) : t V := set (fst kv) (snd kv) m.

Definition of_entries (l : list (string * V)) : t V := fold_left set_entry l empty.

Definition wf (m : t V) : Prop := List.NoDup (keys m).

End Ops.
End JsMap.

(** ** Data *)

Definition Buffer := list Byte.byte.
Definition Buffer_toString (b : Buffer) : string := string_of_list_byte b.
Definition Buffer_concat (bufs : list Buffer) : Buffer := concat bufs.

(** The model object built by [configsToModels]. *)
Record ClusterModel : Type := mkModel {
  id : nat;
  kubeConfigPath : string;
  contextName : string
}.

(** A [Cluster] object of the store.  [c_disconnects] counts the calls of
    [disconnect()] on it. *)
Record Cluster : Type := mkCluster {
  c_model : ClusterModel;
  c_apiUrl : option string;
  c_disconnects : nat
}.

Record CatalogEntity : Type := mkEntity {
  apiVersion : string;
  kind : string;
  e_name : string;
  labels : JsMap.t string
}.

(** Outcome of [new Cluster(model)]. *)
Inductive CtorResult : Type :=
| Throws (error : string)
| Built (apiUrl : option string).

(** What this file imports and src/ does not contain: the parser and
    validator of common/kube-helpers, the constructor of main/cluster and
    catalogEntityFromCluster of main/cluster-manager.  A [throw] is a
    returned error.  [splitConfig] and [catalogEntityFromCluster] are taken
    to return, as are [cluster.disconnect()] and [cluster.updateModel()]
    below. *)
Class Externals : Type := {
  KubeConfig : Type;
  currentContext : KubeConfig -> string;
  loadConfigFromString : string -> string + KubeConfig;
  splitConfig : KubeConfig -> list KubeConfig;
  validateKubeConfig : KubeConfig -> string -> option string;
  new_Cluster : ClusterModel -> CtorResult;
  catalogEntityFromCluster : Cluster -> CatalogEntity
}.

(** References into the store are positions in its lists. *)
Abbreviation ClusterRef := nat (only parsing).

Inductive Level : Type := debug | info | warn.

(** Calls on collaborators and on the unit's map, in program order. *)
Inductive Effect : Type :=
| Log (lvl : Level) (msg filePath : string) (context : option string)
| Disconnect (c : ClusterRef)
| UpdateModel (c : ClusterRef) (m : ClusterModel)
| Construct (m : ClusterModel)
| MapDelete (k : string) (c : ClusterRef)
| MapSet (k : string) (c : ClusterRef)
| MapClear.

(** The part of the store a reconciliation pass works on. *)
Record Heap : Type := mkHeap {
  clusters : list Cluster;
  next_uuid : nat;
  trace : list Effect
}.

Definition emit (e : Effect) (h : Heap) : Heap :=
  mkHeap (clusters h) (next_uuid h) (trace h ++ [e]).

Definition logger (lvl : Level) (msg filePath : string)
    (context : option string) (h : Heap) : Heap :=
  emit (Log lvl msg filePath context) h.

(** [uuid.v4()]: a fresh identifier. *)
Definition uuid_v4 (h : Heap) : nat * Heap :=
  (next_uuid h, mkHeap (clusters h) (S (next_uuid h)) (trace h)).

(** [cluster.disconnect()] and [cluster.updateModel(m)], seen from this
    file: the call is recorded and counted on the object. *)
Definition disconnected (cl : Cluster) : Cluster :=
  mkCluster (c_model cl) (c_apiUrl cl) (S (c_disconnects cl)).

Definition updated (m : ClusterModel) (cl : Cluster) : Cluster :=
  mkCluster m (c_apiUrl cl) (c_disconnects cl).

Definition Cluster_disconnect (c : ClusterRef) (h : Heap) : Heap :=
  emit (Disconnect c)
    (mkHeap (alter disconnected c (clusters h)) (next_uuid h) (trace h)).

Definition Cluster_updateModel (c : ClusterRef) (m : ClusterModel) (h : Heap) : Heap :=
  emit (UpdateModel c m)
    (mkHeap (alter (updated m) c (clusters h)) (next_uuid h) (trace h)).

(** JavaScript truthiness of [cluster.apiUrl]. *)
Definition truthy (u : option string) : bool :=
  match u with
  | Some s => negb (String.eqb s "")
  | None => false
  end.

Definition RootSourceValue : Type := ClusterRef * CatalogEntity.
Definition RootSource : Type := JsMap.t RootSourceValue.

Definition set_label (k v : string) (e : CatalogEntity) : CatalogEntity :=
  mkEntity (apiVersion e) (kind e) (e_name e) (JsMap.set k v (labels e)).

Section Reconciler.
Context `{E : Externals}.

(** *** configsToModels (kubeconfig-sync.source.ts, 91-108) *)

Definition validation_step (filePath : string)
    (acc : list KubeConfig * Heap) (config : KubeConfig)
    : list KubeConfig * Heap :=
  let '(validConfigs, h) := acc in
  match validateKubeConfig config (currentContext config) with
  | None => (validConfigs ++ [config], h)
  | Some error =>
      (validConfigs,
       logger debug ("[KUBECONFIG-SYNC]: context failed validation: " ++ error)
              filePath (Some (currentContext config)) h)
  end.

Definition model_step (filePath : string)
    (acc : list ClusterModel * Heap) (config : KubeConfig)
    : list ClusterModel * Heap :=
  let '(out, h) := acc in
  let '(i, h) := uuid_v4 h in
  (out ++ [mkModel i filePath (currentContext config)], h).

Definition configsToModels (configs : list KubeConfig) (filePath : string)
    (h : Heap) : list ClusterModel * Heap :=
  let '(validConfigs, h) := fold_left (validation_step filePath) configs ([], h) in
  fold_left (model_step filePath) validConfigs ([], h).

(** *** computeDiff (kubeconfig-sync.source.ts, 113-165) *)

Definition parse (buf : Buffer) : string + list KubeConfig :=
  match loadConfigFromString (Buffer_toString buf) with
  | inl error => inl error
  | inr kc => inr (splitConfig kc)
  end.

Definition LoopState : Type := RootSource * JsMap.t ClusterModel * Heap.

(** Body of [for (const [contextName, value] of source)].  The loop
    deletes only the entry it is visiting, so it visits the entries the
    map had when the loop started, each once, in order. *)
Definition update_step (filePath : string) (st : LoopState)
    (entry : string * RootSourceValue) : LoopState :=
  let '(source, models, h) := st in
  let '(contextName, value) := entry in
  match JsMap.get contextName models with
  | None =>
      let h := Cluster_disconnect (fst value) h in
      let source := JsMap.delete contextName source in
      let h := emit (MapDelete contextName (fst value)) h in
      let h := logger debug "[KUBECONFIG-SYNC]: Removed old cluster from sync"
                      filePath (Some contextName) h in
      (source, models, h)
  | Some model =>
      let h := Cluster_updateModel (fst value) model h in
      let models := JsMap.delete contextName models in
      let h := logger debug "[KUBECONFIG-SYNC]: Updated old cluster from sync"
                      filePath (Some contextName) h in
      (source, models, h)
  end.

(** Body of [for (const [contextName, model] of models)]. *)
Definition add_step (filePath : string) (st : RootSource * Heap)
    (entry : string * ClusterModel) : RootSource * Heap :=
  let '(source, h) := st in
  let '(contextName, model) := entry in
  let h := emit (Construct model) h in
  let failed error :=
    (source,
     logger warn ("KUBECONFIG-SYNC]: Failed to create cluster from model: " ++ error)
            filePath (Some contextName) h) in
  match new_Cluster model with
  | Throws error => failed error
  | Built url =>
      if truthy url then
        let cluster := mkCluster model url 0 in
        let c := length (clusters h) in
        let h := mkHeap (clusters h ++ [cluster]) (next_uuid h) (trace h) in
        let entity := set_label "KUBECONFIG_SYNC" filePath
                        (catalogEntityFromCluster cluster) in
        let source := JsMap.set contextName (c, entity) source in
        let h := emit (MapSet contextName c) h in
        (source,
         logger debug "[KUBECONFIG-SYNC]: Added new cluster from sync"
                filePath (Some contextName) h)
      else failed "Error: Cluster constructor failed, see above error"
  end.

Definition computeDiff (buf : Buffer) (source : RootSource) (port : nat)
    (filePath : string) (h : Heap) : RootSource * Heap :=
  match parse buf with
  | inr kubeconfigs =>
      let '(rawModels, h) := configsToModels kubeconfigs filePath h in
      let models := JsMap.of_entries (map (fun m => (contextName m, m)) rawModels) in
      let '(source, models, h) :=
        fold_left (update_step filePath) (JsMap.entries source) (source, models, h) in
      fold_left (add_step filePath) (JsMap.entries models) (source, h)
  | inl error =>
      let h := logger warn ("[KUBECONFIG-SYNC]: Failed to compute diff: " ++ error)
                      filePath None h in
      (JsMap.clear source, emit MapClear h)
  end.

End Reconciler.

(** ** The store of the main process

    Closures are represented by the object they close over: a disposer
    names the watcher, the read stream or the observer it acts on, a
    computed value names the map or array it derives from. *)

Abbreviation UnitRef := nat (only parsing).
Abbreviation ReadRef := nat (only parsing).
Abbreviation ArrayRef := nat (only parsing).

Inductive Disposer : Type :=
| watcher_close (u : UnitRef)
| stop_read (r : ReadRef)
| unobserve (i : nat).

Inductive IComputedValue : Type :=
| derivedSource (u : UnitRef)
| computedArray (a : ArrayRef).

(** The variables of one call of [watchFileChanges]: the chokidar watcher
    ([u_watching] until [watcher.close()]), the observable map [source] and
    [stopPrevious]. *)
Record WatchUnit : Type := mkUnit {
  u_filePath : string;
  u_port : nat;
  u_watching : bool;
  u_source : RootSource;
  u_stopPrevious : option Disposer
}.

(** The variables of one call of [diffChangedConfig]; [r_unit] stands for
    the [filePath], [source] and [port] it was called with. *)
Record ReadStream : Type := mkRead {
  r_unit : UnitRef;
  r_bufs : list Buffer;
  r_closed : bool
}.

Record World : Type := mkWorld {
  w_heap : Heap;
  w_units : list WatchUnit;
  w_reads : list ReadStream;
  w_arrays : list (list CatalogEntity);
  (* kubeconfigSyncStore.files and the listeners of files.observe *)
  w_files : list string;
  w_observers : list (option nat);
  (* catalogEntityRegistry.sources *)
  w_registry : JsMap.t IComputedValue;
  (* KubeconfigSyncManager *)
  w_sources : JsMap.t (IComputedValue * Disposer);
  w_syncing : bool;
  w_syncListDisposer : option Disposer
}.

Definition initial_world : World :=
  mkWorld (mkHeap [] 0 []) [] [] [] [] [] JsMap.empty JsMap.empty false None.

Definition with_heap (f : Heap -> Heap) (w : World) : World :=
  mkWorld (f (w_heap w)) (w_units w) (w_reads w) (w_arrays w) (w_files w)
    (w_observers w) (w_registry w) (w_sources w) (w_syncing w) (w_syncListDisposer w).

Definition with_units (f : list WatchUnit -> list WatchUnit) (w : World) : World :=
  mkWorld (w_heap w) (f (w_units w)) (w_reads w) (w_arrays w) (w_files w)
    (w_observers w) (w_registry w) (w_sources w) (w_syncing w) (w_syncListDisposer w).

Definition with_reads (f : list ReadStream -> list ReadStream) (w : World) : World :=
  mkWorld (w_heap w) (w_units w) (f (w_reads w)) (w_arrays w) (w_files w)
    (w_observers w) (w_registry w) (w_sources w) (w_syncing w) (w_syncListDisposer w).

Definition with_files (f : list string -> list string) (w : World) : World :=
  mkWorld (w_heap w) (w_units w) (w_reads w) (w_arrays w) (f (w_files w))
    (w_observers w) (w_registry w) (w_sources w) (w_syncing w) (w_syncListDisposer w).

Definition with_observers (f : list (option nat) -> list (option nat)) (w : World) : World :=
  mkWorld (w_heap w) (w_units w) (w_reads w) (w_arrays w) (w_files w)
    (f (w_observers w)) (w_registry w) (w_sources w) (w_syncing w) (w_syncListDisposer w).

Definition with_registry (f : JsMap.t IComputedValue -> JsMap.t IComputedValue)
    (w : World) : World :=
  mkWorld (w_heap w) (w_units w) (w_reads w) (w_arrays w) (w_files w)
    (w_observers w) (f (w_registry w)) (w_sources w) (w_syncing w) (w_syncListDisposer w).

Definition with_sources
    (f : JsMap.t (IComputedValue * Disposer) -> JsMap.t (IComputedValue * Disposer))
    (w : World) : World :=
  mkWorld (w_heap w) (w_units w) (w_reads w) (w_arrays w) (w_files w)
    (w_observers w) (w_registry w) (f (w_sources w)) (w_syncing w) (w_syncListDisposer w).

Definition with_syncing (b : bool) (w : World) : World :=
  mkWorld (w_heap w) (w_units w) (w_reads w) (w_arrays w) (w_files w)
    (w_observers w) (w_registry w) (w_sources w) b (w_syncListDisposer w).

Definition with_syncListDisposer (d : option Disposer) (w : World) : World :=
  mkWorld (w_heap w) (w_units w) (w_reads w) (w_arrays w) (w_files w)
    (w_observers w) (w_registry w) (w_sources w) (w_syncing w) d.

(** Calling a disposer.  For [stop_read] the calls on the stream
    ([close], [push(null)], [read(0)]) change nothing the program reads;
    what the stream emits afterwards arrives as later events. *)
Definition run_disposer (d : Disposer) (w : World) : World :=
  match d with
  | watcher_close u =>
      with_units (alter (fun un =>
        mkUnit (u_filePath un) (u_port un) false (u_source un) (u_stopPrevious un)) u) w
  | stop_read r =>
      with_reads (alter (fun rd => mkRead (r_unit rd) (r_bufs rd) true) r) w
  | unobserve i =>
      with_observers (<[i := None]>) w
  end.

(** [d?.()] *)
Definition call_optional (d : option Disposer) (w : World) : World :=
  match d with
  | Some d => run_disposer d w
  | None => w
  end.

(** ** CatalogEntityRegistry (catalog-entity-registry.ts) *)
Module CatalogEntityRegistry.

Definition addSource (id : string) (source : ArrayRef) (w : World) : World :=
  with_registry (JsMap.set id (computedArray source)) w.

Definition addComputedSource (id : string) (source : IComputedValue) (w : World) : World :=
  with_registry (JsMap.set id source) w.

Definition removeSource (id : string) (w : World) : World :=
  with_registry (JsMap.delete id) w.

(** [compVal.get()] *)
Definition get (compVal : IComputedValue) (w : World) : list CatalogEntity :=
  match compVal with
  | derivedSource u =>
      match w_units w !! u with
      | Some un => map snd (JsMap.values (u_source un))
      | None => []
      end
  | computedArray a =>
      match w_arrays w !! a with
      | Some arr => arr
      | None => []
      end
  end.

Definition items (w : World) : list CatalogEntity :=
  flat_map (fun compVal => get compVal w) (JsMap.values (w_registry w)).

Definition getItemsForApiKind (apiVersion' kind' : string) (w : World)
    : list CatalogEntity :=
  List.filter
    (fun item => String.eqb (apiVersion item) apiVersion' && String.eqb (kind item) kind')
    (items w).

End CatalogEntityRegistry.

(** The current value of the variable [stopPrevious] of a unit. *)
Definition stopPrevious_at (u : UnitRef) (w : World) : option Disposer :=
  match w_units w !! u with
  | Some un => u_stopPrevious un
  | None => None
  end.

Section Manager.
Context `{E : Externals}.

(** *** diffChangedConfig (kubeconfig-sync.source.ts, 167-196) *)

Definition diffChangedConfig (u : UnitRef) (w : World) : Disposer * World :=
  let r := length (w_reads w) in
  (stop_read r, with_reads (fun rs => rs ++ [mkRead u [] false]) w).

(** The listeners of the read stream. *)
Definition on_data (r : ReadRef) (chunk : Buffer) (w : World) : World :=
  with_reads (alter (fun rd => mkRead (r_unit rd) (r_bufs rd ++ [chunk]) (r_closed rd)) r) w.

Definition on_close (r : ReadRef) (w : World) : World :=
  with_reads (alter (fun rd => mkRead (r_unit rd) (r_bufs rd) true) r) w.

Definition on_end (r : ReadRef) (w : World) : World :=
  match w_reads w !! r with
  | Some rd =>
      if negb (r_closed rd) then
        match w_units w !! r_unit rd with
        | Some un =>
            let '(source, h) :=
              computeDiff (Buffer_concat (r_bufs rd)) (u_source un) (u_port un)
                          (u_filePath un) (w_heap w) in
            with_units (alter (fun un' =>
              mkUnit (u_filePath un') (u_port un') (u_watching un') source
                     (u_stopPrevious un')) (r_unit rd))
              (with_heap (fun _ => h) w)
        | None => w
        end
      else w
  | None => w
  end.

(** *** watchFileChanges (kubeconfig-sync.source.ts, 198-223) *)

Definition watchFileChanges (filePath : string) (port : nat) (w : World)
    : (IComputedValue * Disposer) * World :=
  let u := length (w_units w) in
  ((derivedSource u, watcher_close u),
   with_units (fun us => us ++ [mkUnit filePath port true JsMap.empty None]) w).

Definition set_stopPrevious (u : UnitRef) (d : Disposer) (w : World) : World :=
  with_units (alter (fun un =>
    mkUnit (u_filePath un) (u_port un) (u_watching un) (u_source un) (Some d)) u) w.

(** The listeners of the watcher. *)
Definition on_watcher_change (u : UnitRef) (w : World) : World :=
  let w := call_optional (stopPrevious_at u w) w in
  let '(d, w) := diffChangedConfig u w in
  set_stopPrevious u d w.

Definition on_watcher_add (u : UnitRef) (w : World) : World :=
  let w := call_optional (stopPrevious_at u w) w in
  let '(d, w) := diffChangedConfig u w in
  set_stopPrevious u d w.

Definition on_watcher_unlink (u : UnitRef) (w : World) : World :=
  call_optional (stopPrevious_at u w) w.

(** *** KubeconfigSyncManager (kubeconfig-sync.source.ts, 18-89) *)

Definition getSyncName (file : string) : string := "lens:kube-sync:" ++ file.

Definition startNewSync (filePath : string) (port : nat) (w : World) : World :=
  if JsMap.has filePath (w_sources w) then w
  else
    let w := with_heap (logger info "[KUBECONFIG-SYNC]: starting sync of file" filePath None) w in
    let '(changeSet, w) := watchFileChanges filePath port w in
    let w := with_sources (JsMap.set filePath changeSet) w in
    CatalogEntityRegistry.addComputedSource (getSyncName filePath) (fst changeSet) w.

Definition stopOldSync (filePath : string) (w : World) : World :=
  if negb (JsMap.has filePath (w_sources w)) then w
  else
    let w := with_heap (logger info "[KUBECONFIG-SYNC]: stopping sync of file" filePath None) w in
    let w := with_sources (JsMap.delete filePath) w in
    CatalogEntityRegistry.removeSource (getSyncName filePath) w.

(** A change of [kubeconfigSyncStore.files], as [files.observe] reports it. *)
Inductive SetChange : Type :=
| change_add (newValue : string)
| change_delete (oldValue : string).

(** The listener [startSync] passes to [files.observe]. *)
Definition sync_listener (port : nat) (change : SetChange) (w : World) : World :=
  match change with
  | change_add newValue => startNewSync newValue port w
  | change_delete oldValue => stopOldSync oldValue w
  end.

Definition startSync (port : nat) (w : World) : World :=
  if w_syncing w then w
  else
    let w := with_heap (logger info "[KUBECONFIG-SYNC]: starting requested syncs" "" None) w in
    let w := fold_left (fun w filePath => startNewSync filePath port w) (w_files w) w in
    let w := with_syncing true w in
    let i := length (w_observers w) in
    let w := with_observers (fun obs => obs ++ [Some port]) w in
    with_syncListDisposer (Some (unobserve i)) w.

Definition stopSync (w : World) : World :=
  let w := call_optional (w_syncListDisposer w) w in
  let w := fold_left (fun w filePath => stopOldSync filePath w) (JsMap.keys (w_sources w)) w in
  with_syncing false w.

(** *** KubeconfigSyncStore (kubeconfig-sync-store.ts) *)

Definition notify (change : SetChange) (w : World) : World :=
  fold_left
    (fun w obs => match obs with Some port => sync_listener port change w | None => w end)
    (w_observers w) w.

Definition addSyncingFile (file : string) (w : World) : World :=
  if existsb (String.eqb file) (w_files w) then w
  else notify (change_add file) (with_files (fun fs => fs ++ [file]) w).

Definition removeSyncingFile (file : string) (w : World) : World :=
  if existsb (String.eqb file) (w_files w) then
    notify (change_delete file)
      (with_files (List.filter (fun f => negb (String.eqb file f))) w)
  else w.

(** [fromStore]: [files.replace(files)] deletes the values of the set one
    by one, then adds the new ones. *)
Definition fromStore (files : list string) (w : World) : World :=
  let w := fold_left (fun w file => removeSyncingFile file w) (w_files w) w in
  fold_left (fun w file => addSyncingFile file w) files w.

(** *** Events of the main process *)

Inductive WatcherEvent : Type := fs_change | fs_add | fs_unlink.

Inductive Event : Type :=
| call_startSync (port : nat)
| call_stopSync
| call_addSyncingFile (file : string)
| call_removeSyncingFile (file : string)
| call_fromStore (files : list string)
| watcher_emits (u : UnitRef) (e : WatcherEvent)
| stream_data (r : ReadRef) (chunk : Buffer)
| stream_close (r : ReadRef)
| stream_end (r : ReadRef).

(** A closed watcher emits nothing. *)
Definition step (w : World) (ev : Event) : World :=
  match ev with
  | call_startSync port => startSync port w
  | call_stopSync => stopSync w
  | call_addSyncingFile file => addSyncingFile file w
  | call_removeSyncingFile file => removeSyncingFile file w
  | call_fromStore files => fromStore files w
  | watcher_emits u e =>
      match w_units w !! u with
      | Some un =>
          if u_watching un then
            match e with
            | fs_change => on_watcher_change u w
            | fs_add => on_watcher_add u w
            | fs_unlink => on_watcher_unlink u w
            end
          else w
      | None => w
      end
  | stream_data r chunk => on_data r chunk w
  | stream_close r => on_close r w
  | stream_end r => on_end r w
  end.

Definition run (events : list Event) (w : World) : World :=
  fold_left step events w.

End Manager.

(** ** Reads of one unit

    [reads_inv]: a read stream that is not closed is the one its unit's
    [stopPrevious] cancels, and of two reads of one unit the one started
    first is closed. *)
Definition reads_inv (w : World) : Prop :=
  (forall r rd,
     w_reads w !! r = Some rd -> r_closed rd = false ->
     stopPrevious_at (r_unit rd) w = Some (stop_read r))
  /\ (forall r1 r2 rd1 rd2,
        w_reads w !! r1 = Some rd1 -> w_reads w !! r2 = Some rd2 ->
        r_unit rd1 = r_unit rd2 -> r1 < r2 -> r_closed rd1 = true).

(** A step that starts no read and leaves every [stopPrevious] alone. *)
Definition silent (w w' : World) : Prop :=
  w_reads w' = w_reads w /\ forall u, stopPrevious_at u w' = stopPrevious_at u w.

(** A step that starts no read, reopens none and leaves every
    [stopPrevious] alone. *)
Definition reads_advance (w w' : World) : Prop :=
  (forall u, stopPrevious_at u w' = stopPrevious_at u w)
  /\ (forall r rd',
        w_reads w' !! r = Some rd' ->
        exists rd, w_reads w !! r = Some rd /\ r_unit rd = r_unit rd'
                   /\ (r_closed rd' = false -> r_closed rd = false)).

(** ** Classifying the trace of a pass *)

Definition is_Disconnect (e : Effect) : bool :=
  match e with Disconnect _ => true | _ => false end.

Definition is_Construct (e : Effect) : bool :=
  match e with Construct _ => true | _ => false end.


(** The effects a step added to the trace. *)
Definition pass_events (before after : Heap) : list Effect :=
  drop (length (trace before)) (trace after).

(** ** A small instance of the imports, to run the model on

    One character of the file is one context, named by that character.
    A [!] anywhere makes the file unparsable, a context named by a digit
    fails validation, and no cluster can be built for [x] (no apiUrl) or
    [y] (the constructor throws). *)
Module Demo.

Definition load (text : string) : string + string :=
  if existsb (Ascii.eqb "!"%char) (list_ascii_of_string text)
  then inl "YAMLException: bad indentation"
  else inr text.

Definition split (text : string) : list string :=
  map (fun a => String a EmptyString) (list_ascii_of_string text).

Definition is_digit (a : Ascii.ascii) : bool :=
  Nat.leb 48 (Ascii.nat_of_ascii a) && Nat.leb (Ascii.nat_of_ascii a) 57.

Definition validate (config context : string) : option string :=
  match context with
  | String a _ =>
      if is_digit a then Some "Error: No valid cluster object provided in kubeconfig"
      else None
  | EmptyString => Some "Error: No valid context object provided in kubeconfig"
  end.

Definition construct (m : ClusterModel) : CtorResult :=
  if String.eqb (contextName m) "x" then Built None
  else if String.eqb (contextName m) "y" then Throws "Error: ENOENT"
  else Built (Some (String.append "https://" (contextName m))).

Definition toEntity (cl : Cluster) : CatalogEntity :=
  mkEntity "entity.k8slens.dev/v1alpha1" "KubernetesCluster"
    (contextName (c_model cl)) JsMap.empty.

Definition externals : Externals :=
  {| KubeConfig := string;
     currentContext := fun config => config;
     loadConfigFromString := load;
     splitConfig := split;
     validateKubeConfig := validate;
     new_Cluster := construct;
     catalogEntityFromCluster := toEntity |}.

Definition text (s : string) : Buffer := list_byte_of_string s.

Definition empty_heap : Heap := mkHeap [] 0 [].

(** One pass of [computeDiff] for the file c.yaml. *)
Definition pass (content : string) (st : RootSource * Heap) : RootSource * Heap :=
  computeDiff (E := externals) (text content) (fst st) 80 "c.yaml" (snd st).

(** The map of c.yaml after a first pass over the contexts [a] and [b]. *)
Definition after_ab : RootSource * Heap := pass "ab" ([], empty_heap).

(** The file c.yaml is synced and holds the context [a]. *)
Definition synced_a : World :=
  run (E := externals)
    [call_addSyncingFile "c.yaml"; call_startSync 80;
     watcher_emits 0 fs_add; stream_data 0 (text "a"); stream_end 0; stream_close 0]
    initial_world.

(** ... and a rewrite of the file is being read. *)
Definition synced_a_reading : World :=
  run (E := externals) [watcher_emits 0 fs_change; stream_data 1 (text "a")] synced_a.

(** The events that lead to [synced_a], and the unit of c.yaml there. *)
Definition events_a : list Event :=
  [call_addSyncingFile "c.yaml"; call_startSync 80;
   watcher_emits 0 fs_add; stream_data 0 (text "a"); stream_end 0; stream_close 0].

Definition unit_a : WatchUnit :=
  mkUnit "c.yaml" 80 true
    [("a", (0, mkEntity "entity.k8slens.dev/v1alpha1" "KubernetesCluster" "a"
                 [("KUBECONFIG_SYNC", "c.yaml")]))]
    (Some (stop_read 0)).

(** The map after a rewrite of the file that drops [a]. *)
Definition after_b : RootSource * Heap := pass "b" after_ab.

(** c.yaml is taken off the list while its first read is under way and put
    back: a second unit watches the path and starts a read of its own. *)
Definition two_units : World :=
  run (E := externals)
    [call_addSyncingFile "c.yaml"; call_startSync 80;
     watcher_emits 0 fs_add; stream_data 0 (text "a");
     call_removeSyncingFile "c.yaml"; call_addSyncingFile "c.yaml";
     watcher_emits 1 fs_add; stream_data 1 (text "b")]
    initial_world.

(** The entity [computeDiff] stores for a context of c.yaml. *)
Definition record_entity (name : string) : CatalogEntity :=
  mkEntity "entity.k8slens.dev/v1alpha1" "KubernetesCluster" name
    [("KUBECONFIG_SYNC", "c.yaml")].

End Demo.

(** Closed goals about the maps of [Demo]: distinct keys, distinct
    references, membership. *)
Ltac demo_list :=
  vm_compute; repeat constructor; simpl; intuition (try discriminate; try lia).

(** ** Reading the loops of a pass *)
Section PassReadings.
Context `{E : Externals}.

(** [validateKubeConfig] returned without throwing. *)
Definition passes_validation (config : KubeConfig) : bool :=
  match validateKubeConfig config (currentContext config) with
  | None => true
  | Some _ => false
  end.

(** The diagnostics of the validation loop. *)
Definition validation_log (filePath : string) (configs : list KubeConfig) : list Effect :=
  flat_map (fun config =>
    match validateKubeConfig config (currentContext config) with
    | None => []
    | Some error =>
        [Log debug ("[KUBECONFIG-SYNC]: context failed validation: " ++ error)
             filePath (Some (currentContext config))]
    end) configs.

(** The models of a list of configs, with identifiers counted from [n]. *)
Fixpoint models_from (n : nat) (filePath : string) (configs : list KubeConfig)
    : list ClusterModel :=
  match configs with
  | [] => []
  | config :: rest =>
      mkModel n filePath (currentContext config) :: models_from (S n) filePath rest
  end.

(** The [models] map of [computeDiff], before the first loop. *)
Definition target_models (kubeconfigs : list KubeConfig) (filePath : string) (h : Heap)
    : JsMap.t ClusterModel :=
  JsMap.of_entries
    (map (fun m => (contextName m, m)) (fst (configsToModels kubeconfigs filePath h))).

(** [new Cluster(model)] returns a cluster with an apiUrl. *)
Definition constructs (m : ClusterModel) : bool :=
  match new_Cluster m with
  | Throws _ => false
  | Built url => truthy url
  end.

(** What the first loop leaves of the two maps, and what it does to the
    clusters and the trace, read off the entries [es] it visits and the
    [models] map it started with. *)
Definition delete_all {V : Type} (ks : list string) (m : JsMap.t V) : JsMap.t V :=
  fold_left (fun m k => JsMap.delete k m) ks m.

Definition removed_names (es : list (string * RootSourceValue))
    (models : JsMap.t ClusterModel) : list string :=
  List.filter (fun k => negb (JsMap.has k models)) (map fst es).

Definition update_clusters (es : list (string * RootSourceValue))
    (models : JsMap.t ClusterModel) (cls : list Cluster) : list Cluster :=
  fold_left (fun cls entry =>
    match JsMap.get (fst entry) models with
    | None => alter disconnected (fst (snd entry)) cls
    | Some model => alter (updated model) (fst (snd entry)) cls
    end) es cls.

Definition update_events (filePath : string) (es : list (string * RootSourceValue))
    (models : JsMap.t ClusterModel) : list Effect :=
  flat_map (fun entry =>
    match JsMap.get (fst entry) models with
    | None =>
        [Disconnect (fst (snd entry)); MapDelete (fst entry) (fst (snd entry));
         Log debug "[KUBECONFIG-SYNC]: Removed old cluster from sync"
             filePath (Some (fst entry))]
    | Some model =>
        [UpdateModel (fst (snd entry)) model;
         Log debug "[KUBECONFIG-SYNC]: Updated old cluster from sync"
             filePath (Some (fst entry))]
    end) es.

(** The same for the second loop over the entries [ms]; [n] is the
    reference the next cluster gets. *)
Fixpoint added_from (n : nat) (filePath : string) (ms : list (string * ClusterModel))
    : list (string * RootSourceValue) :=
  match ms with
  | [] => []
  | (contextName, model) :: rest =>
      match new_Cluster model with
      | Throws _ => added_from n filePath rest
      | Built url =>
          if truthy url then
            (contextName,
             (n, set_label "KUBECONFIG_SYNC" filePath
                   (catalogEntityFromCluster (mkCluster model url 0))))
            :: added_from (S n) filePath rest
          else added_from n filePath rest
      end
  end.

Fixpoint built_clusters (ms : list (string * ClusterModel)) : list Cluster :=
  match ms with
  | [] => []
  | (_, model) :: rest =>
      match new_Cluster model with
      | Throws _ => built_clusters rest
      | Built url =>
          if truthy url then mkCluster model url 0 :: built_clusters rest
          else built_clusters rest
      end
  end.

Fixpoint add_events (n : nat) (filePath : string) (ms : list (string * ClusterModel))
    : list Effect :=
  match ms with
  | [] => []
  | (contextName, model) :: rest =>
      match new_Cluster model with
      | Throws error =>
          [Construct model;
           Log warn ("KUBECONFIG-SYNC]: Failed to create cluster from model: " ++ error)
               filePath (Some contextName)]
          ++ add_events n filePath rest
      | Built url =>
          if truthy url then
            [Construct model; MapSet contextName n;
             Log debug "[KUBECONFIG-SYNC]: Added new cluster from sync"
                 filePath (Some contextName)]
            ++ add_events (S n) filePath rest
          else
            [Construct model;
             Log warn ("KUBECONFIG-SYNC]: Failed to create cluster from model: "
                       ++ "Error: Cluster constructor failed, see above error")
                 filePath (Some contextName)]
            ++ add_events n filePath rest
      end
  end.

(** Two [models] maps that answer alike for the keys of [es]. *)
Definition agree_on (es : list (string * RootSourceValue))
    (models models' : JsMap.t ClusterModel) : Prop :=
  forall k, In k (map fst es) -> JsMap.get k models' = JsMap.get k models.

(** The cluster references a map holds.  In a map the program built they
    are distinct and point into the store. *)
Definition refs (source : RootSource) : list ClusterRef :=
  map (fun entry => fst (snd entry)) source.

Definition source_ok (source : RootSource) (h : Heap) : Prop :=
  JsMap.wf source
  /\ List.NoDup (refs source)
  /\ (forall c, In c (refs source) -> c < length (clusters h)).

End PassReadings.

(** ** Units and the clusters they own

    [record_ok]: the entity of a record carries the path of its file, and
    its cluster is in the store, holds a model of the record's context and
    file, and has not been disconnected.  [store_inv]: every unit's map has
    one entry per name and one cluster per entry, its records are
    [record_ok], no cluster is held by two units, and no cluster has been
    disconnected twice. *)
Definition record_ok (cls : list Cluster) (path : string)
    (k : string) (c : ClusterRef) (e : CatalogEntity) : Prop :=
  JsMap.get "KUBECONFIG_SYNC" (labels e) = Some path
  /\ exists cl, cls !! c = Some cl
       /\ contextName (c_model cl) = k
       /\ kubeConfigPath (c_model cl) = path
       /\ c_disconnects cl = 0.

Definition unit_ok (cls : list Cluster) (un : WatchUnit) : Prop :=
  JsMap.wf (u_source un)
  /\ List.NoDup (refs (u_source un))
  /\ (forall k c e, In (k, (c, e)) (u_source un) -> record_ok cls (u_filePath un) k c e).

Definition store_inv (w : World) : Prop :=
  (forall u un, w_units w !! u = Some un -> unit_ok (clusters (w_heap w)) un)
  /\ (forall u u' un un' c,
        w_units w !! u = Some un -> w_units w !! u' = Some un' ->
        In c (refs (u_source un)) -> In c (refs (u_source un')) -> u = u')
  /\ (forall c cl, clusters (w_heap w) !! c = Some cl -> c_disconnects cl <= 1).

(** A step that leaves the clusters and the maps of the units alone, and
    gives a unit it creates an empty map. *)
Definition same_store (w w' : World) : Prop :=
  clusters (w_heap w') = clusters (w_heap w)
  /\ (forall u un',
        w_units w' !! u = Some un' ->
        match w_units w !! u with
        | Some un => u_source un' = u_source un /\ u_filePath un' = u_filePath un
        | None => u_source un' = []
        end)
  /\ (forall u un, w_units w !! u = Some un -> exists un', w_units w' !! u = Some un').

(** ** The manager, the registry and the list of files

    [link_inv]: an entry of the manager's table for a path is the computed
    source and the watcher disposer of one unit created for that path, and
    the registry holds that source under the sync name of the path and
    nothing else.  [sync_inv]: while syncing there is a unit for exactly
    the files of the store and one listener on it, the one
    [syncListDisposer] removes; otherwise there is no unit and no
    listener. *)
Definition link_inv (w : World) : Prop :=
  JsMap.wf (w_sources w)
  /\ JsMap.wf (w_registry w)
  /\ (forall p cv d,
        JsMap.get p (w_sources w) = Some (cv, d) ->
        exists u un,
          cv = derivedSource u /\ d = watcher_close u
          /\ w_units w !! u = Some un /\ u_filePath un = p
          /\ JsMap.get (getSyncName p) (w_registry w) = Some cv)
  /\ (forall id cv,
        JsMap.get id (w_registry w) = Some cv ->
        exists p d, id = getSyncName p /\ JsMap.get p (w_sources w) = Some (cv, d)).

Definition no_listener (observers : list (option nat)) : Prop :=
  forall j o, observers !! j = Some o -> o = None.

Definition one_listener (i port : nat) (observers : list (option nat)) : Prop :=
  observers !! i = Some (Some port)
  /\ forall j o, j <> i -> observers !! j = Some o -> o = None.

Definition sync_inv (w : World) : Prop :=
  if w_syncing w then
    (forall f, In f (w_files w) <-> JsMap.has f (w_sources w) = true)
    /\ exists i port,
         w_syncListDisposer w = Some (unobserve i) /\ one_listener i port (w_observers w)
  else
    w_sources w = [] /\ no_listener (w_observers w).

Definition manager_inv (w : World) : Prop := link_inv w /\ sync_inv w.

(** A step that leaves the manager, the registry and the store of files
    alone. *)
Definition same_manager (w w' : World) : Prop :=
  w_sources w' = w_sources w /\ w_registry w' = w_registry w
  /\ w_files w' = w_files w /\ w_observers w' = w_observers w
  /\ w_syncing w' = w_syncing w /\ w_syncListDisposer w' = w_syncListDisposer w.

(** A step that keeps every unit, with its path. *)
Definition paths_kept (w w' : World) : Prop :=
  forall u un, w_units w !! u = Some un ->
    exists un', w_units w' !! u = Some un' /\ u_filePath un' = u_filePath un.

(** The variable [stopPrevious] of a unit only ever holds the disposer of
    a read. *)
Definition stops_inv (w : World) : Prop :=
  forall u d, stopPrevious_at u w = Some d -> exists r, d = stop_read r.

(** ** The watchers

    [watchers_inv]: every watcher created is open, and [syncListDisposer]
    only ever holds the disposer of the listener on the store.
    [watchers_kept]: a step that closes no watcher, gives a unit it
    creates an open watcher, and leaves [syncListDisposer] alone. *)
Definition watchers_inv (w : World) : Prop :=
  (forall u un, w_units w !! u = Some un -> u_watching un = true)
  /\ (forall d, w_syncListDisposer w = Some d -> exists i, d = unobserve i).

Definition watchers_kept (w w' : World) : Prop :=
  (forall u un', w_units w' !! u = Some un' ->
     u_watching un' = true
     \/ exists un, w_units w !! u = Some un /\ u_watching un = u_watching un')
  /\ w_syncListDisposer w' = w_syncListDisposer w.

(** ** KubeconfigSyncStore.toJSON (kubeconfig-sync-store.ts, 36-42)

    The field [files] of the object returned: the values of the set, in
    insertion order. *)
Definition toJSON (w : World) : list string := w_files w.

(** ** SyncKubeconfig (sync-kubeconfig.tsx, 12-24)

    [File + string] is the union type [File | string]; the store is the
    one of the process the component runs in. *)
Module SyncKubeconfig.

Record File : Type := mkFile { path : string }.

Definition addSyncFile (file : File + string) (w : World) : World :=
  match file with
  | inr file => addSyncingFile file w
  | inl file => addSyncingFile (path file) w
  end.

Definition syncManyFiles (files : list (File + string)) (w : World) : World :=
  fold_left (fun w file => addSyncFile file w) files w.

End SyncKubeconfig.

(** * Facts *)

(** ** Maps *)
Section JsMapFacts.
Context {V : Type}.
Implicit Types (m : JsMap.t V) (k : string) (v : V).

Lemma get_set_eq k v m : JsMap.get k (JsMap.set k v m) = Some v.
Proof.
  induction m as [|[k' v'] r IH]; simpl.
  - now rewrite String.eqb_refl.
  - destruct (String.eqb k k') eqn:Hk; simpl; rewrite Hk; auto.
Qed.

Lemma get_set_ne k k' v m :
  k <> k' -> JsMap.get k' (JsMap.set k v m) = JsMap.get k' m.
Proof.
  intros Hne. induction m as [|[k0 v0] r IH]; simpl.
  - apply not_eq_sym, String.eqb_neq in Hne. now rewrite Hne.
  - destruct (String.eqb k k0) eqn:Hk; simpl.
    + apply String.eqb_eq in Hk. subst k0.
      apply not_eq_sym, String.eqb_neq in Hne. now rewrite Hne.
    + now rewrite IH.
Qed.

Lemma get_delete_eq k m : JsMap.get k (JsMap.delete k m) = None.
Proof.
  induction m as [|[k' v'] r IH]; simpl; auto.
  destruct (String.eqb k k') eqn:Hk; simpl; auto. now rewrite Hk.
Qed.

Lemma get_delete_ne k k' m :
  k <> k' -> JsMap.get k' (JsMap.delete k m) = JsMap.get k' m.
Proof.
  intros Hne. induction m as [|[k0 v0] r IH]; simpl; auto.
  destruct (String.eqb k k0) eqn:Hk; simpl.
  - apply String.eqb_eq in Hk. subst k0.
    apply not_eq_sym, String.eqb_neq in Hne. now rewrite Hne.
  - now rewrite IH.
Qed.

Lemma get_None_keys k m : JsMap.get k m = None <-> ~ In k (JsMap.keys m).
Proof.
  induction m as [|[k' v'] r IH]; simpl.
  - tauto.
  - destruct (String.eqb k k') eqn:Hk.
    + apply String.eqb_eq in Hk. subst. split; [discriminate | tauto].
    + apply String.eqb_neq in Hk. rewrite IH. split.
      * intros H [->|H']; tauto.
      * tauto.
Qed.

Lemma get_Some_keys k v m : JsMap.get k m = Some v -> In k (JsMap.keys m).
Proof.
  intros H. destruct (in_dec string_dec k (JsMap.keys m)) as [|Hn]; auto.
  apply get_None_keys in Hn. congruence.
Qed.

Lemma keys_get k m : In k (JsMap.keys m) -> exists v, JsMap.get k m = Some v.
Proof.
  intros H. destruct (JsMap.get k m) eqn:Hg; eauto.
  apply get_None_keys in Hg. tauto.
Qed.

Lemma get_Some_In k v m : JsMap.get k m = Some v -> In (k, v) m.
Proof.
  induction m as [|[k' v'] r IH]; simpl; [discriminate|].
  destruct (String.eqb k k') eqn:Hk.
  - apply String.eqb_eq in Hk. intros [= ->]. subst. auto.
  - auto.
Qed.

Lemma In_get_wf k v m : JsMap.wf m -> In (k, v) m -> JsMap.get k m = Some v.
Proof.
  unfold JsMap.wf. induction m as [|[k' v'] r IH]; simpl; [tauto|].
  intros Hnd [Heq|Hin].
  - injection Heq as -> ->. now rewrite String.eqb_refl.
  - apply NoDup_cons_iff in Hnd as [Hk' Hnd].
    destruct (String.eqb k k') eqn:Hk.
    + apply String.eqb_eq in Hk. subst k'. exfalso. apply Hk'.
      change (In (fst (k, v)) (map fst r)). now apply in_map.
    + auto.
Qed.

Lemma has_true_keys k m : JsMap.has k m = true <-> In k (JsMap.keys m).
Proof.
  unfold JsMap.has. split.
  - destruct (JsMap.get k m) eqn:Hg; [|discriminate]. intros _. eapply get_Some_keys; eauto.
  - intros H. apply keys_get in H as [v ->]. reflexivity.
Qed.

Lemma has_false_get k m : JsMap.has k m = false <-> JsMap.get k m = None.
Proof. unfold JsMap.has. destruct (JsMap.get k m); split; congruence. Qed.

Lemma delete_absent k m : JsMap.get k m = None -> JsMap.delete k m = m.
Proof.
  induction m as [|[k' v'] r IH]; simpl; auto.
  destruct (String.eqb k k'); [discriminate|]. intros H. now rewrite IH.
Qed.

Lemma set_absent k v m : JsMap.get k m = None -> JsMap.set k v m = m ++ [(k, v)].
Proof.
  induction m as [|[k' v'] r IH]; simpl; auto.
  destruct (String.eqb k k'); [discriminate|]. intros H. now rewrite IH.
Qed.

Lemma delete_app k m m' :
  JsMap.delete k (m ++ m') = JsMap.delete k m ++ JsMap.delete k m'.
Proof.
  induction m as [|[k' v'] r IH]; simpl; auto.
  destruct (String.eqb k k'); simpl; now rewrite IH.
Qed.

(** [set] of a fresh key followed by [delete] of it gives the map back. *)
Lemma delete_set_absent k v m :
  JsMap.get k m = None -> JsMap.delete k (JsMap.set k v m) = m.
Proof.
  intros H. rewrite set_absent by assumption. rewrite delete_app.
  rewrite delete_absent by assumption. simpl. rewrite String.eqb_refl.
  apply app_nil_r.
Qed.

Lemma keys_set_present k v m :
  In k (JsMap.keys m) -> JsMap.keys (JsMap.set k v m) = JsMap.keys m.
Proof.
  induction m as [|[k' v'] r IH]; simpl; [tauto|].
  destruct (String.eqb k k') eqn:Hk; simpl; auto.
  apply String.eqb_neq in Hk. intros [->|H]; [tauto|]. now rewrite IH.
Qed.

Lemma keys_set_absent k v m :
  ~ In k (JsMap.keys m) -> JsMap.keys (JsMap.set k v m) = JsMap.keys m ++ [k].
Proof.
  intros H. apply get_None_keys in H. rewrite set_absent by assumption.
  unfold JsMap.keys. now rewrite map_app.
Qed.

Lemma In_keys_set k k' v m :
  In k' (JsMap.keys (JsMap.set k v m)) <-> k' = k \/ In k' (JsMap.keys m).
Proof.
  destruct (in_dec string_dec k (JsMap.keys m)) as [Hin|Hnin].
  - rewrite keys_set_present by assumption. split; [tauto|]. intros [->|]; auto.
  - rewrite keys_set_absent by assumption. rewrite in_app_iff. simpl.
    split; [intros [|[|[]]]; auto | intros [|]; auto].
Qed.

Lemma In_keys_delete k k' m :
  In k' (JsMap.keys (JsMap.delete k m)) <-> k' <> k /\ In k' (JsMap.keys m).
Proof.
  induction m as [|[k0 v0] r IH]; simpl; [tauto|].
  destruct (String.eqb k k0) eqn:Hk; simpl.
  - apply String.eqb_eq in Hk. subst k0. rewrite IH. split; [tauto|].
    intros [Hne [->|H]]; tauto.
  - apply String.eqb_neq in Hk. rewrite IH. split.
    + intros [->|[? ?]]; auto.
    + tauto.
Qed.

Lemma wf_empty : JsMap.wf (@JsMap.empty V).
Proof. constructor. Qed.

Lemma wf_set k v m : JsMap.wf m -> JsMap.wf (JsMap.set k v m).
Proof.
  unfold JsMap.wf. intros Hwf.
  destruct (in_dec string_dec k (JsMap.keys m)) as [Hin|Hnin].
  - now rewrite keys_set_present.
  - rewrite keys_set_absent by assumption.
    apply List.NoDup_app; auto.
    + constructor; [simpl; tauto | constructor].
    + intros x Hx [<-|[]]. tauto.
Qed.

Lemma wf_delete k m : JsMap.wf m -> JsMap.wf (JsMap.delete k m).
Proof.
  unfold JsMap.wf. induction m as [|[k' v'] r IH]; simpl; auto.
  intros Hnd. apply NoDup_cons_iff in Hnd as [Hk' Hnd].
  destruct (String.eqb k k'); simpl; auto.
  constructor; auto. intros Hin.
  apply (In_keys_delete k k' r) in Hin. tauto.
Qed.

End JsMapFacts.

Section OfEntries.
Context {V : Type}.
Implicit Types (m : JsMap.t V) (k : string) (v : V) (l : list (string * V)).

Lemma In_set k v m k' v' :
  In (k', v') (JsMap.set k v m) -> (k', v') = (k, v) \/ In (k', v') m.
Proof.
  induction m as [|[k0 v0] r IH]; simpl.
  - intros [H|[]]; auto.
  - destruct (String.eqb k k0) eqn:Hk; simpl.
    + apply String.eqb_eq in Hk. subst k0. intros [H|H]; auto.
    + intros [H|H]; auto. destruct (IH H); auto.
Qed.

Lemma fold_set_get_skip k l m :
  ~ In k (map fst l) -> JsMap.get k (fold_left JsMap.set_entry l m) = JsMap.get k m.
Proof.
  revert m. induction l as [|[k0 v0] l IH]; simpl; intros m Hn; auto.
  rewrite IH by tauto. unfold JsMap.set_entry. simpl. apply get_set_ne. tauto.
Qed.

Lemma fold_set_keys k l m :
  In k (JsMap.keys (fold_left JsMap.set_entry l m)) <-> In k (map fst l) \/ In k (JsMap.keys m).
Proof.
  revert m. induction l as [|[k0 v0] l IH]; simpl; intros m.
  - tauto.
  - rewrite IH. unfold JsMap.set_entry. simpl. rewrite In_keys_set.
    split; intros H; repeat destruct H as [H|H]; subst; auto.
Qed.

Lemma fold_set_wf l m : JsMap.wf m -> JsMap.wf (fold_left JsMap.set_entry l m).
Proof.
  revert m. induction l as [|[k0 v0] l IH]; simpl; intros m Hwf; auto.
  apply IH. now apply wf_set.
Qed.

Lemma fold_set_In k v l m :
  In (k, v) (fold_left JsMap.set_entry l m) -> In (k, v) l \/ In (k, v) m.
Proof.
  revert m. induction l as [|[k0 v0] l IH]; simpl; intros m H; auto.
  apply IH in H as [H|H]; auto.
  apply In_set in H as [H|H]; auto.
Qed.

Lemma of_entries_fold l : JsMap.of_entries l = fold_left JsMap.set_entry l JsMap.empty.
Proof. reflexivity. Qed.

(** [new Map(entries)] keeps, for a key, the value of its last entry. *)
Lemma of_entries_last k v pre post :
  ~ In k (map fst post) ->
  JsMap.get k (JsMap.of_entries (pre ++ (k, v) :: post)) = Some v.
Proof.
  intros Hn. rewrite of_entries_fold, fold_left_app. simpl.
  rewrite fold_set_get_skip by assumption. apply get_set_eq.
Qed.

Lemma of_entries_keys k l :
  In k (JsMap.keys (JsMap.of_entries l)) <-> In k (map fst l).
Proof. rewrite of_entries_fold, fold_set_keys. simpl. tauto. Qed.

Lemma of_entries_wf l : JsMap.wf (JsMap.of_entries l).
Proof. rewrite of_entries_fold. apply fold_set_wf, wf_empty. Qed.

Lemma of_entries_In k v l : In (k, v) (JsMap.of_entries l) -> In (k, v) l.
Proof. rewrite of_entries_fold. intros H. apply fold_set_In in H as [H|[]]. exact H. Qed.

End OfEntries.

(** ** configsToModels *)
Section ConfigsToModelsFacts.
Context `{E : Externals}.

Lemma validation_loop filePath configs acc h :
  fold_left (validation_step filePath) configs (acc, h)
  = (acc ++ List.filter passes_validation configs,
     mkHeap (clusters h) (next_uuid h) (trace h ++ validation_log filePath configs)).
Proof.
  revert acc h. induction configs as [|c cs IH]; intros acc h; simpl.
  - rewrite !app_nil_r. now destruct h.
  - unfold passes_validation at 1.
    destruct (validateKubeConfig c (currentContext c)) as [err|] eqn:Hv.
    + rewrite IH. simpl. now rewrite <- app_assoc.
    + rewrite IH. simpl. now rewrite <- app_assoc.
Qed.

Lemma model_loop filePath configs out h :
  fold_left (model_step filePath) configs (out, h)
  = (out ++ models_from (next_uuid h) filePath configs,
     mkHeap (clusters h) (next_uuid h + length configs) (trace h)).
Proof.
  revert out h. induction configs as [|c cs IH]; intros out h; simpl.
  - rewrite app_nil_r, Nat.add_0_r. now destruct h.
  - rewrite IH. simpl. rewrite <- app_assoc. simpl.
    now rewrite Nat.add_succ_r.
Qed.

Lemma configsToModels_eq configs filePath h :
  configsToModels configs filePath h
  = (models_from (next_uuid h) filePath (List.filter passes_validation configs),
     mkHeap (clusters h)
            (next_uuid h + length (List.filter passes_validation configs))
            (trace h ++ validation_log filePath configs)).
Proof.
  unfold configsToModels. rewrite validation_loop. simpl.
  now rewrite model_loop.
Qed.

Lemma models_from_names n filePath configs :
  map contextName (models_from n filePath configs) = map currentContext configs.
Proof.
  revert n. induction configs as [|c cs IH]; intros n; simpl; auto.
  now rewrite IH.
Qed.

Lemma models_from_app n filePath cs cs' :
  models_from n filePath (cs ++ cs')
  = models_from n filePath cs ++ models_from (n + length cs) filePath cs'.
Proof.
  revert n. induction cs as [|c cs IH]; intros n; simpl.
  - now rewrite Nat.add_0_r.
  - rewrite IH. now rewrite Nat.add_succ_r.
Qed.

Lemma models_from_path n filePath configs m :
  In m (models_from n filePath configs) -> kubeConfigPath m = filePath.
Proof.
  revert n. induction configs as [|c cs IH]; intros n; simpl; [tauto|].
  intros [<-|H]; eauto.
Qed.

End ConfigsToModelsFacts.

(** ** The two loops of computeDiff *)
Section DeleteAll.
Context {V : Type}.
Implicit Types (m : JsMap.t V) (k : string) (ks : list string).

Lemma get_delete_None k k' m : JsMap.get k m = None -> JsMap.get k (JsMap.delete k' m) = None.
Proof.
  intros H. destruct (string_dec k' k) as [->|Hne].
  - apply get_delete_eq.
  - now rewrite get_delete_ne.
Qed.

Lemma get_delete_all_None k ks m :
  JsMap.get k m = None -> JsMap.get k (delete_all ks m) = None.
Proof.
  unfold delete_all. revert m. induction ks as [|k0 ks IH]; simpl; intros m H; auto.
  apply IH. now apply get_delete_None.
Qed.

Lemma get_delete_all_in k ks m : In k ks -> JsMap.get k (delete_all ks m) = None.
Proof.
  revert m. induction ks as [|k0 ks IH]; simpl; [tauto|].
  intros m [->|H].
  - apply (get_delete_all_None k ks). apply get_delete_eq.
  - apply (IH (JsMap.delete k0 m) H).
Qed.

Lemma get_delete_all_notin k ks m :
  ~ In k ks -> JsMap.get k (delete_all ks m) = JsMap.get k m.
Proof.
  unfold delete_all. revert m. induction ks as [|k0 ks IH]; simpl; intros m Hn; auto.
  rewrite IH by tauto. apply get_delete_ne. tauto.
Qed.

Lemma wf_delete_all ks m : JsMap.wf m -> JsMap.wf (delete_all ks m).
Proof.
  unfold delete_all. revert m. induction ks as [|k0 ks IH]; simpl; intros m Hwf; auto.
  apply IH. now apply wf_delete.
Qed.

Lemma In_delete k m k' v : In (k', v) (JsMap.delete k m) -> In (k', v) m.
Proof.
  induction m as [|[k0 v0] r IH]; simpl; auto.
  destruct (String.eqb k k0); simpl; intros H; auto. destruct H; auto.
Qed.

Lemma In_delete_all ks m k v : In (k, v) (delete_all ks m) -> In (k, v) m.
Proof.
  unfold delete_all. revert m. induction ks as [|k0 ks IH]; simpl; intros m H; auto.
  apply IH in H. eapply In_delete; eauto.
Qed.

End DeleteAll.

Section UpdateLoop.
Context `{E : Externals}.
Implicit Types (es : list (string * RootSourceValue)) (models : JsMap.t ClusterModel).

Lemma agree_on_tail e es models models' :
  agree_on (e :: es) models models' -> agree_on es models models'.
Proof. intros H k Hk. apply H. simpl. auto. Qed.

Lemma removed_names_agree es models models' :
  agree_on es models models' -> removed_names es models' = removed_names es models.
Proof.
  unfold removed_names. induction es as [|[k v] es IH]; simpl; intros H; auto.
  assert (Hk : JsMap.has k models' = JsMap.has k models).
  { unfold JsMap.has. now rewrite (H k) by (simpl; auto). }
  rewrite Hk, IH by (eapply agree_on_tail; eauto). reflexivity.
Qed.

Lemma update_clusters_agree es models models' cls :
  agree_on es models models' ->
  update_clusters es models' cls = update_clusters es models cls.
Proof.
  unfold update_clusters. revert cls.
  induction es as [|[k v] es IH]; simpl; intros cls H; auto.
  rewrite (H k) by (simpl; auto).
  apply IH. eapply agree_on_tail; eauto.
Qed.

Lemma update_events_agree filePath es models models' :
  agree_on es models models' ->
  update_events filePath es models' = update_events filePath es models.
Proof.
  unfold update_events. induction es as [|[k v] es IH]; simpl; intros H; auto.
  rewrite (H k) by (simpl; auto).
  rewrite IH by (eapply agree_on_tail; eauto). reflexivity.
Qed.

Lemma agree_on_delete k es models :
  ~ In k (map fst es) -> agree_on es models (JsMap.delete k models).
Proof.
  intros Hn k' Hk'. apply get_delete_ne. intros ->. tauto.
Qed.

(** The first loop in closed form. *)
Lemma update_loop filePath es source models h :
  List.NoDup (map fst es) ->
  fold_left (update_step filePath) es (source, models, h)
  = (delete_all (removed_names es models) source,
     delete_all (map fst es) models,
     mkHeap (update_clusters es models (clusters h)) (next_uuid h)
            (trace h ++ update_events filePath es models)).
Proof.
  revert source models h.
  induction es as [|[k v] es IH]; intros source models h Hnd.
  - simpl. rewrite app_nil_r. now destruct h.
  - apply NoDup_cons_iff in Hnd as [Hk Hnd].
    cbn [fold_left update_step].
    destruct (JsMap.get k models) as [model|] eqn:Hg.
    + rewrite IH by assumption.
      pose proof (agree_on_delete k es models Hk) as Hag.
      rewrite (removed_names_agree _ _ _ Hag), (update_clusters_agree _ _ _ _ Hag),
              (update_events_agree _ _ _ _ Hag).
      unfold removed_names, update_clusters, update_events, JsMap.has. simpl.
      rewrite Hg. simpl. rewrite <- !app_assoc. reflexivity.
    + rewrite IH by assumption.
      unfold removed_names, update_clusters, update_events, JsMap.has. simpl.
      rewrite Hg. simpl. rewrite <- !app_assoc. simpl.
      rewrite (delete_absent k models Hg). reflexivity.
Qed.

Lemma In_removed_names k es models :
  In k (removed_names es models) <-> In k (map fst es) /\ JsMap.get k models = None.
Proof.
  unfold removed_names. rewrite filter_In. unfold JsMap.has.
  destruct (JsMap.get k models); simpl; intuition congruence.
Qed.


Lemma length_update_clusters es models cls :
  length (update_clusters es models cls) = length cls.
Proof.
  unfold update_clusters. revert cls. induction es as [|[k v] es IH]; simpl; intros cls; auto.
  rewrite IH. destruct (JsMap.get k models); apply length_alter.
Qed.

End UpdateLoop.

Section AddLoop.
Context `{E : Externals}.
Implicit Types (ms : list (string * ClusterModel)).

(** The second loop in closed form. *)
Lemma add_loop filePath ms source h :
  fold_left (add_step filePath) ms (source, h)
  = (fold_left JsMap.set_entry (added_from (length (clusters h)) filePath ms) source,
     mkHeap (clusters h ++ built_clusters ms) (next_uuid h)
            (trace h ++ add_events (length (clusters h)) filePath ms)).
Proof.
  revert source h. induction ms as [|[k m] ms IH]; intros source h.
  - simpl. rewrite !app_nil_r. now destruct h.
  - cbn [fold_left add_step added_from built_clusters add_events].
    destruct (new_Cluster m) as [err|url].
    + rewrite IH. simpl. rewrite <- !app_assoc. reflexivity.
    + destruct (truthy url).
      * rewrite IH. simpl. rewrite length_app, Nat.add_1_r.
        rewrite <- !app_assoc. reflexivity.
      * rewrite IH. simpl. rewrite <- !app_assoc. reflexivity.
Qed.

Lemma In_added_from k n filePath ms :
  In k (map fst (added_from n filePath ms))
  <-> exists m, In (k, m) ms /\ constructs m = true.
Proof.
  unfold constructs. revert n. induction ms as [|[k0 m0] ms IH]; intros n; simpl.
  - split; [tauto | intros [m [[] _]]].
  - destruct (new_Cluster m0) as [err|url] eqn:Hc.
    + rewrite IH. split.
      * intros [m [Hin Hm]]. eauto.
      * intros [m [[Heq|Hin] Hm]]; eauto.
        injection Heq as -> ->. rewrite Hc in Hm. discriminate.
    + destruct (truthy url) eqn:Ht.
      * simpl. rewrite IH. split.
        -- intros [->|[m [Hin Hm]]]; eauto.
           exists m0. rewrite Hc. auto.
        -- intros [m [[Heq|Hin] Hm]]; eauto.
           injection Heq as -> ->. auto.
      * rewrite IH. split.
        -- intros [m [Hin Hm]]. eauto.
        -- intros [m [[Heq|Hin] Hm]]; eauto.
           injection Heq as -> ->. rewrite Hc in Hm. congruence.
Qed.

End AddLoop.

(** ** computeDiff in closed form *)
Section ComputeDiffFacts.
Context `{E : Externals}.

Lemma computeDiff_failure buf source port filePath h error :
  parse buf = inl error ->
  computeDiff buf source port filePath h
  = ([], mkHeap (clusters h) (next_uuid h)
           (trace h ++ [Log warn ("[KUBECONFIG-SYNC]: Failed to compute diff: " ++ error)
                            filePath None; MapClear])).
Proof.
  intros Hp. unfold computeDiff. rewrite Hp. unfold JsMap.clear, logger, emit. simpl.
  now rewrite <- app_assoc.
Qed.

Lemma computeDiff_success buf source port filePath h kubeconfigs :
  JsMap.wf source ->
  parse buf = inr kubeconfigs ->
  let models := target_models kubeconfigs filePath h in
  let kept := delete_all (removed_names source models) source in
  let fresh := delete_all (JsMap.keys source) models in
  let cls := update_clusters source models (clusters h) in
  computeDiff buf source port filePath h
  = (fold_left JsMap.set_entry (added_from (length cls) filePath fresh) kept,
     mkHeap (cls ++ built_clusters fresh)
            (next_uuid h + length (List.filter passes_validation kubeconfigs))
            (trace h ++ validation_log filePath kubeconfigs
                     ++ update_events filePath source models
                     ++ add_events (length cls) filePath fresh)).
Proof.
  intros Hwf Hp. cbv zeta. unfold computeDiff, target_models. rewrite Hp.
  rewrite configsToModels_eq. cbn [fst].
  unfold JsMap.entries. rewrite update_loop by exact Hwf.
  rewrite add_loop. cbn [clusters next_uuid trace].
  rewrite <- !app_assoc. reflexivity.
Qed.

End ComputeDiffFacts.

Section KeySet.
Context `{E : Externals}.

Lemma map_fst_named (l : list ClusterModel) :
  map fst (map (fun m => (contextName m, m)) l) = map contextName l.
Proof. rewrite map_map. reflexivity. Qed.

Lemma target_models_keys kubeconfigs filePath h k :
  In k (JsMap.keys (target_models kubeconfigs filePath h))
  <-> In k (map currentContext (List.filter passes_validation kubeconfigs)).
Proof.
  unfold target_models. rewrite of_entries_keys, map_fst_named.
  rewrite configsToModels_eq. cbn [fst]. now rewrite models_from_names.
Qed.

Lemma target_models_wf kubeconfigs filePath h :
  JsMap.wf (target_models kubeconfigs filePath h).
Proof. apply of_entries_wf. Qed.

Lemma target_models_named kubeconfigs filePath h k m :
  JsMap.get k (target_models kubeconfigs filePath h) = Some m -> contextName m = k.
Proof.
  intros H. apply get_Some_In, of_entries_In in H.
  apply in_map_iff in H as [m' [Heq _]]. now injection Heq as <- <-.
Qed.

Lemma In_fresh (source : RootSource) (models : JsMap.t ClusterModel) k m :
  JsMap.wf models ->
  In (k, m) (delete_all (JsMap.keys source) models)
  <-> JsMap.get k models = Some m /\ ~ In k (JsMap.keys source).
Proof.
  intros Hwf. split.
  - intros Hin.
    pose proof (In_get_wf _ _ _ (wf_delete_all (JsMap.keys source) _ Hwf) Hin) as Hg.
    destruct (in_dec string_dec k (JsMap.keys source)) as [Hk|Hk].
    + rewrite get_delete_all_in in Hg by assumption. discriminate.
    + rewrite get_delete_all_notin in Hg by assumption. auto.
  - intros [Hg Hk]. apply get_Some_In. now rewrite get_delete_all_notin.
Qed.

Lemma get_kept (source : RootSource) (models : JsMap.t ClusterModel) k :
  JsMap.get k (delete_all (removed_names source models) source)
  = match JsMap.get k models with
    | Some _ => JsMap.get k source
    | None => None
    end.
Proof.
  destruct (JsMap.get k models) as [m|] eqn:Hg.
  - apply get_delete_all_notin. rewrite In_removed_names. intros [_ H]. congruence.
  - destruct (in_dec string_dec k (JsMap.keys source)) as [Hk|Hk].
    + apply get_delete_all_in. apply In_removed_names. auto.
    + apply get_delete_all_None. now apply get_None_keys.
Qed.

Lemma In_keys_kept (source : RootSource) (models : JsMap.t ClusterModel) k :
  In k (JsMap.keys (delete_all (removed_names source models) source))
  <-> In k (JsMap.keys source) /\ In k (JsMap.keys models).
Proof.
  split.
  - intros H. apply keys_get in H as [v Hv]. rewrite get_kept in Hv.
    destruct (JsMap.get k models) eqn:Hg; [|discriminate].
    split; eapply get_Some_keys; eauto.
  - intros [Hs Hm]. apply keys_get in Hs as [v Hv]. apply keys_get in Hm as [m Hm].
    apply (get_Some_keys k v). rewrite get_kept, Hm. exact Hv.
Qed.

(** C4. After a pass over a buffer that parses, the keys of the unit's map
    are exactly the context names of the buffer that passed validation,
    less the names skipped on construction failure: a name is a key iff it
    passed validation and either already had its record (which the pass
    updates in place) or had its cluster constructed by this pass. *)
Theorem computeDiff_key_set buf (source : RootSource) port filePath h kubeconfigs :
  JsMap.wf source ->
  parse buf = inr kubeconfigs ->
  forall k,
    In k (JsMap.keys (fst (computeDiff buf source port filePath h)))
    <-> In k (map currentContext (List.filter passes_validation kubeconfigs))
        /\ (In k (JsMap.keys source)
            \/ exists m, JsMap.get k (target_models kubeconfigs filePath h) = Some m
                         /\ constructs m = true).
Proof.
  intros Hwf Hp k.
  rewrite (computeDiff_success _ _ _ _ _ _ Hwf Hp). cbn [fst].
  rewrite fold_set_keys, In_added_from, In_keys_kept.
  rewrite <- (target_models_keys kubeconfigs filePath h k).
  pose proof (target_models_wf kubeconfigs filePath h) as Hm.
  split.
  - intros [[m [Hin Hc]]|[Hs Hk]]; [|tauto].
    apply In_fresh in Hin as [Hg Hn]; [|exact Hm].
    split; [eapply get_Some_keys; eauto | eauto].
  - intros [Hk [Hs|[m [Hg Hc]]]]; [tauto|].
    destruct (in_dec string_dec k (JsMap.keys source)) as [Hs|Hs]; [tauto|].
    left. exists m. split; [|exact Hc]. apply In_fresh; auto.
Qed.

(** Every key of the map after a pass is a validated context name of the
    buffer. *)
Lemma computeDiff_keys_valid buf (source : RootSource) port filePath h kubeconfigs k :
  JsMap.wf source ->
  parse buf = inr kubeconfigs ->
  In k (JsMap.keys (fst (computeDiff buf source port filePath h))) ->
  In k (map currentContext (List.filter passes_validation kubeconfigs)).
Proof.
  intros Hwf Hp Hk. rewrite (computeDiff_success _ _ _ _ _ _ Hwf Hp) in Hk. cbn [fst] in Hk.
  rewrite fold_set_keys, In_added_from, In_keys_kept in Hk.
  rewrite <- (target_models_keys kubeconfigs filePath h k).
  destruct Hk as [[m [Hin Hc]]|[Hs Hk]]; [|tauto].
  apply In_fresh in Hin as [Hg Hn]; [|apply target_models_wf].
  eapply get_Some_keys; eauto.
Qed.

Lemma computeDiff_wf buf (source : RootSource) port filePath h :
  JsMap.wf source -> JsMap.wf (fst (computeDiff buf source port filePath h)).
Proof.
  intros Hwf. destruct (parse buf) as [error|kubeconfigs] eqn:Hp.
  - rewrite (computeDiff_failure _ _ _ _ _ _ Hp). constructor.
  - rewrite (computeDiff_success _ _ _ _ _ _ Hwf Hp). cbn [fst].
    apply fold_set_wf, wf_delete_all, Hwf.
Qed.

End KeySet.

(** A run of C4: the map holds [a] and [b]; the file now reads
    "b", "c", an invalid "1" and an unconstructible "x". *)
Lemma computeDiff_key_set_witness :
  JsMap.keys (fst (Demo.pass "bc1x" Demo.after_ab)) = ["b"; "c"]
  /\ (In "c" (JsMap.keys (fst (Demo.pass "bc1x" Demo.after_ab)))
      <-> In "c" (map (@currentContext Demo.externals)
                    (List.filter (passes_validation (E := Demo.externals))
                                 (Demo.split "bc1x")))
          /\ (In "c" (JsMap.keys (fst Demo.after_ab))
              \/ exists m, JsMap.get "c" (target_models (E := Demo.externals)
                                            (Demo.split "bc1x") "c.yaml" (snd Demo.after_ab))
                           = Some m
                           /\ constructs (E := Demo.externals) m = true)).
Proof.
  split; [reflexivity|].
  apply (computeDiff_key_set (E := Demo.externals)).
  - vm_compute. repeat constructor; simpl; intuition discriminate.
  - reflexivity.
Defined.

Section Validation.
Context `{E : Externals}.

(** [configsToModels] drops each context that fails validation on its
    own, with a debug diagnostic carrying the path, the context name and
    the reason, and goes on: the models are those of the valid contexts,
    in order. *)
Lemma configsToModels_isolates_invalid (configs : list KubeConfig) filePath h :
  map contextName (fst (configsToModels configs filePath h))
  = map currentContext (List.filter passes_validation configs)
  /\ pass_events h (snd (configsToModels configs filePath h))
     = validation_log filePath configs
  /\ (forall config,
        In config configs ->
        match validateKubeConfig config (currentContext config) with
        | None =>
            In (currentContext config)
               (map contextName (fst (configsToModels configs filePath h)))
            /\ JsMap.has (currentContext config) (target_models configs filePath h) = true
        | Some error =>
            In (Log debug ("[KUBECONFIG-SYNC]: context failed validation: " ++ error)
                    filePath (Some (currentContext config)))
               (pass_events h (snd (configsToModels configs filePath h)))
        end).
Proof.
  rewrite configsToModels_eq. cbn [fst snd].
  assert (Hev : pass_events h
            (mkHeap (clusters h)
               (next_uuid h + length (List.filter passes_validation configs))
               (trace h ++ validation_log filePath configs))
          = validation_log filePath configs).
  { unfold pass_events. simpl. now rewrite drop_app_length. }
  rewrite Hev, models_from_names.
  split; [reflexivity|]. split; [reflexivity|].
  intros config Hin.
  destruct (validateKubeConfig config (currentContext config)) as [error|] eqn:Hv.
  - unfold validation_log. apply in_flat_map. exists config. split; [exact Hin|].
    rewrite Hv. simpl. auto.
  - assert (Hname : In (currentContext config)
                      (map currentContext (List.filter passes_validation configs))).
    { apply in_map. apply filter_In. split; [exact Hin|].
      unfold passes_validation. now rewrite Hv. }
    split; [exact Hname|].
    apply has_true_keys. now apply target_models_keys.
Qed.

End Validation.

Section Idempotence.
Context `{E : Externals}.

Lemma pass_events_ext h h' evs : trace h' = trace h ++ evs -> pass_events h h' = evs.
Proof. intros H. unfold pass_events. rewrite H. apply drop_app_length. Qed.

Lemma delete_all_covered {V : Type} (ks : list string) (m : JsMap.t V) :
  (forall k, In k (JsMap.keys m) -> In k ks) -> delete_all ks m = [].
Proof.
  intros H. destruct (delete_all ks m) as [|[k v] l] eqn:Hd; auto.
  assert (Hin : In (k, v) (delete_all ks m)) by (rewrite Hd; simpl; auto).
  assert (Hg : JsMap.get k (delete_all ks m) = None).
  { apply get_delete_all_in, H. apply In_delete_all in Hin.
    change k with (fst (k, v)). now apply in_map. }
  rewrite Hd in Hg. simpl in Hg. rewrite String.eqb_refl in Hg. discriminate.
Qed.






End Idempotence.



Section Duplicates.
Context `{E : Externals}.

Lemma target_models_last kubeconfigs filePath h pre cfg post :
  List.filter passes_validation kubeconfigs = pre ++ cfg :: post ->
  ~ In (currentContext cfg) (map currentContext post) ->
  fst (configsToModels kubeconfigs filePath h) !! length pre
  = Some (mkModel (next_uuid h + length pre) filePath (currentContext cfg))
  /\ JsMap.get (currentContext cfg) (target_models kubeconfigs filePath h)
     = Some (mkModel (next_uuid h + length pre) filePath (currentContext cfg)).
Proof.
  intros Hf Hlast. unfold target_models. rewrite configsToModels_eq. cbn [fst].
  rewrite Hf, models_from_app. cbn [models_from]. split.
  - apply list_lookup_middle.
    clear. generalize (next_uuid h). induction pre as [|c cs IH]; simpl; intros n; auto.
  - rewrite map_app. cbn [map].
    apply (of_entries_last (currentContext cfg)).
    now rewrite map_fst_named, models_from_names.
Qed.

Lemma update_clusters_untouched (es : list (string * RootSourceValue)) models cls c :
  ~ In c (refs es) -> update_clusters es models cls !! c = cls !! c.
Proof.
  unfold update_clusters, refs. revert cls.
  induction es as [|[k [c0 e0]] es IH]; simpl; intros cls Hn; auto.
  rewrite IH by tauto.
  destruct (JsMap.get k models); apply list_lookup_alter_ne; tauto.
Qed.

Lemma update_clusters_model (es : list (string * RootSourceValue)) models cls k c e m :
  List.NoDup (refs es) ->
  In (k, (c, e)) es ->
  JsMap.get k models = Some m ->
  c < length cls ->
  exists cl, update_clusters es models cls !! c = Some cl /\ c_model cl = m.
Proof.
  revert cls. induction es as [|[k0 [c0 e0]] es IH]; simpl; intros cls Hnd Hin Hg Hc; [tauto|].
  apply NoDup_cons_iff in Hnd as [Hc0 Hnd].
  destruct Hin as [Heq|Hin].
  - injection Heq as -> -> ->.
    change (update_clusters ((k, (c, e)) :: es) models cls)
      with (update_clusters es models
              (match JsMap.get k models with
               | None => alter disconnected c cls
               | Some model => alter (updated model) c cls
               end)).
    rewrite Hg, update_clusters_untouched by exact Hc0.
    rewrite list_lookup_alter_eq.
    destruct (lookup_lt_is_Some_2 cls c Hc) as [cl0 Hcl0]. rewrite Hcl0. simpl.
    eexists. split; [reflexivity|]. reflexivity.
  - change (update_clusters ((k0, (c0, e0)) :: es) models cls)
      with (update_clusters es models
              (match JsMap.get k0 models with
               | None => alter disconnected c0 cls
               | Some model => alter (updated model) c0 cls
               end)).
    apply IH; auto.
    destruct (JsMap.get k0 models); rewrite length_alter; exact Hc.
Qed.

Lemma added_from_built (ms : list (string * ClusterModel)) filePath n m :
  In (n, m) ms ->
  constructs m = true ->
  forall base, exists c e url,
    In (n, (c, e)) (added_from base filePath ms)
    /\ forall cls, length cls = base ->
         (cls ++ built_clusters ms) !! c = Some (mkCluster m url 0).
Proof.
  unfold constructs. induction ms as [|[k0 m0] ms IH]; simpl; intros Hin Hc base; [tauto|].
  destruct Hin as [Heq|Hin].
  - injection Heq as -> ->.
    destruct (new_Cluster m) as [err|url]; [discriminate|]. rewrite Hc.
    eexists base, _, url. split; [left; reflexivity|].
    intros cls Hlen. apply list_lookup_middle. auto.
  - destruct (new_Cluster m0) as [err|url0] eqn:Hc0.
    + apply (IH Hin Hc base).
    + destruct (truthy url0).
      * destruct (IH Hin Hc (S base)) as [c [e [url [Ha Hb]]]].
        exists c, e, url. split; [right; exact Ha|].
        intros cls Hlen.
        specialize (Hb (cls ++ [mkCluster m0 url0 0])).
        rewrite <- app_assoc in Hb. simpl in Hb. apply Hb.
        rewrite length_app. simpl. lia.
      * apply (IH Hin Hc base).
Qed.

Lemma added_from_keys_NoDup (ms : list (string * ClusterModel)) filePath base :
  List.NoDup (map fst ms) -> List.NoDup (map fst (added_from base filePath ms)).
Proof.
  revert base. induction ms as [|[k0 m0] ms IH]; simpl; intros base Hnd; [constructor|].
  apply NoDup_cons_iff in Hnd as [Hk Hnd].
  destruct (new_Cluster m0) as [err|url]; auto.
  destruct (truthy url); auto.
  simpl. constructor; auto.
  intros Hin. apply In_added_from in Hin as [m [Hin _]].
  apply Hk. change k0 with (fst (k0, m)). now apply in_map.
Qed.

Lemma fold_set_get_In {V : Type} (l : list (string * V)) (m0 : JsMap.t V) k v :
  List.NoDup (map fst l) ->
  In (k, v) l ->
  JsMap.get k (fold_left JsMap.set_entry l m0) = Some v.
Proof.
  intros Hnd Hin. apply in_split in Hin as [pre [post ->]].
  rewrite map_app in Hnd. simpl in Hnd. apply NoDup_remove_2 in Hnd.
  rewrite fold_left_app. simpl. rewrite fold_set_get_skip.
  - apply get_set_eq.
  - intros H. apply Hnd. apply in_or_app. auto.
Qed.

(** C10, as the code has it.  Of the valid definitions that share a name,
    the last one gives the model of the pass.  When the name already has
    a record, or a cluster can be constructed from that model, the map
    holds exactly one record for the name after the pass and the model of
    its cluster is that of the last definition; when the name has no
    record and no cluster can be constructed, the map holds none. *)
Theorem computeDiff_last_definition_wins
    buf (source : RootSource) port filePath h kubeconfigs pre cfg post :
  source_ok source h ->
  parse buf = inr kubeconfigs ->
  List.filter passes_validation kubeconfigs = pre ++ cfg :: post ->
  ~ In (currentContext cfg) (map currentContext post) ->
  fst (configsToModels kubeconfigs filePath h) !! length pre
  = Some (mkModel (next_uuid h + length pre) filePath (currentContext cfg))
  /\ (In (currentContext cfg) (JsMap.keys source)
      \/ constructs (mkModel (next_uuid h + length pre) filePath (currentContext cfg)) = true ->
      count_occ string_dec
        (JsMap.keys (fst (computeDiff buf source port filePath h))) (currentContext cfg) = 1
      /\ exists c e cl,
           JsMap.get (currentContext cfg) (fst (computeDiff buf source port filePath h))
           = Some (c, e)
           /\ clusters (snd (computeDiff buf source port filePath h)) !! c = Some cl
           /\ c_model cl = mkModel (next_uuid h + length pre) filePath (currentContext cfg))
  /\ (~ In (currentContext cfg) (JsMap.keys source) ->
      constructs (mkModel (next_uuid h + length pre) filePath (currentContext cfg)) = false ->
      count_occ string_dec
        (JsMap.keys (fst (computeDiff buf source port filePath h))) (currentContext cfg) = 0).
Proof.
  intros [Hwf [Hrefs Hvalid]] Hp Hf Hlast.
  destruct (target_models_last kubeconfigs filePath h pre cfg post Hf Hlast) as [Hidx Hg].
  set (n := currentContext cfg) in *.
  set (m := mkModel (next_uuid h + length pre) filePath n) in *.
  split; [exact Hidx|]. split.
  - intros Hcase.
    assert (Hrec : exists c e cl,
              JsMap.get n (fst (computeDiff buf source port filePath h)) = Some (c, e)
              /\ clusters (snd (computeDiff buf source port filePath h)) !! c = Some cl
              /\ c_model cl = m).
    { rewrite (computeDiff_success _ _ _ _ _ _ Hwf Hp). cbn [fst snd clusters].
      set (models := target_models kubeconfigs filePath h) in *.
      destruct (in_dec string_dec n (JsMap.keys source)) as [Hin|Hnin].
      - destruct (keys_get _ _ Hin) as [[c e] Hsrc].
        pose proof (get_Some_In _ _ _ Hsrc) as Hentry.
        assert (Hc : c < length (clusters h)).
        { apply Hvalid. unfold refs.
          apply (in_map (fun entry => fst (snd entry)) _ _ Hentry). }
        destruct (update_clusters_model source models (clusters h) n c e m Hrefs
                    Hentry Hg Hc) as [cl [Hcl Hm]].
        exists c, e, cl. split; [|split; [|exact Hm]].
        + rewrite fold_set_get_skip.
          * rewrite get_kept, Hg. exact Hsrc.
          * intros Hadd. apply In_added_from in Hadd as [m' [Hadd _]].
            apply In_fresh in Hadd as [_ Hadd]; [tauto | apply target_models_wf].
        + rewrite lookup_app_l; [exact Hcl|]. now rewrite length_update_clusters.
      - destruct Hcase as [Hin|Hc]; [tauto|].
        assert (Hfresh : In (n, m) (delete_all (JsMap.keys source) models)).
        { apply In_fresh; [apply target_models_wf | auto]. }
        destruct (added_from_built _ filePath n m Hfresh Hc
                    (length (update_clusters source models (clusters h))))
          as [c [e [url [Hadd Hcl]]]].
        exists c, e, (mkCluster m url 0). split; [|split; [|reflexivity]].
        + apply fold_set_get_In; [|exact Hadd].
          apply added_from_keys_NoDup.
          apply (wf_delete_all (JsMap.keys source) models), target_models_wf.
        + apply Hcl. reflexivity. }
    split; [|exact Hrec].
    destruct Hrec as [c [e [_ [Hget _]]]].
    apply (proj1 (NoDup_count_occ' string_dec _)).
    + now apply computeDiff_wf.
    + eapply get_Some_keys; eauto.
  - intros Hnin Hc. apply count_occ_not_In.
    rewrite (computeDiff_success _ _ _ _ _ _ Hwf Hp). cbn [fst].
    rewrite fold_set_keys, In_added_from, In_keys_kept.
    intros [[m' [Hin Hm']]|[Hin _]]; [|tauto].
    apply In_fresh in Hin as [Hg' _]; [|apply target_models_wf].
    rewrite Hg in Hg'. injection Hg' as <-. rewrite Hc in Hm'. discriminate.
Qed.

End Duplicates.

(** A run of C10's amended form: the map holds [a] and [b], the file now
    defines [c] twice, around [a]. *)
Lemma computeDiff_last_definition_wins_witness :
  fst (configsToModels (E := Demo.externals) (Demo.split "cac") "c.yaml" (snd Demo.after_ab))
    !! 2 = Some (mkModel 4 "c.yaml" "c")
  /\ count_occ string_dec (JsMap.keys (fst (Demo.pass "cac" Demo.after_ab))) "c" = 1
  /\ exists c e cl,
       JsMap.get "c" (fst (Demo.pass "cac" Demo.after_ab)) = Some (c, e)
       /\ clusters (snd (Demo.pass "cac" Demo.after_ab)) !! c = Some cl
       /\ c_model cl = mkModel 4 "c.yaml" "c".
Proof.
  assert (Hok : source_ok (fst Demo.after_ab) (snd Demo.after_ab)).
  { vm_compute. repeat split.
    - repeat constructor; simpl; intuition discriminate.
    - repeat constructor; simpl; intuition discriminate.
    - intros c [<-|[<-|[]]]; repeat constructor. }
  assert (Hlast : ~ In (currentContext (Externals := Demo.externals) "c")
                      (map (@currentContext Demo.externals) [])).
  { simpl. tauto. }
  destruct (computeDiff_last_definition_wins (E := Demo.externals)
              (Demo.text "cac") (fst Demo.after_ab) 80 "c.yaml" (snd Demo.after_ab)
              (Demo.split "cac") ["c"; "a"] "c" [] Hok eq_refl eq_refl Hlast)
    as [Hidx [Hone _]].
  split; [exact Hidx | exact (Hone (or_intror eq_refl))].
Defined.

(** C10 as stated fails: two valid definitions of [x], for which no
    cluster can be constructed, leave no record for [x]. *)
Lemma duplicate_without_cluster_leaves_no_record :
  List.filter (passes_validation (E := Demo.externals)) (Demo.split "xx") = ["x"; "x"]
  /\ count_occ string_dec (JsMap.keys (fst (Demo.pass "xx" ([], Demo.empty_heap)))) "x" = 0.
Proof. split; reflexivity. Qed.

(** ** The two ways a record leaves the map *)
Section Removal.
Context `{E : Externals}.

Lemma update_events_Disconnect filePath (es : list (string * RootSourceValue)) models c :
  In (Disconnect c) (update_events filePath es models) -> In c (refs es).
Proof.
  unfold update_events, refs. intros H. apply in_flat_map in H as [[k [c0 e0]] [Hin H]].
  simpl in H. destruct (JsMap.get k models).
  - destruct H as [H|[H|[]]]; discriminate.
  - destruct H as [H|[H|[H|[]]]]; try discriminate. injection H as ->.
    apply (in_map (fun entry => fst (snd entry)) _ _ Hin).
Qed.

Lemma validation_log_Disconnect filePath (configs : list KubeConfig) c :
  ~ In (Disconnect c) (validation_log filePath configs).
Proof.
  unfold validation_log. intros H. apply in_flat_map in H as [config [_ H]].
  destruct (validateKubeConfig config (currentContext config)); simpl in H;
    intuition discriminate.
Qed.

Lemma add_events_Disconnect filePath (ms : list (string * ClusterModel)) n c :
  ~ In (Disconnect c) (add_events n filePath ms).
Proof.
  revert n. induction ms as [|[k m] ms IH]; simpl; intros n; [tauto|].
  destruct (new_Cluster m) as [err|url]; [|destruct (truthy url)]; simpl;
    intros H; repeat (destruct H as [H|H]; [discriminate|]); eapply IH; eauto.
Qed.

(** X6. The removal path of the first loop: a record whose name left the
    file is disconnected once, and its entry is deleted right after. *)
Lemma removal_disconnects_first
    buf (source : RootSource) port filePath h kubeconfigs k c e :
  source_ok source h ->
  parse buf = inr kubeconfigs ->
  In (k, (c, e)) source ->
  ~ In k (map currentContext (List.filter passes_validation kubeconfigs)) ->
  JsMap.get k (fst (computeDiff buf source port filePath h)) = None
  /\ exists before after,
       pass_events h (snd (computeDiff buf source port filePath h))
       = before ++ [Disconnect c; MapDelete k c] ++ after
       /\ ~ In (Disconnect c) before
       /\ ~ In (Disconnect c) after.
Proof.
  intros [Hwf [Hrefs Hvalid]] Hp Hin Hk.
  assert (Hg : JsMap.get k (target_models kubeconfigs filePath h) = None).
  { apply get_None_keys. now rewrite target_models_keys. }
  split.
  - apply get_None_keys. intros Hkeys.
    apply (computeDiff_keys_valid _ _ _ _ _ _ _ Hwf Hp) in Hkeys. tauto.
  - rewrite (computeDiff_success _ _ _ _ _ _ Hwf Hp). cbn [snd].
    erewrite pass_events_ext by reflexivity.
    set (models := target_models kubeconfigs filePath h) in *.
    destruct (in_split _ _ Hin) as [es1 [es2 Hsplit]].
    assert (Hnd : ~ In c (refs es1 ++ refs es2)).
    { rewrite Hsplit in Hrefs. unfold refs in *. rewrite map_app in Hrefs. simpl in Hrefs.
      now apply NoDup_remove_2 in Hrefs. }
    exists (validation_log filePath kubeconfigs ++ update_events filePath es1 models).
    exists ([Log debug "[KUBECONFIG-SYNC]: Removed old cluster from sync" filePath (Some k)]
            ++ update_events filePath es2 models
            ++ add_events (length (update_clusters source models (clusters h))) filePath
                 (delete_all (JsMap.keys source) models)).
    split; [|split].
    + rewrite Hsplit at 1. unfold update_events at 1. rewrite flat_map_app. simpl.
      rewrite Hg. fold (update_events filePath es1 models).
      fold (update_events filePath es2 models).
      rewrite <- !app_assoc. simpl. reflexivity.
    + intros H. apply in_app_or in H as [H|H].
      * eapply validation_log_Disconnect; eauto.
      * apply update_events_Disconnect in H. apply Hnd, in_or_app. auto.
    + intros H. simpl in H. destruct H as [H|H]; [discriminate|].
      apply in_app_or in H as [H|H].
      * apply update_events_Disconnect in H. apply Hnd, in_or_app. auto.
      * eapply add_events_Disconnect; eauto.
Qed.

(** The failure path: the map is cleared, the clusters are left as they
    are and nothing but the warning and the [clear()] is added to the trace. *)
Lemma failure_disconnects_nothing buf (source : RootSource) port filePath h error :
  parse buf = inl error ->
  fst (computeDiff buf source port filePath h) = []
  /\ clusters (snd (computeDiff buf source port filePath h)) = clusters h
  /\ existsb is_Disconnect (pass_events h (snd (computeDiff buf source port filePath h)))
     = false.
Proof.
  intros Hp. rewrite (computeDiff_failure _ _ _ _ _ _ Hp). cbn [fst snd clusters].
  erewrite pass_events_ext by reflexivity. auto.
Qed.

End Removal.

(** C1 on the code.  The map of c.yaml holds the records of [a] and [b],
    clusters 0 and 1; the file is rewritten with content that does not
    parse.  The pass empties the map and [disconnect()] is called on
    neither cluster. *)
Theorem parse_failure_clears_without_disconnect :
  refs (fst Demo.after_ab) = [0; 1]
  /\ parse (E := Demo.externals) (Demo.text "a!") = inl "YAMLException: bad indentation"
  /\ fst (Demo.pass "a!" Demo.after_ab) = []
  /\ existsb is_Disconnect
       (pass_events (snd Demo.after_ab) (snd (Demo.pass "a!" Demo.after_ab))) = false
  /\ map c_disconnects (clusters (snd (Demo.pass "a!" Demo.after_ab))) = [0; 0].
Proof. repeat split; reflexivity. Qed.

(** C3 on the code.  The record of [a], cluster 0, leaves the map by the
    [clear()] of the failure path without any [disconnect()] on its
    cluster; the removal path of the same function, on a file that only
    drops [a], disconnects cluster 0 and then deletes the entry. *)
Theorem clear_removes_record_never_disconnected :
  (exists e, JsMap.get "a" (fst Demo.after_ab) = Some (0, e))
  /\ JsMap.get "a" (fst (Demo.pass "!" Demo.after_ab)) = None
  /\ c_disconnects <$> clusters (snd (Demo.pass "!" Demo.after_ab)) !! 0 = Some 0
  /\ ~ In (Disconnect 0) (trace (snd (Demo.pass "!" Demo.after_ab)))
  /\ firstn 2 (pass_events (snd Demo.after_ab) (snd (Demo.pass "b" Demo.after_ab)))
     = [Disconnect 0; MapDelete "a" 0].
Proof.
  split; [eexists; reflexivity|].
  split; [reflexivity|]. split; [reflexivity|]. split; [|reflexivity].
  vm_compute. intuition discriminate.
Qed.

(** ** The map and the store stay consistent *)
Section SourceOk.
Context `{E : Externals}.

Lemma fold_set_append {V : Type} (l : list (string * V)) (m : JsMap.t V) :
  List.NoDup (map fst l) ->
  (forall k, In k (map fst l) -> ~ In k (JsMap.keys m)) ->
  fold_left JsMap.set_entry l m = m ++ l.
Proof.
  revert m. induction l as [|[k v] l IH]; simpl; intros m Hnd Hfresh.
  - now rewrite app_nil_r.
  - apply NoDup_cons_iff in Hnd as [Hk Hnd].
    unfold JsMap.set_entry at 2. simpl.
    rewrite set_absent by (apply get_None_keys, Hfresh; auto).
    rewrite IH; auto.
    + now rewrite <- app_assoc.
    + intros k' Hk' Hin. unfold JsMap.keys in Hin. rewrite map_app, in_app_iff in Hin.
      destruct Hin as [Hin|[Heq|[]]].
      * apply (Hfresh k'); auto.
      * simpl in Heq. subst k'. tauto.
Qed.

Lemma refs_delete (source : RootSource) k c :
  In c (refs (JsMap.delete k source)) -> In c (refs source).
Proof.
  unfold refs. induction source as [|[k0 v0] r IH]; simpl; auto.
  destruct (String.eqb k k0); simpl; intros H; auto. destruct H; auto.
Qed.

Lemma refs_delete_NoDup (source : RootSource) k :
  List.NoDup (refs source) -> List.NoDup (refs (JsMap.delete k source)).
Proof.
  induction source as [|[k0 v0] r IH]; simpl; auto.
  intros Hnd. change (refs ((k0, v0) :: r)) with (fst v0 :: refs r) in Hnd.
  apply NoDup_cons_iff in Hnd as [Hc Hnd].
  destruct (String.eqb k k0); auto.
  change (refs ((k0, v0) :: JsMap.delete k r)) with (fst v0 :: refs (JsMap.delete k r)).
  constructor; auto. intros H. apply Hc. eapply refs_delete; eauto.
Qed.

Lemma refs_delete_all (source : RootSource) ks c :
  In c (refs (delete_all ks source)) -> In c (refs source).
Proof.
  unfold delete_all. revert source. induction ks as [|k ks IH]; simpl; intros source H; auto.
  apply IH in H. eapply refs_delete; eauto.
Qed.

Lemma refs_delete_all_NoDup (source : RootSource) ks :
  List.NoDup (refs source) -> List.NoDup (refs (delete_all ks source)).
Proof.
  unfold delete_all. revert source. induction ks as [|k ks IH]; simpl; intros source H; auto.
  apply IH. now apply refs_delete_NoDup.
Qed.

Lemma refs_added_from n filePath (ms : list (string * ClusterModel)) :
  refs (added_from n filePath ms) = seq n (length (built_clusters ms)).
Proof.
  unfold refs. revert n. induction ms as [|[k m] ms IH]; simpl; intros n; auto.
  destruct (new_Cluster m) as [err|url]; auto.
  destruct (truthy url); auto. simpl. now rewrite IH.
Qed.

(** A pass keeps the map well formed, its cluster references distinct
    and all of them in the store. *)
Lemma computeDiff_source_ok buf (source : RootSource) port filePath h :
  source_ok source h ->
  source_ok (fst (computeDiff buf source port filePath h))
            (snd (computeDiff buf source port filePath h)).
Proof.
  intros [Hwf [Hrefs Hvalid]].
  destruct (parse buf) as [error|kubeconfigs] eqn:Hp.
  - rewrite (computeDiff_failure _ _ _ _ _ _ Hp). cbn [fst snd].
    repeat split; try constructor. intros c [].
  - split; [now apply computeDiff_wf|].
    rewrite (computeDiff_success _ _ _ _ _ _ Hwf Hp). cbn [fst snd clusters].
    set (models := target_models kubeconfigs filePath h).
    set (kept := delete_all (removed_names source models) source).
    set (fresh := delete_all (JsMap.keys source) models).
    set (base := length (update_clusters source models (clusters h))).
    assert (Hbase : base = length (clusters h)) by apply length_update_clusters.
    assert (Happ : fold_left JsMap.set_entry (added_from base filePath fresh) kept
                   = kept ++ added_from base filePath fresh).
    { apply fold_set_append.
      - apply added_from_keys_NoDup.
        apply (wf_delete_all (JsMap.keys source) models), target_models_wf.
      - intros k Hk Hkept. apply In_added_from in Hk as [m [Hin _]].
        apply In_fresh in Hin as [_ Hin]; [|apply target_models_wf].
        apply In_keys_kept in Hkept. tauto. }
    rewrite Happ.
    assert (Hr : refs (kept ++ added_from base filePath fresh)
                 = refs kept ++ seq base (length (built_clusters fresh))).
    { unfold refs at 1. rewrite map_app. fold (refs kept).
      fold (refs (added_from base filePath fresh)). now rewrite refs_added_from. }
    rewrite Hr. split.
    + apply List.NoDup_app.
      * now apply refs_delete_all_NoDup.
      * apply seq_NoDup.
      * intros c Hc Hseq. apply refs_delete_all, Hvalid in Hc.
        apply in_seq in Hseq. lia.
    + intros c Hc. rewrite length_app. fold base.
      apply in_app_or in Hc as [Hc|Hc].
      * apply refs_delete_all, Hvalid in Hc. lia.
      * apply in_seq in Hc. lia.
Qed.

End SourceOk.

(** ** CatalogEntityRegistry *)
Section RegistryFacts.

Lemma with_registry_same f w : f (w_registry w) = w_registry w -> with_registry f w = w.
Proof. intros H. destruct w. unfold with_registry. simpl in *. now rewrite H. Qed.

Lemma with_registry_compose f g w :
  with_registry g (with_registry f w) = with_registry (fun reg => g (f reg)) w.
Proof. reflexivity. Qed.

(** Registering under a fresh id and unregistering gives the registry back. *)
Lemma removeSource_addComputedSource id source w :
  JsMap.has id (w_registry w) = false ->
  CatalogEntityRegistry.removeSource id (CatalogEntityRegistry.addComputedSource id source w)
  = w.
Proof.
  intros H. unfold CatalogEntityRegistry.removeSource, CatalogEntityRegistry.addComputedSource.
  rewrite with_registry_compose. apply with_registry_same.
  apply delete_set_absent. now apply has_false_get.
Qed.

(** C7. [items] is the concatenation, in registration order, of what each
    registered source yields in the current store, evaluated at the call;
    and registering a source (computed, or an observable array) under an
    id that is not in use and then removing that id restores the registry,
    hence the aggregate. *)
Theorem items_concat_and_add_remove (w : World) (id : string)
    (source : IComputedValue) (arr : ArrayRef) :
  JsMap.has id (w_registry w) = false ->
  CatalogEntityRegistry.items w
  = concat (map (fun compVal => CatalogEntityRegistry.get compVal w)
              (JsMap.values (w_registry w)))
  /\ CatalogEntityRegistry.items
       (CatalogEntityRegistry.removeSource id
          (CatalogEntityRegistry.addComputedSource id source w))
     = CatalogEntityRegistry.items w
  /\ CatalogEntityRegistry.items
       (CatalogEntityRegistry.removeSource id (CatalogEntityRegistry.addSource id arr w))
     = CatalogEntityRegistry.items w.
Proof.
  intros H. split; [|split].
  - unfold CatalogEntityRegistry.items. apply flat_map_concat_map.
  - now rewrite removeSource_addComputedSource.
  - unfold CatalogEntityRegistry.addSource.
    change (with_registry (JsMap.set id (computedArray arr)) w)
      with (CatalogEntityRegistry.addComputedSource id (computedArray arr) w).
    now rewrite removeSource_addComputedSource.
Qed.

(** While a source is registered its entities are in the aggregate. *)
Lemma items_of_registered (w : World) id compVal entity :
  JsMap.get id (w_registry w) = Some compVal ->
  In entity (CatalogEntityRegistry.get compVal w) ->
  In entity (CatalogEntityRegistry.items w).
Proof.
  intros Hg Hin. unfold CatalogEntityRegistry.items. apply in_flat_map.
  exists compVal. split; [|exact Hin].
  apply get_Some_In in Hg. unfold JsMap.values.
  apply (in_map snd _ _ Hg).
Qed.

(** After [removeSource id] nothing is registered under [id]. *)
Lemma removeSource_unregisters id w :
  JsMap.get id (w_registry (CatalogEntityRegistry.removeSource id w)) = None.
Proof. apply get_delete_eq. Qed.

End RegistryFacts.

(** A run of C7 on the registry of the synced file c.yaml. *)
Lemma items_concat_and_add_remove_witness :
  CatalogEntityRegistry.items Demo.synced_a
  = concat (map (fun compVal => CatalogEntityRegistry.get compVal Demo.synced_a)
              (JsMap.values (w_registry Demo.synced_a)))
  /\ CatalogEntityRegistry.items
       (CatalogEntityRegistry.removeSource "extensions"
          (CatalogEntityRegistry.addComputedSource "extensions" (derivedSource 0)
             Demo.synced_a))
     = CatalogEntityRegistry.items Demo.synced_a
  /\ CatalogEntityRegistry.items
       (CatalogEntityRegistry.removeSource "extensions"
          (CatalogEntityRegistry.addSource "extensions" 0 Demo.synced_a))
     = CatalogEntityRegistry.items Demo.synced_a.
Proof.
  apply (items_concat_and_add_remove Demo.synced_a "extensions" (derivedSource 0) 0).
  reflexivity.
Defined.

(** ** KubeconfigSyncManager *)
Section ManagerFacts.

(** C9. While syncing, [startSync] returns at its guard: the store is
    left as it is, so there is no new unit, no new registered source and
    no second listener on the list of files. *)
Theorem startSync_idempotent (port : nat) (w : World) :
  w_syncing w = true ->
  startSync port w = w
  /\ w_units (startSync port w) = w_units w
  /\ w_registry (startSync port w) = w_registry w
  /\ w_observers (startSync port w) = w_observers w.
Proof.
  intros H. unfold startSync. rewrite H. auto.
Qed.

Lemma startSync_syncing port w : w_syncing (startSync port w) = true.
Proof.
  unfold startSync. destruct (w_syncing w) eqn:H; [exact H | reflexivity].
Qed.

(** C2, as the code has it.  The listener's [delete] case for a path
    with a unit runs [stopOldSync]: the path leaves the manager's table,
    the unit's source is unregistered, and that is all: no read stream is
    touched, every unit keeps its map and its [stopPrevious], the clusters
    are as before and the trace gains only the log line. *)
Theorem delete_event_unregisters_only (port : nat) (path : string) (w : World) :
  JsMap.has path (w_sources w) = true ->
  JsMap.has path (w_sources (sync_listener port (change_delete path) w)) = false
  /\ JsMap.has (getSyncName path)
       (w_registry (sync_listener port (change_delete path) w)) = false
  /\ w_reads (sync_listener port (change_delete path) w) = w_reads w
  /\ map u_source (w_units (sync_listener port (change_delete path) w))
     = map u_source (w_units w)
  /\ map u_stopPrevious (w_units (sync_listener port (change_delete path) w))
     = map u_stopPrevious (w_units w)
  /\ clusters (w_heap (sync_listener port (change_delete path) w)) = clusters (w_heap w)
  /\ pass_events (w_heap w) (w_heap (sync_listener port (change_delete path) w))
     = [Log info "[KUBECONFIG-SYNC]: stopping sync of file" path None].
Proof.
  intros H. unfold sync_listener, stopOldSync. rewrite H. simpl.
  repeat split.
  - apply has_false_get, get_delete_eq.
  - apply has_false_get, get_delete_eq.
  - unfold pass_events. simpl. apply drop_app_length.
Qed.

End ManagerFacts.

(** A run of C9: [startSync] is called again on the syncing manager. *)
Lemma startSync_idempotent_witness :
  startSync 80 Demo.synced_a = Demo.synced_a
  /\ w_units (startSync 80 Demo.synced_a) = w_units Demo.synced_a
  /\ w_registry (startSync 80 Demo.synced_a) = w_registry Demo.synced_a
  /\ w_observers (startSync 80 Demo.synced_a)
     = w_observers Demo.synced_a.
Proof.
  apply (startSync_idempotent 80 Demo.synced_a). reflexivity.
Defined.

(** A run of C2's amended form: c.yaml is removed from the list of files
    while a rewrite of it is being read. *)
Lemma delete_event_unregisters_only_witness :
  JsMap.has "c.yaml"
    (w_sources (sync_listener 80 (change_delete "c.yaml")
                  Demo.synced_a_reading)) = false
  /\ JsMap.has (getSyncName "c.yaml")
       (w_registry (sync_listener 80 (change_delete "c.yaml")
                      Demo.synced_a_reading)) = false
  /\ w_reads (sync_listener 80 (change_delete "c.yaml")
                Demo.synced_a_reading) = w_reads Demo.synced_a_reading.
Proof.
  pose proof (delete_event_unregisters_only 80 "c.yaml"
                Demo.synced_a_reading eq_refl) as [H1 [H2 [H3 _]]].
  split; [exact H1 | split; [exact H2 | exact H3]].
Defined.

(** C2 as stated fails: after the [delete] event for c.yaml the watcher
    of its unit is still watching, the read in flight is not cancelled and
    the cluster of its record has had no [disconnect()]. *)
Lemma delete_event_leaves_unit_running :
  JsMap.has "c.yaml" (w_sources Demo.synced_a_reading) = true
  /\ u_watching <$> w_units (step (E := Demo.externals) Demo.synced_a_reading
                               (call_removeSyncingFile "c.yaml")) !! 0 = Some true
  /\ r_closed <$> w_reads (step (E := Demo.externals) Demo.synced_a_reading
                             (call_removeSyncingFile "c.yaml")) !! 1 = Some false
  /\ refs <$> (u_source <$> w_units (step (E := Demo.externals) Demo.synced_a_reading
                                       (call_removeSyncingFile "c.yaml")) !! 0) = Some [0]
  /\ c_disconnects <$> clusters (w_heap (step (E := Demo.externals) Demo.synced_a_reading
                                           (call_removeSyncingFile "c.yaml"))) !! 0 = Some 0.
Proof. repeat split; reflexivity. Qed.

(** ** Overlapping reads *)
Section ReadsFacts.
Context `{E : Externals}.

Lemma silent_refl w : silent w w.
Proof. split; auto. Qed.

Lemma silent_trans w1 w2 w3 : silent w1 w2 -> silent w2 w3 -> silent w1 w3.
Proof.
  intros [H1 H2] [H3 H4]. split; [congruence|]. intros u. now rewrite H4.
Qed.

Lemma silent_fold {A : Type} (f : World -> A -> World) (l : list A) w :
  (forall w x, silent w (f w x)) -> silent w (fold_left f l w).
Proof.
  intros Hf. revert w. induction l as [|x l IH]; simpl; intros w.
  - apply silent_refl.
  - eapply silent_trans; [apply Hf | apply IH].
Qed.

Lemma silent_advance w w' : silent w w' -> reads_advance w w'.
Proof.
  intros [Hr Hs]. split; [exact Hs|]. intros r rd' H. rewrite Hr in H. eauto.
Qed.

Lemma reads_advance_inv w w' : reads_advance w w' -> reads_inv w -> reads_inv w'.
Proof.
  intros [Hs Hr] [Hopen Hold]. split.
  - intros r rd' Hrd' Hc. destruct (Hr r rd' Hrd') as [rd [Hrd [Hu Hcl]]].
    rewrite Hs, <- Hu. apply Hopen; auto.
  - intros r1 r2 rd1' rd2' H1 H2 Hu Hlt.
    destruct (Hr r1 rd1' H1) as [rd1 [Hrd1 [Hu1 Hc1]]].
    destruct (Hr r2 rd2' H2) as [rd2 [Hrd2 [Hu2 _]]].
    destruct (r_closed rd1') eqn:Hc; auto.
    assert (r_closed rd1 = true) by (eapply Hold; eauto; congruence).
    rewrite Hc1 in H; auto.
Qed.

Lemma stopPrevious_at_alter (f : WatchUnit -> WatchUnit) i u w :
  (forall un, u_stopPrevious (f un) = u_stopPrevious un) ->
  stopPrevious_at u (with_units (alter f i) w) = stopPrevious_at u w.
Proof.
  intros Hf. unfold stopPrevious_at. simpl. rewrite list_lookup_alter.
  destruct (decide (i = u)) as [->|]; [|reflexivity].
  destruct (w_units w !! u) as [un|]; simpl; [apply Hf | reflexivity].
Qed.

Lemma silent_alter_unit (f : WatchUnit -> WatchUnit) i w :
  (forall un, u_stopPrevious (f un) = u_stopPrevious un) ->
  silent w (with_units (alter f i) w).
Proof.
  intros Hf. split; [reflexivity|]. intros u. now apply stopPrevious_at_alter.
Qed.

Lemma advance_alter_read (f : ReadStream -> ReadStream) i w :
  (forall rd, r_unit (f rd) = r_unit rd) ->
  (forall rd, r_closed (f rd) = false -> r_closed rd = false) ->
  reads_advance w (with_reads (alter f i) w).
Proof.
  intros Hu Hc. split; [reflexivity|]. intros r rd'. simpl.
  rewrite list_lookup_alter. destruct (decide (i = r)) as [->|]; [|eauto].
  destruct (w_reads w !! r) as [rd|]; simpl; [|discriminate].
  intros [= <-]. exists rd. auto.
Qed.

Lemma run_disposer_advance d w : reads_advance w (run_disposer d w).
Proof.
  destruct d as [u|r|i]; simpl.
  - apply silent_advance, silent_alter_unit. reflexivity.
  - apply advance_alter_read; [reflexivity | discriminate].
  - apply silent_advance. split; reflexivity.
Qed.

Lemma call_optional_advance d w : reads_advance w (call_optional d w).
Proof.
  destruct d as [d|]; simpl; [apply run_disposer_advance | apply silent_advance, silent_refl].
Qed.

Lemma startNewSync_silent filePath port w : silent w (startNewSync filePath port w).
Proof.
  unfold startNewSync. destruct (JsMap.has filePath (w_sources w)); [apply silent_refl|].
  split; [reflexivity|]. intros u. unfold stopPrevious_at. simpl.
  destruct (lt_eq_lt_dec u (length (w_units w))) as [[Hlt|Heq]|Hgt].
  - now rewrite lookup_app_l.
  - subst u. rewrite list_lookup_middle by reflexivity.
    rewrite (lookup_ge_None_2 (w_units w)) by lia. reflexivity.
  - rewrite !lookup_ge_None_2; auto; [lia|]. rewrite length_app. simpl. lia.
Qed.

Lemma stopOldSync_silent filePath w : silent w (stopOldSync filePath w).
Proof.
  unfold stopOldSync. destruct (negb (JsMap.has filePath (w_sources w)));
    split; reflexivity.
Qed.

Lemma sync_listener_silent port change w : silent w (sync_listener port change w).
Proof.
  destruct change; simpl; [apply startNewSync_silent | apply stopOldSync_silent].
Qed.

Lemma startSync_silent port w : silent w (startSync port w).
Proof.
  unfold startSync. destruct (w_syncing w); [apply silent_refl|].
  eapply silent_trans; [|split; reflexivity].
  eapply silent_trans; [|apply silent_fold; intros; apply startNewSync_silent].
  split; reflexivity.
Qed.

Lemma stopSync_advance w : reads_inv w -> reads_inv (stopSync w).
Proof.
  intros H. unfold stopSync.
  apply (reads_advance_inv w (call_optional (w_syncListDisposer w) w)) in H;
    [|apply call_optional_advance].
  revert H. generalize (call_optional (w_syncListDisposer w) w). intros w1 H.
  eapply reads_advance_inv; [|exact H]. apply silent_advance.
  eapply silent_trans; [|split; reflexivity].
  apply silent_fold. intros; apply stopOldSync_silent.
Qed.

Lemma notify_silent change w : silent w (notify change w).
Proof.
  unfold notify. apply silent_fold. intros w' [port|];
    [apply sync_listener_silent | apply silent_refl].
Qed.

Lemma addSyncingFile_silent file w : silent w (addSyncingFile file w).
Proof.
  unfold addSyncingFile. destruct (existsb (String.eqb file) (w_files w));
    [apply silent_refl|].
  eapply silent_trans; [|apply notify_silent]. split; reflexivity.
Qed.

Lemma removeSyncingFile_silent file w : silent w (removeSyncingFile file w).
Proof.
  unfold removeSyncingFile. destruct (existsb (String.eqb file) (w_files w));
    [|apply silent_refl].
  eapply silent_trans; [|apply notify_silent]. split; reflexivity.
Qed.

Lemma fromStore_silent files w : silent w (fromStore files w).
Proof.
  unfold fromStore.
  apply (silent_trans w (fold_left (fun w file => removeSyncingFile file w) (w_files w) w)).
  - apply silent_fold. intros; apply removeSyncingFile_silent.
  - apply silent_fold. intros; apply addSyncingFile_silent.
Qed.

Lemma on_end_silent r w : silent w (on_end r w).
Proof.
  unfold on_end. destruct (w_reads w !! r) as [rd|]; [|apply silent_refl].
  destruct (negb (r_closed rd)); [|apply silent_refl].
  destruct (w_units w !! r_unit rd) as [un|]; [|apply silent_refl].
  destruct (computeDiff _ _ _ _ _) as [source h].
  eapply silent_trans; [|apply silent_alter_unit; reflexivity].
  split; reflexivity.
Qed.

(** A [change] or [add] of the watcher: the previous read is cancelled
    before the next one is started. *)
Lemma on_watcher_change_inv u un w :
  w_units w !! u = Some un -> reads_inv w -> reads_inv (on_watcher_change u w).
Proof.
  intros Hun Hinv. unfold on_watcher_change.
  pose proof (call_optional_advance (stopPrevious_at u w) w) as Hadv.
  assert (Hclosed : forall r rd,
            w_reads (call_optional (stopPrevious_at u w) w) !! r = Some rd ->
            r_unit rd = u -> r_closed rd = true).
  { intros r rd Hrd Hu. destruct (r_closed rd) eqn:Hc; auto.
    destruct Hadv as [_ Hback]. destruct (Hback r rd Hrd) as [rd0 [Hrd0 [Hu0 Hc0]]].
    destruct Hinv as [Hopen _].
    pose proof (Hopen r rd0 Hrd0 (Hc0 Hc)) as Hsp. rewrite Hu0, Hu in Hsp.
    rewrite Hsp in Hrd. simpl in Hrd. rewrite list_lookup_alter_eq, Hrd0 in Hrd.
    simpl in Hrd. injection Hrd as <-. simpl in Hc. discriminate. }
  assert (Hun1 : exists un1, w_units (call_optional (stopPrevious_at u w) w) !! u = Some un1).
  { destruct (stopPrevious_at u w) as [[u'|r'|i']|]; simpl; eauto.
    rewrite list_lookup_alter. destruct (decide (u' = u)) as [->|]; eauto.
    rewrite Hun. simpl. eauto. }
  apply (reads_advance_inv _ _ Hadv) in Hinv.
  revert Hinv Hclosed Hun1. generalize (call_optional (stopPrevious_at u w) w).
  clear Hadv Hun un w. intros w [Hopen Hold] Hclosed [un Hun].
  unfold diffChangedConfig, set_stopPrevious. split.
  - intros r rd Hrd Hc. simpl in Hrd.
    destruct (lt_eq_lt_dec r (length (w_reads w))) as [[Hlt|Heq]|Hgt].
    + rewrite lookup_app_l in Hrd by assumption.
      assert (Hne : r_unit rd <> u).
      { intros Hu. rewrite (Hclosed r rd Hrd Hu) in Hc. discriminate. }
      unfold stopPrevious_at. simpl. rewrite list_lookup_alter_ne by auto.
      apply (Hopen r rd Hrd Hc).
    + subst r. rewrite list_lookup_middle in Hrd by reflexivity.
      injection Hrd as <-. unfold stopPrevious_at. simpl.
      rewrite list_lookup_alter_eq, Hun. reflexivity.
    + rewrite lookup_ge_None_2 in Hrd; [discriminate|].
      rewrite length_app. simpl. lia.
  - intros r1 r2 rd1 rd2 H1 H2 Hu Hlt. simpl in H1, H2.
    assert (Hr2 : r2 < length (w_reads w ++ [mkRead u [] false])).
    { apply lookup_lt_is_Some. eauto. }
    rewrite length_app in Hr2. simpl in Hr2.
    rewrite lookup_app_l in H1 by lia.
    destruct (Nat.eq_dec r2 (length (w_reads w))) as [->|Hne].
    + rewrite list_lookup_middle in H2 by reflexivity. injection H2 as <-.
      apply (Hclosed r1 rd1 H1 Hu).
    + rewrite lookup_app_l in H2 by lia. eapply Hold; eauto.
Qed.

Create HintDb reads discriminated.

#[local] Hint Resolve silent_refl silent_advance startSync_silent addSyncingFile_silent
  removeSyncingFile_silent fromStore_silent on_end_silent call_optional_advance : reads.

Lemma step_inv w ev : reads_inv w -> reads_inv (step w ev).
Proof.
  intros Hinv.
  destruct ev as [port| |file|file|files|u e|r chunk|r|r]; simpl;
    try (apply (reads_advance_inv w); [solve [auto with reads] | exact Hinv]).
  - now apply stopSync_advance.
  - destruct (w_units w !! u) as [un|] eqn:Hun; [|exact Hinv].
    destruct (u_watching un); [|exact Hinv].
    destruct e.
    + eapply on_watcher_change_inv; eauto.
    + change (on_watcher_add u w) with (on_watcher_change u w).
      eapply on_watcher_change_inv; eauto.
    + apply (reads_advance_inv w); [unfold on_watcher_unlink; auto with reads | exact Hinv].
  - apply (reads_advance_inv w); [|exact Hinv].
    apply advance_alter_read; [reflexivity | auto].
  - apply (reads_advance_inv w); [|exact Hinv].
    apply advance_alter_read; [reflexivity | discriminate].
Qed.

Lemma initial_inv : reads_inv initial_world.
Proof.
  split.
  - intros r rd H. simpl in H. rewrite lookup_nil in H. discriminate.
  - intros r1 r2 rd1 rd2 H. simpl in H. rewrite lookup_nil in H. discriminate.
Qed.

Lemma run_inv events w : reads_inv w -> reads_inv (run events w).
Proof.
  unfold run. revert w. induction events as [|ev events IH]; simpl; intros w H; auto.
  apply IH. now apply step_inv.
Qed.

(** C5. Whatever the events so far, a read of a unit on which a later
    read of the same unit has been started is closed, so its [end],
    whenever it arrives, changes nothing: of the reads of one unit only
    the one started last can reach [computeDiff]. *)
Theorem superseded_read_never_applied (events : list Event) (r1 r2 : ReadRef)
    (rd1 rd2 : ReadStream) :
  w_reads (run events initial_world) !! r1 = Some rd1 ->
  w_reads (run events initial_world) !! r2 = Some rd2 ->
  r_unit rd1 = r_unit rd2 ->
  r1 < r2 ->
  r_closed rd1 = true
  /\ step (run events initial_world) (stream_end r1) = run events initial_world
  /\ forall r rd,
       w_reads (run events initial_world) !! r = Some rd ->
       step (run events initial_world) (stream_end r) <> run events initial_world ->
       forall r' rd',
         w_reads (run events initial_world) !! r' = Some rd' ->
         r_unit rd' = r_unit rd -> r' <= r.
Proof.
  intros H1 H2 Hu Hlt.
  pose proof (run_inv events initial_world initial_inv) as [_ Hold].
  assert (Hc : r_closed rd1 = true) by (eapply Hold; eauto).
  split; [exact Hc|]. split.
  - simpl. unfold on_end. rewrite H1, Hc. reflexivity.
  - intros r rd Hrd Hstep r' rd' Hrd' Hu'.
    destruct (le_lt_dec r' r) as [|Hgt]; auto.
    exfalso. apply Hstep. simpl. unfold on_end. rewrite Hrd.
    assert (r_closed rd = true) as -> by (eapply Hold; eauto).
    reflexivity.
Qed.

End ReadsFacts.

(** A run of C5: c.yaml changes while its first read is still under way;
    the buffer of read 0 would have emptied nothing, yet its [end] is
    ignored. *)
Lemma superseded_read_never_applied_witness :
  r_closed (mkRead 0 [Demo.text "a!"] true) = true
  /\ step (E := Demo.externals)
       (run (E := Demo.externals)
          [call_addSyncingFile "c.yaml"; call_startSync 80; watcher_emits 0 fs_add;
           stream_data 0 (Demo.text "a!"); watcher_emits 0 fs_change]
          initial_world)
       (stream_end 0)
     = run (E := Demo.externals)
         [call_addSyncingFile "c.yaml"; call_startSync 80; watcher_emits 0 fs_add;
          stream_data 0 (Demo.text "a!"); watcher_emits 0 fs_change]
         initial_world.
Proof.
  pose proof (superseded_read_never_applied (E := Demo.externals)
                [call_addSyncingFile "c.yaml"; call_startSync 80; watcher_emits 0 fs_add;
                 stream_data 0 (Demo.text "a!"); watcher_emits 0 fs_change]
                0 1 (mkRead 0 [Demo.text "a!"] true) (mkRead 0 [] false)
                eq_refl eq_refl eq_refl (Nat.lt_0_succ 0)) as [H1 [H2 _]].
  split; [exact H1 | exact H2].
Defined.

(** * Further properties of a pass *)
Section PassRecords.
Context `{E : Externals}.

Lemma update_clusters_lookup (es : list (string * RootSourceValue)) models cls k c e :
  List.NoDup (refs es) ->
  In (k, (c, e)) es ->
  update_clusters es models cls !! c
  = match JsMap.get k models with
    | None => disconnected
    | Some model => updated model
    end <$> cls !! c.
Proof.
  revert cls. induction es as [|[k0 [c0 e0]] es IH]; simpl; intros cls Hnd Hin; [tauto|].
  apply NoDup_cons_iff in Hnd as [Hc0 Hnd].
  change (update_clusters ((k0, (c0, e0)) :: es) models cls)
    with (update_clusters es models
            (match JsMap.get k0 models with
             | None => alter disconnected c0 cls
             | Some model => alter (updated model) c0 cls
             end)).
  destruct Hin as [Heq|Hin].
  - injection Heq as -> -> ->.
    rewrite update_clusters_untouched by exact Hc0.
    destruct (JsMap.get k models); apply list_lookup_alter_eq.
  - rewrite (IH _ Hnd Hin).
    assert (Hne : c0 <> c).
    { intros ->. apply Hc0. unfold refs.
      apply (in_map (fun entry => fst (snd entry)) _ _ Hin). }
    destruct (JsMap.get k0 models); now rewrite list_lookup_alter_ne.
Qed.

Lemma added_from_entry (ms : list (string * ClusterModel)) filePath k c e :
  forall base,
  In (k, (c, e)) (added_from base filePath ms) ->
  exists m url,
    In (k, m) ms /\ new_Cluster m = Built url /\ truthy url = true
    /\ e = set_label "KUBECONFIG_SYNC" filePath (catalogEntityFromCluster (mkCluster m url 0))
    /\ base <= c
    /\ forall cls, length cls = base ->
         (cls ++ built_clusters ms) !! c = Some (mkCluster m url 0).
Proof.
  induction ms as [|[k0 m0] ms IH]; simpl; intros base Hin; [tauto|].
  destruct (new_Cluster m0) as [err|url0] eqn:Hc0.
  - destruct (IH base Hin) as [m [url [H1 H2]]]. exists m, url. tauto.
  - destruct (truthy url0) eqn:Ht.
    + destruct Hin as [Heq|Hin].
      * injection Heq as <- <- <-. exists m0, url0.
        repeat split; auto. intros cls Hlen. now apply list_lookup_middle.
      * destruct (IH (S base) Hin) as [m [url [H1 [H2 [H3 [H4 [H5 H6]]]]]]].
        exists m, url. repeat split; auto; [lia|].
        intros cls Hlen. specialize (H6 (cls ++ [mkCluster m0 url0 0])).
        rewrite <- app_assoc in H6. apply H6. rewrite length_app. simpl. lia.
    + destruct (IH base Hin) as [m [url [H1 H2]]]. exists m, url. tauto.
Qed.

Lemma built_clusters_fresh (ms : list (string * ClusterModel)) cl :
  In cl (built_clusters ms) -> c_disconnects cl = 0.
Proof.
  induction ms as [|[k m] ms IH]; simpl; [tauto|].
  destruct (new_Cluster m) as [err|url]; auto.
  destruct (truthy url); auto. intros [<-|H]; auto.
Qed.

(** X1. A record whose context is still valid in the file survives the
    pass as the same pair of cluster and entity objects under its key. *)
Theorem computeDiff_keeps_valid_records
    buf (source : RootSource) port filePath h kubeconfigs k v :
  JsMap.wf source ->
  parse buf = inr kubeconfigs ->
  In k (map currentContext (List.filter passes_validation kubeconfigs)) ->
  JsMap.get k source = Some v ->
  JsMap.get k (fst (computeDiff buf source port filePath h)) = Some v.
Proof.
  intros Hwf Hp Hk Hv.
  rewrite (computeDiff_success _ _ _ _ _ _ Hwf Hp). cbn [fst].
  apply (target_models_keys kubeconfigs filePath h) in Hk.
  apply keys_get in Hk as [m Hm].
  rewrite fold_set_get_skip.
  - rewrite get_kept, Hm. exact Hv.
  - intros Hadd. apply In_added_from in Hadd as [m' [Hadd _]].
    apply In_fresh in Hadd as [_ Hadd]; [|apply target_models_wf].
    apply Hadd. eapply get_Some_keys; eauto.
Qed.

(** X2. A record the pass adds is a new cluster object, placed in the
    store with no disconnect on it and with the model of its context, and
    its entity is the one derived from that cluster with the label
    KUBECONFIG_SYNC set to the path of the file. *)
Theorem computeDiff_new_record
    buf (source : RootSource) port filePath h kubeconfigs k c e :
  JsMap.wf source ->
  parse buf = inr kubeconfigs ->
  JsMap.get k source = None ->
  JsMap.get k (fst (computeDiff buf source port filePath h)) = Some (c, e) ->
  length (clusters h) <= c
  /\ JsMap.get "KUBECONFIG_SYNC" (labels e) = Some filePath
  /\ exists m url,
       JsMap.get k (target_models kubeconfigs filePath h) = Some m
       /\ new_Cluster m = Built url /\ truthy url = true
       /\ e = set_label "KUBECONFIG_SYNC" filePath
                (catalogEntityFromCluster (mkCluster m url 0))
       /\ clusters (snd (computeDiff buf source port filePath h)) !! c
          = Some (mkCluster m url 0).
Proof.
  intros Hwf Hp Hnone Hget.
  rewrite (computeDiff_success _ _ _ _ _ _ Hwf Hp) in *. cbn [fst snd clusters] in *.
  set (models := target_models kubeconfigs filePath h) in *.
  apply get_Some_In, fold_set_In in Hget. destruct Hget as [Hadd|Hkept].
  - destruct (added_from_entry _ _ _ _ _ _ Hadd) as [m [url [Hin [Hc [Ht [He [Hle Hcl]]]]]]].
    rewrite length_update_clusters in Hle. split; [exact Hle|]. split.
    + subst e. simpl. apply get_set_eq.
    + exists m, url. repeat split; auto.
      apply In_fresh in Hin as [Hg _]; [exact Hg | apply target_models_wf].
  - exfalso. apply In_delete_all in Hkept.
    apply get_None_keys in Hnone. apply Hnone.
    apply (in_map fst _ _ Hkept).
Qed.

(** X3. A pass leaves alone every cluster of the store that the map it
    works on does not hold: its model and its disconnect count are as
    before, whether the buffer parses or not. *)
Theorem computeDiff_frame buf (source : RootSource) port filePath h c :
  JsMap.wf source ->
  c < length (clusters h) ->
  ~ In c (refs source) ->
  clusters (snd (computeDiff buf source port filePath h)) !! c = clusters h !! c.
Proof.
  intros Hwf Hc Hn. destruct (parse buf) as [error|kubeconfigs] eqn:Hp.
  - now rewrite (computeDiff_failure _ _ _ _ _ _ Hp).
  - rewrite (computeDiff_success _ _ _ _ _ _ Hwf Hp). cbn [snd clusters].
    rewrite lookup_app_l by now rewrite length_update_clusters.
    now apply update_clusters_untouched.
Qed.

(** X4. On a buffer that parses, [disconnect()] is called on the cluster
    of a record exactly when its context is no longer valid in the file:
    the count of a removed record's cluster goes up by one, and a kept
    record's cluster keeps its count and takes the new model of its
    context. *)
Theorem computeDiff_disconnects_removed_only
    buf (source : RootSource) port filePath h kubeconfigs k c e cl :
  source_ok source h ->
  parse buf = inr kubeconfigs ->
  In (k, (c, e)) source ->
  clusters h !! c = Some cl ->
  match JsMap.get k (target_models kubeconfigs filePath h) with
  | None =>
      ~ In k (map currentContext (List.filter passes_validation kubeconfigs))
      /\ clusters (snd (computeDiff buf source port filePath h)) !! c
         = Some (mkCluster (c_model cl) (c_apiUrl cl) (S (c_disconnects cl)))
  | Some m =>
      In k (map currentContext (List.filter passes_validation kubeconfigs))
      /\ clusters (snd (computeDiff buf source port filePath h)) !! c
         = Some (mkCluster m (c_apiUrl cl) (c_disconnects cl))
  end.
Proof.
  intros [Hwf [Hrefs Hvalid]] Hp Hin Hcl.
  assert (Hlook : clusters (snd (computeDiff buf source port filePath h)) !! c
                  = match JsMap.get k (target_models kubeconfigs filePath h) with
                    | None => disconnected
                    | Some model => updated model
                    end <$> clusters h !! c).
  { rewrite (computeDiff_success _ _ _ _ _ _ Hwf Hp). cbn [snd clusters].
    rewrite lookup_app_l.
    - now apply (update_clusters_lookup source _ _ k c e).
    - rewrite length_update_clusters. apply lookup_lt_is_Some. eauto. }
  rewrite Hlook, Hcl.
  destruct (JsMap.get k (target_models kubeconfigs filePath h)) as [m|] eqn:Hg.
  - split; [|reflexivity]. apply (target_models_keys kubeconfigs filePath h).
    eapply get_Some_keys; eauto.
  - split; [|reflexivity]. rewrite <- (target_models_keys kubeconfigs filePath h).
    now apply get_None_keys.
Qed.

Lemma update_events_all_removed filePath (es : list (string * RootSourceValue)) :
  List.filter is_Disconnect (update_events filePath es JsMap.empty)
  = map Disconnect (refs es)
  /\ forallb (fun ev => negb (is_Construct ev)) (update_events filePath es JsMap.empty) = true.
Proof.
  induction es as [|[k [c e]] es [IH1 IH2]]; [split; reflexivity|].
  change (update_events filePath ((k, (c, e)) :: es) JsMap.empty)
    with ([Disconnect c; MapDelete k c;
           Log debug "[KUBECONFIG-SYNC]: Removed old cluster from sync" filePath (Some k)]
          ++ update_events filePath es JsMap.empty).
  change (refs ((k, (c, e)) :: es)) with (c :: refs es).
  rewrite List.filter_app, forallb_app, IH1, IH2. split; reflexivity.
Qed.

Lemma validation_log_filter filePath (configs : list KubeConfig) :
  List.filter is_Disconnect (validation_log filePath configs) = []
  /\ forallb (fun ev => negb (is_Construct ev)) (validation_log filePath configs) = true.
Proof.
  unfold validation_log. induction configs as [|c cs [IH1 IH2]]; simpl; auto.
  destruct (validateKubeConfig c (currentContext c)); simpl; auto.
Qed.

(** X5. A buffer that parses but holds no valid context empties the map
    by the removal path: [disconnect()] is called once on the cluster of
    every record, in the order of the map, and nothing is constructed. *)
Theorem computeDiff_no_valid_context
    buf (source : RootSource) port filePath h kubeconfigs :
  JsMap.wf source ->
  parse buf = inr kubeconfigs ->
  List.filter passes_validation kubeconfigs = [] ->
  fst (computeDiff buf source port filePath h) = []
  /\ List.filter is_Disconnect
       (pass_events h (snd (computeDiff buf source port filePath h)))
     = map Disconnect (refs source)
  /\ existsb is_Construct
       (pass_events h (snd (computeDiff buf source port filePath h))) = false.
Proof.
  intros Hwf Hp Hnone.
  rewrite (computeDiff_success _ _ _ _ _ _ Hwf Hp). cbn [fst snd].
  erewrite pass_events_ext by reflexivity.
  assert (Hm : target_models kubeconfigs filePath h = JsMap.empty).
  { unfold target_models. rewrite configsToModels_eq, Hnone. reflexivity. }
  rewrite Hm.
  assert (Hkept : delete_all (removed_names source JsMap.empty) source = []).
  { apply delete_all_covered. intros k Hk. apply In_removed_names. auto. }
  rewrite Hkept.
  change (delete_all (JsMap.keys source) JsMap.empty)
    with (delete_all (V := ClusterModel) (JsMap.keys source) []).
  assert (Hfresh : delete_all (V := ClusterModel) (JsMap.keys source) [] = []).
  { apply delete_all_covered. intros k []. }
  rewrite Hfresh. simpl. rewrite app_nil_r.
  destruct (update_events_all_removed filePath source) as [Hd Hc].
  destruct (validation_log_filter filePath kubeconfigs) as [Hd' Hc'].
  split; [reflexivity|]. split.
  - now rewrite List.filter_app, Hd, Hd'.
  - rewrite existsb_app.
    apply orb_false_intro; apply not_true_is_false; intros Hex;
      apply existsb_exists in Hex as [ev [Hin Hev]].
    + rewrite forallb_forall in Hc'. specialize (Hc' ev Hin). now rewrite Hev in Hc'.
    + rewrite forallb_forall in Hc. specialize (Hc ev Hin). now rewrite Hev in Hc.
Qed.

End PassRecords.

(** Runs of X1 to X5 on the map of c.yaml holding [a] and [b]. *)
Lemma computeDiff_keeps_valid_records_witness :
  JsMap.get "b" (fst (Demo.pass "bc1x" Demo.after_ab))
  = Some (1, Demo.record_entity "b").
Proof.
  apply (computeDiff_keeps_valid_records (E := Demo.externals)
           (Demo.text "bc1x") (fst Demo.after_ab) 80 "c.yaml" (snd Demo.after_ab)
           (Demo.split "bc1x") "b" (1, Demo.record_entity "b")).
  - demo_list.
  - reflexivity.
  - vm_compute. auto.
  - reflexivity.
Defined.

Lemma computeDiff_new_record_witness :
  length (clusters (snd Demo.after_ab)) <= 2
  /\ JsMap.get "KUBECONFIG_SYNC" (labels (Demo.record_entity "c")) = Some "c.yaml".
Proof.
  assert (Hwf : JsMap.wf (fst Demo.after_ab)) by demo_list.
  pose proof (computeDiff_new_record (E := Demo.externals)
                (Demo.text "bc1x") (fst Demo.after_ab) 80 "c.yaml" (snd Demo.after_ab)
                (Demo.split "bc1x") "c" 2 (Demo.record_entity "c")
                Hwf eq_refl eq_refl eq_refl) as [H1 [H2 _]].
  split; [exact H1 | exact H2].
Defined.

Lemma computeDiff_frame_witness :
  clusters (snd (Demo.pass "c!" Demo.after_b)) !! 0 = clusters (snd Demo.after_b) !! 0
  /\ clusters (snd (Demo.pass "c" Demo.after_b)) !! 0 = clusters (snd Demo.after_b) !! 0.
Proof.
  assert (Hwf : JsMap.wf (fst Demo.after_b)) by demo_list.
  assert (Hc : 0 < length (clusters (snd Demo.after_b))) by (vm_compute; lia).
  assert (Hn : ~ In 0 (refs (fst Demo.after_b))) by demo_list.
  split.
  - exact (computeDiff_frame (E := Demo.externals) (Demo.text "c!") (fst Demo.after_b) 80
             "c.yaml" (snd Demo.after_b) 0 Hwf Hc Hn).
  - exact (computeDiff_frame (E := Demo.externals) (Demo.text "c") (fst Demo.after_b) 80
             "c.yaml" (snd Demo.after_b) 0 Hwf Hc Hn).
Defined.

Lemma computeDiff_disconnects_removed_only_witness :
  clusters (snd (Demo.pass "bc1x" Demo.after_ab)) !! 0
  = Some (mkCluster (mkModel 0 "c.yaml" "a") (Some "https://a") 1)
  /\ clusters (snd (Demo.pass "bc1x" Demo.after_ab)) !! 1
     = Some (mkCluster (mkModel 2 "c.yaml" "b") (Some "https://b") 0).
Proof.
  assert (Hok : source_ok (fst Demo.after_ab) (snd Demo.after_ab)).
  { repeat split; [demo_list | demo_list |].
    intros c Hc. vm_compute in Hc. vm_compute. intuition lia. }
  assert (Ha : In ("a", (0, Demo.record_entity "a")) (fst Demo.after_ab))
    by (vm_compute; auto).
  assert (Hb : In ("b", (1, Demo.record_entity "b")) (fst Demo.after_ab))
    by (vm_compute; auto).
  split.
  - exact (proj2 (computeDiff_disconnects_removed_only (E := Demo.externals)
                    (Demo.text "bc1x") (fst Demo.after_ab) 80 "c.yaml" (snd Demo.after_ab)
                    (Demo.split "bc1x") "a" 0 (Demo.record_entity "a")
                    (mkCluster (mkModel 0 "c.yaml" "a") (Some "https://a") 0)
                    Hok eq_refl Ha eq_refl)).
  - exact (proj2 (computeDiff_disconnects_removed_only (E := Demo.externals)
                    (Demo.text "bc1x") (fst Demo.after_ab) 80 "c.yaml" (snd Demo.after_ab)
                    (Demo.split "bc1x") "b" 1 (Demo.record_entity "b")
                    (mkCluster (mkModel 1 "c.yaml" "b") (Some "https://b") 0)
                    Hok eq_refl Hb eq_refl)).
Defined.

Lemma computeDiff_no_valid_context_witness :
  fst (Demo.pass "12" Demo.after_ab) = []
  /\ List.filter is_Disconnect
       (pass_events (snd Demo.after_ab) (snd (Demo.pass "12" Demo.after_ab)))
     = [Disconnect 0; Disconnect 1].
Proof.
  assert (Hwf : JsMap.wf (fst Demo.after_ab)) by demo_list.
  pose proof (computeDiff_no_valid_context (E := Demo.externals)
                (Demo.text "12") (fst Demo.after_ab) 80 "c.yaml" (snd Demo.after_ab)
                (Demo.split "12") Hwf eq_refl eq_refl) as [H1 [H2 _]].
  split; [exact H1 | exact H2].
Defined.

Lemma removal_disconnects_first_witness :
  JsMap.get "a" (fst (Demo.pass "bc1x" Demo.after_ab)) = None.
Proof.
  assert (Hok : source_ok (fst Demo.after_ab) (snd Demo.after_ab)).
  { repeat split; [demo_list | demo_list |].
    intros c Hc. vm_compute in Hc. vm_compute. intuition lia. }
  assert (Ha : In ("a", (0, Demo.record_entity "a")) (fst Demo.after_ab))
    by (vm_compute; auto).
  assert (Hn : ~ In "a" (map (@currentContext Demo.externals)
                          (List.filter (passes_validation (E := Demo.externals))
                                       (Demo.split "bc1x")))) by demo_list.
  exact (proj1 (removal_disconnects_first (E := Demo.externals)
                  (Demo.text "bc1x") (fst Demo.after_ab) 80 "c.yaml" (snd Demo.after_ab)
                  (Demo.split "bc1x") "a" 0 (Demo.record_entity "a") Hok eq_refl Ha Hn)).
Defined.

(** * Units and the clusters they own *)
Section StoreInvariant.
Context `{E : Externals}.

Lemma target_models_path kubeconfigs filePath h k m :
  JsMap.get k (target_models kubeconfigs filePath h) = Some m ->
  kubeConfigPath m = filePath.
Proof.
  intros H. apply get_Some_In, of_entries_In in H.
  apply in_map_iff in H as [m' [Heq Hin]]. injection Heq as _ ->.
  rewrite configsToModels_eq in Hin. cbn [fst] in Hin.
  eapply models_from_path; eauto.
Qed.

Lemma In_refs (source : RootSource) c :
  In c (refs source) <-> exists k e, In (k, (c, e)) source.
Proof.
  unfold refs. rewrite in_map_iff. split.
  - intros [[k [c' e]] [Heq Hin]]. simpl in Heq. subst c'. eauto.
  - intros [k [e Hin]]. exists (k, (c, e)). auto.
Qed.

(** Where the entries of the map after a pass come from. *)
Lemma computeDiff_entries buf (source : RootSource) port filePath h kubeconfigs k c e :
  JsMap.wf source ->
  parse buf = inr kubeconfigs ->
  In (k, (c, e)) (fst (computeDiff buf source port filePath h)) ->
  exists m,
    JsMap.get k (target_models kubeconfigs filePath h) = Some m
    /\ (In (k, (c, e)) source
        \/ (length (clusters h) <= c
            /\ JsMap.get "KUBECONFIG_SYNC" (labels e) = Some filePath
            /\ exists url,
                 clusters (snd (computeDiff buf source port filePath h)) !! c
                 = Some (mkCluster m url 0))).
Proof.
  intros Hwf Hp Hin.
  rewrite (computeDiff_success _ _ _ _ _ _ Hwf Hp) in *. cbn [fst snd clusters] in *.
  set (models := target_models kubeconfigs filePath h) in *.
  apply fold_set_In in Hin as [Hadd|Hkept].
  - destruct (added_from_entry _ _ _ _ _ _ Hadd) as [m [url [Hin [Hc [Ht [He [Hle Hcl]]]]]]].
    rewrite length_update_clusters in Hle.
    apply In_fresh in Hin as [Hg _]; [|apply target_models_wf].
    exists m. split; [exact Hg|]. right. split; [exact Hle|]. split.
    + subst e. simpl. apply get_set_eq.
    + exists url. now apply Hcl.
  - pose proof (In_get_wf _ _ _ (wf_delete_all _ _ Hwf) Hkept) as Hg.
    rewrite get_kept in Hg.
    destruct (JsMap.get k models) as [m|] eqn:Hm; [|discriminate].
    exists m. split; [reflexivity|]. left. eapply In_delete_all; eauto.
Qed.

Lemma computeDiff_untouched buf (source : RootSource) port filePath h c :
  JsMap.wf source ->
  c < length (clusters h) ->
  ~ In c (refs source) ->
  clusters (snd (computeDiff buf source port filePath h)) !! c = clusters h !! c.
Proof.
  intros Hwf Hc Hn. destruct (parse buf) as [error|kubeconfigs] eqn:Hp.
  - now rewrite (computeDiff_failure _ _ _ _ _ _ Hp).
  - rewrite (computeDiff_success _ _ _ _ _ _ Hwf Hp). cbn [snd clusters].
    rewrite lookup_app_l by now rewrite length_update_clusters.
    now apply update_clusters_untouched.
Qed.

Lemma computeDiff_held buf (source : RootSource) port filePath h kubeconfigs k c e :
  JsMap.wf source ->
  List.NoDup (refs source) ->
  parse buf = inr kubeconfigs ->
  In (k, (c, e)) source ->
  c < length (clusters h) ->
  clusters (snd (computeDiff buf source port filePath h)) !! c
  = match JsMap.get k (target_models kubeconfigs filePath h) with
    | None => disconnected
    | Some model => updated model
    end <$> clusters h !! c.
Proof.
  intros Hwf Hnd Hp Hin Hc.
  rewrite (computeDiff_success _ _ _ _ _ _ Hwf Hp). cbn [snd clusters].
  rewrite lookup_app_l by now rewrite length_update_clusters.
  now apply (update_clusters_lookup source _ _ k c e).
Qed.

Lemma record_ok_lt cls path k c e : record_ok cls path k c e -> c < length cls.
Proof. intros [_ [cl [Hcl _]]]. apply lookup_lt_is_Some. eauto. Qed.

(** The records of the map a pass works on are in order after it. *)
Lemma computeDiff_records_ok buf (source : RootSource) port filePath h :
  JsMap.wf source ->
  List.NoDup (refs source) ->
  (forall k c e, In (k, (c, e)) source -> record_ok (clusters h) filePath k c e) ->
  forall k c e,
    In (k, (c, e)) (fst (computeDiff buf source port filePath h)) ->
    record_ok (clusters (snd (computeDiff buf source port filePath h))) filePath k c e.
Proof.
  intros Hwf Hnd Hrec k c e Hin.
  destruct (parse buf) as [error|kubeconfigs] eqn:Hp.
  - rewrite (computeDiff_failure _ _ _ _ _ _ Hp) in Hin. destruct Hin.
  - destruct (computeDiff_entries _ _ _ _ _ _ _ _ _ Hwf Hp Hin)
      as [m [Hg [Hold|[Hle [Hlab [url Hcl]]]]]].
    + destruct (Hrec _ _ _ Hold) as [Hlab [cl [Hcl [_ [_ Hcount]]]]].
      split; [exact Hlab|].
      rewrite (computeDiff_held _ _ _ _ _ _ k c e Hwf Hnd Hp Hold), Hg, Hcl
        by (apply lookup_lt_is_Some; eauto).
      eexists. split; [reflexivity|]. simpl.
      repeat split; [eapply target_models_named | eapply target_models_path | ]; eauto.
    + split; [exact Hlab|]. exists (mkCluster m url 0). simpl.
      repeat split; [exact Hcl | eapply target_models_named | eapply target_models_path];
        eauto.
Qed.

(** ... and so are the records of every other map. *)
Lemma computeDiff_other_record buf (source : RootSource) port filePath h path k c e :
  JsMap.wf source ->
  ~ In c (refs source) ->
  record_ok (clusters h) path k c e ->
  record_ok (clusters (snd (computeDiff buf source port filePath h))) path k c e.
Proof.
  intros Hwf Hn Hrec. pose proof (record_ok_lt _ _ _ _ _ Hrec) as Hc.
  destruct Hrec as [Hlab Hcl]. split; [exact Hlab|].
  now rewrite computeDiff_untouched.
Qed.

Lemma computeDiff_counts buf (source : RootSource) port filePath h :
  JsMap.wf source ->
  List.NoDup (refs source) ->
  (forall k c e, In (k, (c, e)) source -> record_ok (clusters h) filePath k c e) ->
  (forall c cl, clusters h !! c = Some cl -> c_disconnects cl <= 1) ->
  forall c cl,
    clusters (snd (computeDiff buf source port filePath h)) !! c = Some cl ->
    c_disconnects cl <= 1.
Proof.
  intros Hwf Hnd Hrec Hcount c cl Hcl.
  destruct (parse buf) as [error|kubeconfigs] eqn:Hp.
  - rewrite (computeDiff_failure _ _ _ _ _ _ Hp) in Hcl. eauto.
  - destruct (le_lt_dec (length (clusters h)) c) as [Hge|Hlt].
    + rewrite (computeDiff_success _ _ _ _ _ _ Hwf Hp) in Hcl. cbn [snd clusters] in Hcl.
      rewrite lookup_app_r in Hcl by now rewrite length_update_clusters.
      apply list_elem_of_lookup_2, list_elem_of_In, built_clusters_fresh in Hcl. lia.
    + destruct (in_dec Nat.eq_dec c (refs source)) as [Hin|Hnin].
      * apply In_refs in Hin as [k [e Hin]].
        rewrite (computeDiff_held _ _ _ _ _ _ k c e Hwf Hnd Hp Hin Hlt) in Hcl.
        destruct (Hrec _ _ _ Hin) as [_ [cl0 [Hcl0 [_ [_ H0]]]]].
        rewrite Hcl0 in Hcl. simpl in Hcl. injection Hcl as <-.
        destruct (JsMap.get k (target_models kubeconfigs filePath h)); simpl; lia.
      * rewrite computeDiff_untouched in Hcl by assumption. eauto.
Qed.

Lemma computeDiff_refs buf (source : RootSource) port filePath h c :
  JsMap.wf source ->
  In c (refs (fst (computeDiff buf source port filePath h))) ->
  In c (refs source) \/ length (clusters h) <= c.
Proof.
  intros Hwf Hin. destruct (parse buf) as [error|kubeconfigs] eqn:Hp.
  - rewrite (computeDiff_failure _ _ _ _ _ _ Hp) in Hin. destruct Hin.
  - apply In_refs in Hin as [k [e Hin]].
    destruct (computeDiff_entries _ _ _ _ _ _ _ _ _ Hwf Hp Hin) as [m [_ [Hold|[Hle _]]]].
    + left. apply In_refs. eauto.
    + now right.
Qed.

Lemma computeDiff_length buf (source : RootSource) port filePath h :
  JsMap.wf source ->
  length (clusters h) <= length (clusters (snd (computeDiff buf source port filePath h))).
Proof.
  intros Hwf. destruct (parse buf) as [error|kubeconfigs] eqn:Hp.
  - now rewrite (computeDiff_failure _ _ _ _ _ _ Hp).
  - rewrite (computeDiff_success _ _ _ _ _ _ Hwf Hp). cbn [snd clusters].
    rewrite length_app, length_update_clusters. lia.
Qed.

End StoreInvariant.

Section StoreSteps.
Context `{E : Externals}.

Lemma same_store_refl w : same_store w w.
Proof.
  split; [reflexivity|]. split.
  - intros u un' H. rewrite H. auto.
  - eauto.
Qed.

Lemma same_store_trans w1 w2 w3 : same_store w1 w2 -> same_store w2 w3 -> same_store w1 w3.
Proof.
  intros [Hc1 [Hn1 Ho1]] [Hc2 [Hn2 Ho2]]. split; [congruence|]. split.
  - intros u un3 H3. specialize (Hn2 u un3 H3).
    destruct (w_units w2 !! u) as [un2|] eqn:H2.
    + specialize (Hn1 u un2 H2). destruct Hn2 as [Hs Hp].
      destruct (w_units w1 !! u); [destruct Hn1; split; congruence | congruence].
    + destruct (w_units w1 !! u) as [un1|] eqn:H1; [|exact Hn2].
      destruct (Ho1 u un1 H1) as [un2 Hun2]. congruence.
  - intros u un1 H1. destruct (Ho1 u un1 H1) as [un2 H2]. eauto.
Qed.

Lemma same_store_fold {A : Type} (f : World -> A -> World) (l : list A) w :
  (forall w x, same_store w (f w x)) -> same_store w (fold_left f l w).
Proof.
  intros Hf. revert w. induction l as [|x l IH]; simpl; intros w.
  - apply same_store_refl.
  - eapply same_store_trans; [apply Hf | apply IH].
Qed.

(** A step that touches neither the heap's clusters nor the units. *)
Lemma same_store_fields w w' :
  clusters (w_heap w') = clusters (w_heap w) -> w_units w' = w_units w -> same_store w w'.
Proof.
  intros Hc Hu. split; [exact Hc|]. rewrite Hu. split.
  - intros u un' H. rewrite H. auto.
  - eauto.
Qed.

Lemma same_store_alter (f : WatchUnit -> WatchUnit) i w :
  (forall un, u_source (f un) = u_source un /\ u_filePath (f un) = u_filePath un) ->
  same_store w (with_units (alter f i) w).
Proof.
  intros Hf. split; [reflexivity|]. simpl. split.
  - intros u un'. rewrite list_lookup_alter.
    destruct (decide (i = u)) as [->|].
    + destruct (w_units w !! u) as [un|]; simpl; [|discriminate].
      intros [= <-]. apply Hf.
    + intros H. rewrite H. auto.
  - intros u un H. rewrite list_lookup_alter.
    destruct (decide (i = u)) as [->|]; [rewrite H; simpl|]; eauto.
Qed.

Lemma same_store_inv w w' : same_store w w' -> store_inv w -> store_inv w'.
Proof.
  intros [Hc [Hn Ho]] [Hunits [Hdisj Hcount]]. unfold store_inv. rewrite Hc.
  assert (Hold : forall u un' c, w_units w' !! u = Some un' -> In c (refs (u_source un')) ->
            exists un, w_units w !! u = Some un /\ u_source un' = u_source un
                       /\ u_filePath un' = u_filePath un).
  { intros u un' c Hun' Hin. specialize (Hn u un' Hun').
    destruct (w_units w !! u) as [un|]; [exists un; tauto|].
    rewrite Hn in Hin. destruct Hin. }
  split; [|split; [|exact Hcount]].
  - intros u un' Hun'. specialize (Hn u un' Hun').
    destruct (w_units w !! u) as [un|] eqn:Hun.
    + destruct Hn as [Hs Hp]. destruct (Hunits u un Hun) as [H1 [H2 H3]].
      unfold unit_ok. rewrite Hs, Hp. auto.
    + unfold unit_ok. rewrite Hn. split; [constructor|]. split; [constructor|].
      intros k0 c0 e0 [].
  - intros u u' un1 un2 c H1 H2 Hin1 Hin2.
    destruct (Hold _ _ _ H1 Hin1) as [un1' [H1' [Hs1 _]]].
    destruct (Hold _ _ _ H2 Hin2) as [un2' [H2' [Hs2 _]]].
    rewrite Hs1 in Hin1. rewrite Hs2 in Hin2. eapply Hdisj; eauto.
Qed.

Lemma run_disposer_same_store d w : same_store w (run_disposer d w).
Proof.
  destruct d as [u|r|i]; simpl.
  - apply same_store_alter. auto.
  - now apply same_store_fields.
  - now apply same_store_fields.
Qed.

Lemma call_optional_same_store d w : same_store w (call_optional d w).
Proof.
  destruct d as [d|]; simpl; [apply run_disposer_same_store | apply same_store_refl].
Qed.

Lemma startNewSync_same_store filePath port w : same_store w (startNewSync filePath port w).
Proof.
  unfold startNewSync. destruct (JsMap.has filePath (w_sources w)); [apply same_store_refl|].
  split; [reflexivity|]. simpl. split.
  - intros u un' Hun'.
    destruct (w_units w !! u) as [un|] eqn:Hun.
    + rewrite lookup_app_l in Hun' by (apply lookup_lt_is_Some; eauto).
      rewrite Hun in Hun'. injection Hun' as <-. auto.
    + apply lookup_ge_None in Hun.
      rewrite lookup_app_r in Hun' by exact Hun.
      apply list_elem_of_lookup_2, list_elem_of_In in Hun'.
      destruct Hun' as [<-|[]]. reflexivity.
  - intros u un Hun. exists un. rewrite lookup_app_l; [exact Hun|].
    apply lookup_lt_is_Some. eauto.
Qed.

Lemma stopOldSync_same_store filePath w : same_store w (stopOldSync filePath w).
Proof.
  unfold stopOldSync. destruct (negb (JsMap.has filePath (w_sources w)));
    now apply same_store_fields.
Qed.

Lemma sync_listener_same_store port change w : same_store w (sync_listener port change w).
Proof.
  destruct change; simpl; [apply startNewSync_same_store | apply stopOldSync_same_store].
Qed.

Lemma startSync_same_store port w : same_store w (startSync port w).
Proof.
  unfold startSync. destruct (w_syncing w); [apply same_store_refl|].
  eapply same_store_trans; [|now apply same_store_fields].
  eapply same_store_trans; [|apply same_store_fold; intros; apply startNewSync_same_store].
  now apply same_store_fields.
Qed.

Lemma stopSync_same_store w : same_store w (stopSync w).
Proof.
  unfold stopSync.
  eapply same_store_trans; [apply (call_optional_same_store (w_syncListDisposer w))|].
  eapply same_store_trans; [|now apply same_store_fields].
  apply same_store_fold. intros; apply stopOldSync_same_store.
Qed.

Lemma notify_same_store change w : same_store w (notify change w).
Proof.
  unfold notify. apply same_store_fold. intros w' [port|];
    [apply sync_listener_same_store | apply same_store_refl].
Qed.

Lemma addSyncingFile_same_store file w : same_store w (addSyncingFile file w).
Proof.
  unfold addSyncingFile. destruct (existsb (String.eqb file) (w_files w));
    [apply same_store_refl|].
  eapply same_store_trans; [|apply notify_same_store]. now apply same_store_fields.
Qed.

Lemma removeSyncingFile_same_store file w : same_store w (removeSyncingFile file w).
Proof.
  unfold removeSyncingFile. destruct (existsb (String.eqb file) (w_files w));
    [|apply same_store_refl].
  eapply same_store_trans; [|apply notify_same_store]. now apply same_store_fields.
Qed.

Lemma fromStore_same_store files w : same_store w (fromStore files w).
Proof.
  unfold fromStore.
  apply (same_store_trans w
           (fold_left (fun w file => removeSyncingFile file w) (w_files w) w)).
  - apply same_store_fold. intros; apply removeSyncingFile_same_store.
  - apply same_store_fold. intros; apply addSyncingFile_same_store.
Qed.

Lemma on_watcher_change_same_store u w : same_store w (on_watcher_change u w).
Proof.
  unfold on_watcher_change, diffChangedConfig, set_stopPrevious.
  eapply same_store_trans; [apply (call_optional_same_store (stopPrevious_at u w))|].
  eapply same_store_trans; [|apply same_store_alter; auto].
  now apply same_store_fields.
Qed.

(** The [end] of a read that is applied: one pass on the map of its unit. *)
Lemma on_end_store_inv r w : store_inv w -> store_inv (on_end r w).
Proof.
  intros Hinv. unfold on_end.
  destruct (w_reads w !! r) as [rd|]; [|exact Hinv].
  destruct (negb (r_closed rd)); [|exact Hinv].
  destruct (w_units w !! r_unit rd) as [un|] eqn:Hun; [|exact Hinv].
  destruct Hinv as [Hunits [Hdisj Hcount]].
  destruct (Hunits _ _ Hun) as [Hwf [Hnd Hrec]].
  set (u := r_unit rd) in *.
  set (buf := Buffer_concat (r_bufs rd)).
  pose proof (computeDiff_records_ok buf (u_source un) (u_port un) (u_filePath un)
                (w_heap w) Hwf Hnd Hrec) as Hrec'.
  pose proof (computeDiff_counts buf (u_source un) (u_port un) (u_filePath un)
                (w_heap w) Hwf Hnd Hrec Hcount) as Hcount'.
  pose proof (computeDiff_refs buf (u_source un) (u_port un) (u_filePath un)
                (w_heap w)) as Hrefs'.
  pose proof (fun path k c e => computeDiff_other_record buf (u_source un) (u_port un)
                (u_filePath un) (w_heap w) path k c e Hwf) as Hother.
  assert (Hok' : source_ok (fst (computeDiff buf (u_source un) (u_port un) (u_filePath un)
                                   (w_heap w)))
                           (snd (computeDiff buf (u_source un) (u_port un) (u_filePath un)
                                   (w_heap w)))).
  { apply computeDiff_source_ok. repeat split; auto.
    intros c Hc. apply In_refs in Hc as [k [e Hin]].
    eapply record_ok_lt; eauto. }
  destruct (computeDiff buf (u_source un) (u_port un) (u_filePath un) (w_heap w))
    as [source' h'] eqn:Hpass.
  cbn [fst snd] in *. unfold store_inv. simpl.
  assert (Hlook : forall u' un',
            alter (fun un0 => mkUnit (u_filePath un0) (u_port un0) (u_watching un0) source'
                                (u_stopPrevious un0)) u (w_units w) !! u' = Some un' ->
            (u' = u /\ u_source un' = source' /\ u_filePath un' = u_filePath un)
            \/ (u' <> u /\ w_units w !! u' = Some un')).
  { intros u' un'. rewrite list_lookup_alter.
    destruct (decide (u = u')) as [<-|Hne].
    - rewrite Hun. simpl. intros [= <-]. left. auto.
    - intros H. right. auto. }
  split; [|split; [|exact Hcount']].
  - intros u' un' Hun'. destruct (Hlook _ _ Hun') as [[-> [Hs Hp]]|[Hne Hold]].
    + unfold unit_ok. rewrite Hs, Hp. destruct Hok' as [H1 [H2 _]]. auto.
    + destruct (Hunits _ _ Hold) as [H1 [H2 H3]].
      split; [exact H1|]. split; [exact H2|].
      intros k0 c0 e0 Hin. apply Hother; [|now apply H3].
      intros Hc. apply Hne. apply (Hdisj u' u un' un c0); auto.
      apply In_refs. eauto.
  - intros u1 u2 un1 un2 c H1 H2 Hin1 Hin2.
    destruct (Hlook _ _ H1) as [[-> [Hs1 _]]|[Hne1 Hold1]];
      destruct (Hlook _ _ H2) as [[-> [Hs2 _]]|[Hne2 Hold2]]; auto.
    + rewrite Hs1 in Hin1. destruct (Hrefs' c Hwf Hin1) as [Hc|Hc].
      * symmetry. eapply Hdisj; eauto.
      * exfalso. apply In_refs in Hin2 as [k [e Hin2]].
        destruct (Hunits _ _ Hold2) as [_ [_ H3]].
        pose proof (record_ok_lt _ _ _ _ _ (H3 _ _ _ Hin2)). lia.
    + rewrite Hs2 in Hin2. destruct (Hrefs' c Hwf Hin2) as [Hc|Hc].
      * eapply Hdisj; eauto.
      * exfalso. apply In_refs in Hin1 as [k [e Hin1]].
        destruct (Hunits _ _ Hold1) as [_ [_ H3]].
        pose proof (record_ok_lt _ _ _ _ _ (H3 _ _ _ Hin1)). lia.
    + eapply Hdisj; eauto.
Qed.

Lemma step_store_inv w ev : store_inv w -> store_inv (step w ev).
Proof.
  intros Hinv.
  destruct ev as [port| |file|file|files|u e|r chunk|r|r]; simpl.
  - eapply same_store_inv; [apply startSync_same_store | exact Hinv].
  - eapply same_store_inv; [apply stopSync_same_store | exact Hinv].
  - eapply same_store_inv; [apply addSyncingFile_same_store | exact Hinv].
  - eapply same_store_inv; [apply removeSyncingFile_same_store | exact Hinv].
  - eapply same_store_inv; [apply fromStore_same_store | exact Hinv].
  - destruct (w_units w !! u) as [un|]; [|exact Hinv].
    destruct (u_watching un); [|exact Hinv].
    destruct e.
    + eapply same_store_inv; [apply on_watcher_change_same_store | exact Hinv].
    + eapply same_store_inv; [apply on_watcher_change_same_store | exact Hinv].
    + eapply same_store_inv; [apply call_optional_same_store | exact Hinv].
  - eapply same_store_inv; [now apply same_store_fields | exact Hinv].
  - eapply same_store_inv; [now apply same_store_fields | exact Hinv].
  - now apply on_end_store_inv.
Qed.

Lemma initial_store_inv : store_inv initial_world.
Proof.
  repeat split; intros; simpl in *; rewrite lookup_nil in *; discriminate.
Qed.

Lemma run_store_inv events w : store_inv w -> store_inv (run events w).
Proof.
  unfold run. revert w. induction events as [|ev events IH]; simpl; intros w H; auto.
  apply IH. now apply step_store_inv.
Qed.

End StoreSteps.

(** * The manager, the registry and the list of files *)
Section ManagerInvariant.
Context `{E : Externals}.

Lemma getSyncName_inj a b : getSyncName a = getSyncName b -> a = b.
Proof. unfold getSyncName. simpl. intros H. now injection H. Qed.

Lemma has_set {V : Type} k k' (v : V) m :
  JsMap.has k' (JsMap.set k v m) = String.eqb k' k || JsMap.has k' m.
Proof.
  unfold JsMap.has. destruct (String.eqb k' k) eqn:Hk.
  - apply String.eqb_eq in Hk. subst. now rewrite get_set_eq.
  - apply String.eqb_neq in Hk. rewrite get_set_ne by auto. reflexivity.
Qed.

Lemma has_delete {V : Type} k k' (m : JsMap.t V) :
  JsMap.has k' (JsMap.delete k m) = negb (String.eqb k' k) && JsMap.has k' m.
Proof.
  unfold JsMap.has. destruct (String.eqb k' k) eqn:Hk.
  - apply String.eqb_eq in Hk. subst. now rewrite get_delete_eq.
  - apply String.eqb_neq in Hk. rewrite get_delete_ne by auto. reflexivity.
Qed.

Lemma link_startNewSync filePath port w : link_inv w -> link_inv (startNewSync filePath port w).
Proof.
  intros Hinv. unfold startNewSync.
  destruct (JsMap.has filePath (w_sources w)) eqn:Hhas; [exact Hinv|].
  destruct Hinv as [Hwf [Hwf' [Hsrc Hreg]]]. unfold link_inv. simpl.
  split; [now apply wf_set|]. split; [now apply wf_set|]. split.
  - intros p cv d Hg. destruct (string_dec filePath p) as [<-|Hne].
    + rewrite get_set_eq in Hg. injection Hg as <- <-.
      eexists _, _. repeat split.
      * apply list_lookup_middle. reflexivity.
      * reflexivity.
      * apply get_set_eq.
    + rewrite get_set_ne in Hg by exact Hne.
      destruct (Hsrc _ _ _ Hg) as [u [un [-> [-> [Hun [Hp Hr]]]]]].
      exists u, un. repeat split; auto.
      * rewrite lookup_app_l; [exact Hun | apply lookup_lt_is_Some; eauto].
      * rewrite get_set_ne; [exact Hr|]. intros H. now apply getSyncName_inj in H.
  - intros id cv Hg. destruct (string_dec (getSyncName filePath) id) as [<-|Hne].
    + rewrite get_set_eq in Hg. injection Hg as <-.
      eexists filePath, _. split; [reflexivity|]. apply get_set_eq.
    + rewrite get_set_ne in Hg by exact Hne.
      destruct (Hreg _ _ Hg) as [p [d [-> Hp]]].
      exists p, d. split; [reflexivity|]. rewrite get_set_ne; [exact Hp|].
      intros ->. now apply Hne.
Qed.

Lemma link_stopOldSync filePath w : link_inv w -> link_inv (stopOldSync filePath w).
Proof.
  intros Hinv. unfold stopOldSync.
  destruct (negb (JsMap.has filePath (w_sources w))); [exact Hinv|].
  destruct Hinv as [Hwf [Hwf' [Hsrc Hreg]]]. unfold link_inv. simpl.
  split; [now apply wf_delete|]. split; [now apply wf_delete|]. split.
  - intros p cv d Hg. destruct (string_dec filePath p) as [<-|Hne].
    + rewrite get_delete_eq in Hg. discriminate.
    + rewrite get_delete_ne in Hg by exact Hne.
      destruct (Hsrc _ _ _ Hg) as [u [un [-> [-> [Hun [Hp Hr]]]]]].
      exists u, un. repeat split; auto.
      rewrite get_delete_ne; [exact Hr|]. intros H. now apply getSyncName_inj in H.
  - intros id cv Hg. destruct (string_dec (getSyncName filePath) id) as [<-|Hne].
    + rewrite get_delete_eq in Hg. discriminate.
    + rewrite get_delete_ne in Hg by exact Hne.
      destruct (Hreg _ _ Hg) as [p [d [-> Hp]]].
      exists p, d. split; [reflexivity|]. rewrite get_delete_ne; [exact Hp|].
      intros ->. now apply Hne.
Qed.

Lemma link_frame w w' :
  w_sources w' = w_sources w -> w_registry w' = w_registry w -> paths_kept w w' ->
  link_inv w -> link_inv w'.
Proof.
  intros Hs Hr Hp [Hwf [Hwf' [Hsrc Hreg]]]. unfold link_inv. rewrite Hs, Hr.
  split; [exact Hwf|]. split; [exact Hwf'|]. split; [|exact Hreg].
  intros p cv d Hg. destruct (Hsrc _ _ _ Hg) as [u [un [-> [-> [Hun [Hpath Hrg]]]]]].
  destruct (Hp _ _ Hun) as [un' [Hun' Hpath']].
  exists u, un'. repeat split; auto. congruence.
Qed.

Lemma same_store_paths w w' : same_store w w' -> paths_kept w w'.
Proof.
  intros [_ [Hn Ho]] u un Hun. destruct (Ho _ _ Hun) as [un' Hun'].
  exists un'. split; [exact Hun'|]. specialize (Hn _ _ Hun'). rewrite Hun in Hn. tauto.
Qed.

(** What [startNewSync] and [stopOldSync] leave alone. *)
Lemma startNewSync_fields filePath port w :
  w_files (startNewSync filePath port w) = w_files w
  /\ w_observers (startNewSync filePath port w) = w_observers w
  /\ w_syncing (startNewSync filePath port w) = w_syncing w
  /\ w_syncListDisposer (startNewSync filePath port w) = w_syncListDisposer w.
Proof. unfold startNewSync. destruct (JsMap.has filePath (w_sources w)); auto. Qed.

Lemma stopOldSync_fields filePath w :
  w_files (stopOldSync filePath w) = w_files w
  /\ w_observers (stopOldSync filePath w) = w_observers w
  /\ w_syncing (stopOldSync filePath w) = w_syncing w
  /\ w_syncListDisposer (stopOldSync filePath w) = w_syncListDisposer w.
Proof. unfold stopOldSync. destruct (negb (JsMap.has filePath (w_sources w))); auto. Qed.

Lemma startNewSync_has filePath port w g :
  JsMap.has g (w_sources (startNewSync filePath port w))
  = String.eqb g filePath || JsMap.has g (w_sources w).
Proof.
  unfold startNewSync. destruct (JsMap.has filePath (w_sources w)) eqn:Hhas.
  - destruct (String.eqb g filePath) eqn:Hg; [|reflexivity].
    apply String.eqb_eq in Hg. subst. now rewrite Hhas.
  - simpl. apply has_set.
Qed.

Lemma stopOldSync_sources filePath w :
  w_sources (stopOldSync filePath w) = JsMap.delete filePath (w_sources w).
Proof.
  unfold stopOldSync. destruct (JsMap.has filePath (w_sources w)) eqn:Hhas; simpl.
  - reflexivity.
  - symmetry. apply delete_absent. now apply has_false_get.
Qed.

Lemma fold_startNewSync_link files port w :
  link_inv w -> link_inv (fold_left (fun w f => startNewSync f port w) files w).
Proof.
  revert w. induction files as [|f fs IH]; simpl; intros w H; auto.
  apply IH. now apply link_startNewSync.
Qed.

Lemma fold_startNewSync_fields files port w :
  w_files (fold_left (fun w f => startNewSync f port w) files w) = w_files w
  /\ w_observers (fold_left (fun w f => startNewSync f port w) files w) = w_observers w.
Proof.
  revert w. induction files as [|f fs IH]; simpl; intros w; auto.
  destruct (IH (startNewSync f port w)) as [H1 H2].
  destruct (startNewSync_fields f port w) as [H3 [H4 _]]. split; congruence.
Qed.

Lemma fold_startNewSync_has files port w g :
  JsMap.has g (w_sources (fold_left (fun w f => startNewSync f port w) files w))
  = existsb (String.eqb g) files || JsMap.has g (w_sources w).
Proof.
  revert w. induction files as [|f fs IH]; simpl; intros w; auto.
  rewrite IH, startNewSync_has.
  destruct (String.eqb g f), (existsb (String.eqb g) fs); reflexivity.
Qed.

Lemma fold_stopOldSync_link ks w :
  link_inv w -> link_inv (fold_left (fun w f => stopOldSync f w) ks w).
Proof.
  revert w. induction ks as [|f fs IH]; simpl; intros w H; auto.
  apply IH. now apply link_stopOldSync.
Qed.

Lemma fold_stopOldSync_fields ks w :
  w_files (fold_left (fun w f => stopOldSync f w) ks w) = w_files w
  /\ w_observers (fold_left (fun w f => stopOldSync f w) ks w) = w_observers w
  /\ w_sources (fold_left (fun w f => stopOldSync f w) ks w) = delete_all ks (w_sources w).
Proof.
  revert w. induction ks as [|f fs IH]; simpl; intros w; auto.
  destruct (IH (stopOldSync f w)) as [H1 [H2 H3]].
  destruct (stopOldSync_fields f w) as [H4 [H5 _]].
  rewrite H1, H2, H3, H4, H5, stopOldSync_sources. auto.
Qed.

Lemma notify_no_listener change w : no_listener (w_observers w) -> notify change w = w.
Proof.
  unfold notify. generalize (w_observers w) as obs. intros obs. revert w.
  induction obs as [|o obs IH]; simpl; intros w H; auto.
  rewrite (H 0 o eq_refl). apply IH. intros j o' Hj. apply (H (S j) o' Hj).
Qed.

Lemma fold_no_listener change obs w :
  no_listener obs ->
  fold_left (fun w o => match o with
                        | Some port => sync_listener port change w
                        | None => w
                        end) obs w = w.
Proof.
  revert w. induction obs as [|o obs IH]; simpl; intros w H; auto.
  rewrite (H 0 o eq_refl). apply IH. intros j o' Hj. apply (H (S j) o' Hj).
Qed.

Lemma notify_one_listener change i port w :
  one_listener i port (w_observers w) -> notify change w = sync_listener port change w.
Proof.
  unfold notify. generalize (w_observers w) as obs. intros obs. revert i w.
  induction obs as [|o obs IH]; intros i w [Hi Hothers].
  - rewrite lookup_nil in Hi. discriminate.
  - destruct i as [|i]; simpl in *.
    + injection Hi as ->. apply fold_no_listener.
      intros j o' Hj. apply (Hothers (S j) o'); [lia | exact Hj].
    + rewrite (Hothers 0 o); [|lia|reflexivity].
      apply (IH i). split; [exact Hi|].
      intros j o' Hne Hj. apply (Hothers (S j) o'); [lia | exact Hj].
Qed.

End ManagerInvariant.

Section ManagerSteps.
Context `{E : Externals}.

Lemma paths_kept_refl w : paths_kept w w.
Proof. intros u un H. eauto. Qed.

Lemma manager_frame w w' :
  same_manager w w' -> paths_kept w w' -> manager_inv w -> manager_inv w'.
Proof.
  intros [Hs [Hr [Hf [Ho [Hsy Hd]]]]] Hp [Hlink Hsync]. split.
  - eapply link_frame; eauto.
  - unfold sync_inv in *. rewrite Hs, Hf, Ho, Hsy, Hd. exact Hsync.
Qed.

Lemma In_existsb_eqb g (files : list string) :
  existsb (String.eqb g) files = true <-> In g files.
Proof.
  rewrite existsb_exists. split.
  - intros [x [Hin Hx]]. apply String.eqb_eq in Hx. now subst.
  - intros H. exists g. split; [exact H | apply String.eqb_refl].
Qed.

Lemma startSync_manager port w : manager_inv w -> manager_inv (startSync port w).
Proof.
  intros [Hlink Hsync]. unfold startSync.
  destruct (w_syncing w) eqn:Hs; [split; assumption|].
  unfold sync_inv in Hsync. rewrite Hs in Hsync. destruct Hsync as [Hsrc Hobs].
  set (w1 := with_heap (logger info "[KUBECONFIG-SYNC]: starting requested syncs" "" None) w).
  assert (Hlink1 : link_inv w1).
  { eapply link_frame; [reflexivity | reflexivity | apply paths_kept_refl | exact Hlink]. }
  change (w_files w1) with (w_files w).
  pose proof (fold_startNewSync_link (w_files w) port w1 Hlink1) as Hlink2.
  destruct (fold_startNewSync_fields (w_files w) port w1) as [Hf2 Ho2].
  pose proof (fold_startNewSync_has (w_files w) port w1) as Hhas2.
  set (w2 := fold_left (fun w f => startNewSync f port w) (w_files w) w1) in *.
  split.
  - eapply link_frame; [| | apply paths_kept_refl | exact Hlink2]; reflexivity.
  - unfold sync_inv. simpl. split.
    + intros f. rewrite Hf2, Hhas2. simpl. rewrite Hsrc. simpl.
      rewrite orb_false_r. symmetry. apply In_existsb_eqb.
    + exists (length (w_observers w2)), port. split; [reflexivity|].
      rewrite Ho2. simpl. split.
      * now apply list_lookup_middle.
      * intros j o Hne Hj.
        destruct (lt_eq_lt_dec j (length (w_observers w))) as [[Hlt|Heq]|Hgt];
          [|tauto|].
        -- rewrite lookup_app_l in Hj by exact Hlt. eapply Hobs; eauto.
        -- rewrite lookup_ge_None_2 in Hj; [discriminate|].
           rewrite length_app. simpl. lia.
Qed.

Lemma no_listener_insert i observers :
  (forall j o, j <> i -> observers !! j = Some o -> o = None) ->
  no_listener (<[i := None]> observers).
Proof.
  intros H j o Hj. destruct (Nat.eq_dec j i) as [->|Hne].
  - apply list_lookup_insert_Some in Hj. destruct Hj as [[_ [-> _]]|[Hne _]]; tauto.
  - rewrite list_lookup_insert_ne in Hj by auto. eapply H; eauto.
Qed.

Lemma stopSync_manager w : manager_inv w -> manager_inv (stopSync w).
Proof.
  intros [Hlink Hsync]. unfold stopSync.
  set (w1 := call_optional (w_syncListDisposer w) w).
  assert (H1 : link_inv w1 /\ no_listener (w_observers w1)).
  { unfold sync_inv in Hsync. subst w1. destruct (w_syncing w).
    - destruct Hsync as [_ [i [port [-> [_ Hothers]]]]]. simpl. split.
      + eapply link_frame; [| | apply paths_kept_refl | exact Hlink]; reflexivity.
      + now apply no_listener_insert.
    - destruct Hsync as [_ Hobs]. split.
      + eapply link_frame; [| | | exact Hlink].
        * destruct (w_syncListDisposer w) as [[u|r|i]|]; reflexivity.
        * destruct (w_syncListDisposer w) as [[u|r|i]|]; reflexivity.
        * apply same_store_paths, call_optional_same_store.
      + destruct (w_syncListDisposer w) as [[u|r|i]|]; simpl; auto.
        apply no_listener_insert. intros j o _ Hj. eapply Hobs; eauto. }
  destruct H1 as [Hlink1 Hobs1].
  pose proof (fold_stopOldSync_link (JsMap.keys (w_sources w1)) w1 Hlink1) as Hlink2.
  destruct (fold_stopOldSync_fields (JsMap.keys (w_sources w1)) w1) as [Hf2 [Ho2 Hs2]].
  set (w2 := fold_left (fun w f => stopOldSync f w) (JsMap.keys (w_sources w1)) w1) in *.
  split.
  - eapply link_frame; [| | apply paths_kept_refl | exact Hlink2]; reflexivity.
  - unfold sync_inv. simpl. rewrite Hs2, Ho2. split; [|exact Hobs1].
    apply delete_all_covered. auto.
Qed.

Lemma addSyncingFile_manager file w : manager_inv w -> manager_inv (addSyncingFile file w).
Proof.
  intros [Hlink Hsync]. unfold addSyncingFile.
  destruct (existsb (String.eqb file) (w_files w)) eqn:Hex; [split; assumption|].
  set (w1 := with_files (fun fs => fs ++ [file]) w).
  assert (Hlink1 : link_inv w1).
  { eapply link_frame; [| | apply paths_kept_refl | exact Hlink]; reflexivity. }
  unfold sync_inv in Hsync. destruct (w_syncing w) eqn:Hs.
  - destruct Hsync as [Hfiles [i [port [Hd Hone]]]].
    rewrite (notify_one_listener (change_add file) i port w1 Hone). simpl.
    destruct (startNewSync_fields file port w1) as [Hf [Ho [Hsy Hdis]]].
    split; [now apply link_startNewSync|].
    unfold sync_inv. rewrite Hsy, Hf, Ho, Hdis. simpl. rewrite Hs. split.
    + intros f. rewrite startNewSync_has. simpl. rewrite in_app_iff, Hfiles. simpl.
      destruct (String.eqb f file) eqn:Hf'.
      * apply String.eqb_eq in Hf'. subst. simpl. tauto.
      * apply String.eqb_neq in Hf'. simpl. split; [|tauto].
        intros [H|[H|[]]]; [exact H | congruence].
    + exists i, port. auto.
  - destruct Hsync as [Hsrc Hobs].
    rewrite notify_no_listener by exact Hobs.
    split; [exact Hlink1|]. unfold sync_inv. simpl. rewrite Hs. auto.
Qed.

Lemma removeSyncingFile_manager file w :
  manager_inv w -> manager_inv (removeSyncingFile file w).
Proof.
  intros [Hlink Hsync]. unfold removeSyncingFile.
  destruct (existsb (String.eqb file) (w_files w)) eqn:Hex; [|split; assumption].
  set (w1 := with_files (List.filter (fun f => negb (String.eqb file f))) w).
  assert (Hlink1 : link_inv w1).
  { eapply link_frame; [| | apply paths_kept_refl | exact Hlink]; reflexivity. }
  unfold sync_inv in Hsync. destruct (w_syncing w) eqn:Hs.
  - destruct Hsync as [Hfiles [i [port [Hd Hone]]]].
    rewrite (notify_one_listener (change_delete file) i port w1 Hone). simpl.
    destruct (stopOldSync_fields file w1) as [Hf [Ho [Hsy Hdis]]].
    split; [now apply link_stopOldSync|].
    unfold sync_inv. rewrite Hsy, Hf, Ho, Hdis. simpl. rewrite Hs. split.
    + intros f. rewrite stopOldSync_sources, has_delete. simpl.
      rewrite filter_In, Hfiles, andb_true_iff, !negb_true_iff.
      rewrite (String.eqb_sym file f). tauto.
    + exists i, port. auto.
  - destruct Hsync as [Hsrc Hobs].
    rewrite notify_no_listener by exact Hobs.
    split; [exact Hlink1|]. unfold sync_inv. simpl. rewrite Hs. auto.
Qed.

Lemma fromStore_manager files w : manager_inv w -> manager_inv (fromStore files w).
Proof.
  intros H. unfold fromStore.
  assert (Hrem : forall fs w, manager_inv w ->
            manager_inv (fold_left (fun w file => removeSyncingFile file w) fs w)).
  { induction fs as [|f fs IH]; simpl; intros w0 H0; auto.
    apply IH. now apply removeSyncingFile_manager. }
  assert (Hadd : forall fs w, manager_inv w ->
            manager_inv (fold_left (fun w file => addSyncingFile file w) fs w)).
  { induction fs as [|f fs IH]; simpl; intros w0 H0; auto.
    apply IH. now apply addSyncingFile_manager. }
  apply Hadd, Hrem, H.
Qed.

Lemma stops_advance w w' : reads_advance w w' -> stops_inv w -> stops_inv w'.
Proof. intros [Hs _] H u d Hd. rewrite Hs in Hd. eauto. Qed.

Lemma on_watcher_change_stops u w : stops_inv w -> stops_inv (on_watcher_change u w).
Proof.
  intros H. unfold on_watcher_change, diffChangedConfig, set_stopPrevious.
  pose proof (stops_advance _ _ (call_optional_advance (stopPrevious_at u w) w) H) as H1.
  revert H1. generalize (call_optional (stopPrevious_at u w) w). intros w1 H1.
  intros u' d. unfold stopPrevious_at. simpl. rewrite list_lookup_alter.
  destruct (decide (u = u')) as [<-|Hne].
  - destruct (w_units w1 !! u); simpl; [|discriminate]. intros [= <-]. eauto.
  - intros Hd. apply (H1 u' d). exact Hd.
Qed.

Lemma step_stops w ev : stops_inv w -> stops_inv (step w ev).
Proof.
  intros H. destruct ev as [port| |file|file|files|u e|r chunk|r|r]; simpl.
  - eapply stops_advance; [apply silent_advance, startSync_silent | exact H].
  - intros u d. unfold stopSync.
    assert (Hsil : forall w0, silent w0
              (with_syncing false
                 (fold_left (fun w f => stopOldSync f w) (JsMap.keys (w_sources w0)) w0))).
    { intros w0. eapply silent_trans; [|split; reflexivity].
      apply silent_fold. intros; apply stopOldSync_silent. }
    apply (stops_advance _ _ (silent_advance _ _ (Hsil _))).
    eapply stops_advance; [apply call_optional_advance | exact H].
  - eapply stops_advance; [apply silent_advance, addSyncingFile_silent | exact H].
  - eapply stops_advance; [apply silent_advance, removeSyncingFile_silent | exact H].
  - eapply stops_advance; [apply silent_advance, fromStore_silent | exact H].
  - destruct (w_units w !! u) as [un|]; [|exact H].
    destruct (u_watching un); [|exact H].
    destruct e.
    + now apply on_watcher_change_stops.
    + now apply on_watcher_change_stops.
    + eapply stops_advance; [apply call_optional_advance | exact H].
  - eapply stops_advance; [|exact H]. apply advance_alter_read; [reflexivity | auto].
  - eapply stops_advance; [|exact H]. apply advance_alter_read; [reflexivity | discriminate].
  - eapply stops_advance; [apply silent_advance, on_end_silent | exact H].
Qed.

(** Cancelling the read of a unit changes nothing of the manager. *)
Lemma cancel_same_manager u w :
  stops_inv w -> same_manager w (call_optional (stopPrevious_at u w) w).
Proof.
  intros H. destruct (stopPrevious_at u w) as [d|] eqn:Hd; simpl.
  - destruct (H _ _ Hd) as [r ->]. repeat split.
  - repeat split.
Qed.

Lemma on_watcher_change_manager u w :
  stops_inv w -> manager_inv w -> manager_inv (on_watcher_change u w).
Proof.
  intros Hstops Hinv.
  apply (manager_frame w); [| apply same_store_paths, on_watcher_change_same_store | exact Hinv].
  unfold on_watcher_change, diffChangedConfig, set_stopPrevious.
  destruct (cancel_same_manager u w Hstops) as [H1 [H2 [H3 [H4 [H5 H6]]]]].
  repeat split; simpl; assumption.
Qed.

Lemma on_end_manager r w : manager_inv w -> manager_inv (on_end r w).
Proof.
  intros Hinv. unfold on_end.
  destruct (w_reads w !! r) as [rd|]; [|exact Hinv].
  destruct (negb (r_closed rd)); [|exact Hinv].
  destruct (w_units w !! r_unit rd) as [un|] eqn:Hun; [|exact Hinv].
  destruct (computeDiff _ _ _ _ _) as [source h].
  apply (manager_frame w); [repeat split | | exact Hinv].
  intros u un0 Hun0. simpl. rewrite list_lookup_alter.
  destruct (decide (r_unit rd = u)) as [<-|]; [|eauto].
  rewrite Hun0. simpl. eauto.
Qed.

Lemma step_manager w ev :
  stops_inv w -> manager_inv w -> manager_inv (step w ev).
Proof.
  intros Hstops Hinv.
  destruct ev as [port| |file|file|files|u e|r chunk|r|r]; simpl.
  - now apply startSync_manager.
  - now apply stopSync_manager.
  - now apply addSyncingFile_manager.
  - now apply removeSyncingFile_manager.
  - now apply fromStore_manager.
  - destruct (w_units w !! u) as [un|]; [|exact Hinv].
    destruct (u_watching un); [|exact Hinv].
    destruct e.
    + now apply on_watcher_change_manager.
    + now apply on_watcher_change_manager.
    + apply (manager_frame w); [now apply cancel_same_manager | | exact Hinv].
      apply same_store_paths, call_optional_same_store.
  - apply (manager_frame w); [repeat split | | exact Hinv].
    apply same_store_paths. now apply same_store_fields.
  - apply (manager_frame w); [repeat split | | exact Hinv].
    apply same_store_paths. now apply same_store_fields.
  - now apply on_end_manager.
Qed.

Lemma initial_manager : manager_inv initial_world /\ stops_inv initial_world.
Proof.
  split; [split|].
  - repeat split; try constructor; simpl; discriminate.
  - split; [reflexivity|]. intros j o H. simpl in H. rewrite lookup_nil in H. discriminate.
  - intros u d H. unfold stopPrevious_at in H. simpl in H.
    destruct u; discriminate.
Qed.

Lemma run_manager events w :
  manager_inv w /\ stops_inv w -> manager_inv (run events w) /\ stops_inv (run events w).
Proof.
  unfold run. revert w. induction events as [|ev events IH]; simpl; intros w H; auto.
  apply IH. destruct H as [H1 H2]. split; [now apply step_manager | now apply step_stops].
Qed.

End ManagerSteps.

(** * What holds after every sequence of events *)
Section Reachable.
Context `{E : Externals}.

(** X7. In every state the program reaches, the map of a unit has one
    entry per context name and one cluster object per entry. *)
Theorem unit_map_well_formed (events : list Event) (u : nat) (un : WatchUnit) :
  w_units (run events initial_world) !! u = Some un ->
  JsMap.wf (u_source un) /\ List.NoDup (refs (u_source un)).
Proof.
  intros Hun.
  destruct (run_store_inv events initial_world initial_store_inv) as [Hunits _].
  destruct (Hunits _ _ Hun) as [H1 [H2 _]]. auto.
Qed.

(** X8. In every state the program reaches, no cluster object is held by
    the maps of two units. *)
Theorem cluster_not_shared (events : list Event) (u u' : nat) (un un' : WatchUnit)
    (c : nat) :
  w_units (run events initial_world) !! u = Some un ->
  w_units (run events initial_world) !! u' = Some un' ->
  In c (refs (u_source un)) ->
  In c (refs (u_source un')) ->
  u = u'.
Proof.
  destruct (run_store_inv events initial_world initial_store_inv) as [_ [Hdisj _]].
  apply Hdisj.
Qed.

(** X9. In every state the program reaches, a record of a unit's map has
    an entity labelled KUBECONFIG_SYNC with the path of the unit's file,
    and a cluster that is in the store, holds a model with the record's
    context name and that path, and has never been disconnected. *)
Theorem record_consistent (events : list Event) (u : nat) (un : WatchUnit)
    (k : string) (c : nat) (e : CatalogEntity) :
  w_units (run events initial_world) !! u = Some un ->
  In (k, (c, e)) (u_source un) ->
  JsMap.get "KUBECONFIG_SYNC" (labels e) = Some (u_filePath un)
  /\ exists cl,
       clusters (w_heap (run events initial_world)) !! c = Some cl
       /\ contextName (c_model cl) = k
       /\ kubeConfigPath (c_model cl) = u_filePath un
       /\ c_disconnects cl = 0.
Proof.
  intros Hun Hin.
  destruct (run_store_inv events initial_world initial_store_inv) as [Hunits _].
  destruct (Hunits _ _ Hun) as [_ [_ Hrec]]. apply (Hrec _ _ _ Hin).
Qed.

(** X10. In every state the program reaches, [disconnect()] has been
    called at most once on any cluster. *)
Theorem cluster_disconnected_at_most_once (events : list Event) (c : nat) (cl : Cluster) :
  clusters (w_heap (run events initial_world)) !! c = Some cl ->
  c_disconnects cl <= 1.
Proof.
  destruct (run_store_inv events initial_world initial_store_inv) as [_ [_ Hcount]].
  apply Hcount.
Qed.

(** X11. In every state the program reaches: while syncing, the manager
    has a unit for exactly the files of [kubeconfigSyncStore.files];
    while not syncing it has none, and no source is registered under the
    sync name of any path. *)
Theorem manager_tracks_files (events : list Event) :
  (w_syncing (run events initial_world) = true ->
   forall f, In f (w_files (run events initial_world))
             <-> JsMap.has f (w_sources (run events initial_world)) = true)
  /\ (w_syncing (run events initial_world) = false ->
      w_sources (run events initial_world) = []
      /\ forall p, JsMap.get (getSyncName p) (w_registry (run events initial_world)) = None).
Proof.
  destruct (run_manager events initial_world initial_manager) as [[Hlink Hsync] _].
  unfold sync_inv in Hsync. split; intros Hs; rewrite Hs in Hsync.
  - apply Hsync.
  - destruct Hsync as [Hsrc _]. split; [exact Hsrc|].
    destruct Hlink as [_ [_ [_ Hreg]]]. intros p.
    destruct (JsMap.get (getSyncName p) (w_registry (run events initial_world)))
      as [cv|] eqn:Hr; auto.
    destruct (Hreg _ _ Hr) as [p' [d [_ Hp]]].
    rewrite Hsrc in Hp. discriminate.
Qed.

(** X12. In every state the program reaches, the manager's entry for a
    path is the computed source and the watcher disposer of a unit made
    for that path, and that source is registered under the sync name of
    the path; a source registered under the sync name of a path is the one
    of the manager's entry for that path. *)
Theorem sources_match_registry (events : list Event) :
  (forall p cv d,
     JsMap.get p (w_sources (run events initial_world)) = Some (cv, d) ->
     exists u un,
       cv = derivedSource u /\ d = watcher_close u
       /\ w_units (run events initial_world) !! u = Some un
       /\ u_filePath un = p
       /\ JsMap.get (getSyncName p) (w_registry (run events initial_world)) = Some cv)
  /\ (forall p cv,
        JsMap.get (getSyncName p) (w_registry (run events initial_world)) = Some cv ->
        exists d, JsMap.get p (w_sources (run events initial_world)) = Some (cv, d)).
Proof.
  destruct (run_manager events initial_world initial_manager) as [[Hlink _] _].
  destruct Hlink as [_ [_ [H1 H2]]]. split; [exact H1|].
  intros p cv Hr. destruct (H2 _ _ Hr) as [p' [d [Heq Hp]]].
  apply getSyncName_inj in Heq. subst p'. eauto.
Qed.

(** X13. In every state the program reaches, an entity yielded by the
    source registered under the sync name of a path is labelled
    KUBECONFIG_SYNC with that path, the path is in
    [kubeconfigSyncStore.files], and the manager is syncing. *)
Theorem synced_items_come_from_files (events : list Event) (p : string)
    (compVal : IComputedValue) (entity : CatalogEntity) :
  JsMap.get (getSyncName p) (w_registry (run events initial_world)) = Some compVal ->
  In entity (CatalogEntityRegistry.get compVal (run events initial_world)) ->
  w_syncing (run events initial_world) = true
  /\ In p (w_files (run events initial_world))
  /\ JsMap.get "KUBECONFIG_SYNC" (labels entity) = Some p
  /\ In entity (CatalogEntityRegistry.items (run events initial_world)).
Proof.
  intros Hentry Hin.
  destruct (run_manager events initial_world initial_manager) as [[Hlink Hsync] _].
  destruct (run_store_inv events initial_world initial_store_inv) as [Hunits _].
  set (w := run events initial_world) in *.
  assert (Hitem : In entity (CatalogEntityRegistry.items w)).
  { unfold CatalogEntityRegistry.items. apply in_flat_map. exists compVal.
    split; [|exact Hin]. apply get_Some_In in Hentry.
    apply (in_map snd _ _ Hentry). }
  destruct Hlink as [_ [Hwf [Hsrc Hreg]]].
  destruct (Hreg _ _ Hentry) as [p' [d [Heq Hp]]].
  apply getSyncName_inj in Heq. subst p'.
  destruct (Hsrc _ _ _ Hp) as [u [un [-> [_ [Hun [Hpath _]]]]]].
  simpl in Hin. rewrite Hun in Hin.
  unfold JsMap.values in Hin. rewrite map_map in Hin.
  apply in_map_iff in Hin as [[k [c e]] [Heq Hrec]]. simpl in Heq. subst e.
  destruct (Hunits _ _ Hun) as [_ [_ Hok]].
  destruct (Hok _ _ _ Hrec) as [Hlabel _].
  unfold sync_inv in Hsync. destruct (w_syncing w).
  - split; [reflexivity|]. split; [|split; [congruence | exact Hitem]].
    apply Hsync. unfold JsMap.has. now rewrite Hp.
  - destruct Hsync as [Hempty _]. rewrite Hempty in Hp. discriminate.
Qed.

End Reachable.

(** Witnesses on the run that syncs c.yaml holding the context [a], and on
    its continuation by a rewrite of the file that drops [a]. *)
Lemma unit_map_well_formed_witness :
  JsMap.wf (u_source Demo.unit_a) /\ List.NoDup (refs (u_source Demo.unit_a)).
Proof.
  apply (unit_map_well_formed (E := Demo.externals) Demo.events_a 0 Demo.unit_a).
  vm_compute. reflexivity.
Defined.

Lemma cluster_not_shared_witness : 0 = 0.
Proof.
  apply (cluster_not_shared (E := Demo.externals) Demo.events_a 0 0
           Demo.unit_a Demo.unit_a 0).
  - vm_compute. reflexivity.
  - vm_compute. reflexivity.
  - vm_compute. left. reflexivity.
  - vm_compute. left. reflexivity.
Defined.

Lemma record_consistent_witness :
  JsMap.get "KUBECONFIG_SYNC" (labels (Demo.record_entity "a")) = Some "c.yaml"
  /\ exists cl,
       clusters (w_heap (run (E := Demo.externals) Demo.events_a initial_world)) !! 0
         = Some cl
       /\ contextName (c_model cl) = "a"
       /\ kubeConfigPath (c_model cl) = "c.yaml"
       /\ c_disconnects cl = 0.
Proof.
  apply (record_consistent (E := Demo.externals) Demo.events_a 0 Demo.unit_a
           "a" 0 (Demo.record_entity "a")).
  - vm_compute. reflexivity.
  - vm_compute. left. reflexivity.
Defined.

Lemma cluster_disconnected_at_most_once_witness :
  c_disconnects (mkCluster (mkModel 0 "c.yaml" "a") (Some "https://a") 1) <= 1.
Proof.
  apply (cluster_disconnected_at_most_once (E := Demo.externals)
           (Demo.events_a ++ [watcher_emits 0 fs_change; stream_data 1 (Demo.text "b");
                              stream_end 1])
           0).
  vm_compute. reflexivity.
Defined.

Lemma synced_items_come_from_files_witness :
  w_syncing (run (E := Demo.externals) Demo.events_a initial_world) = true
  /\ In "c.yaml" (w_files (run (E := Demo.externals) Demo.events_a initial_world))
  /\ JsMap.get "KUBECONFIG_SYNC" (labels (Demo.record_entity "a")) = Some "c.yaml"
  /\ In (Demo.record_entity "a")
        (CatalogEntityRegistry.items (run (E := Demo.externals) Demo.events_a initial_world)).
Proof.
  apply (synced_items_come_from_files (E := Demo.externals) Demo.events_a "c.yaml"
           (derivedSource 0) (Demo.record_entity "a")).
  - vm_compute. reflexivity.
  - vm_compute. left. reflexivity.
Defined.

(** ** The watchers are never closed *)
Section WatcherFacts.
Context `{E : Externals}.

Lemma watchers_kept_refl w : watchers_kept w w.
Proof. split; [|reflexivity]. intros u un H. right. eauto. Qed.

Lemma watchers_kept_trans w1 w2 w3 :
  watchers_kept w1 w2 -> watchers_kept w2 w3 -> watchers_kept w1 w3.
Proof.
  intros [H1 D1] [H2 D2]. split; [|congruence].
  intros u un3 H3. destruct (H2 _ _ H3) as [Ht|[un2 [Hu2 Hw2]]]; [auto|].
  destruct (H1 _ _ Hu2) as [Ht|[un1 [Hu1 Hw1]]].
  - left. congruence.
  - right. exists un1. split; [exact Hu1 | congruence].
Qed.

Lemma watchers_kept_fold {A : Type} (f : World -> A -> World) (l : list A) w :
  (forall w a, watchers_kept w (f w a)) -> watchers_kept w (fold_left f l w).
Proof.
  intros Hf. revert w. induction l as [|a l IH]; simpl; intros w.
  - apply watchers_kept_refl.
  - eapply watchers_kept_trans; [apply Hf | apply IH].
Qed.

Lemma watchers_kept_inv w w' : watchers_kept w w' -> watchers_inv w -> watchers_inv w'.
Proof.
  intros [Hk Hd] [Hu Hs]. split.
  - intros u un' H. destruct (Hk _ _ H) as [Ht|[un [Hun Heq]]]; [exact Ht|].
    rewrite <- Heq. apply (Hu _ _ Hun).
  - rewrite Hd. exact Hs.
Qed.

Lemma watchers_kept_units w w' :
  w_units w' = w_units w -> w_syncListDisposer w' = w_syncListDisposer w ->
  watchers_kept w w'.
Proof.
  intros Hu Hd. split; [|exact Hd]. intros u un' H. rewrite Hu in H. right. eauto.
Qed.

Lemma watchers_kept_alter (f : WatchUnit -> WatchUnit) i w :
  (forall un, u_watching (f un) = u_watching un) ->
  watchers_kept w (with_units (alter f i) w).
Proof.
  intros Hf. split; [|reflexivity]. intros u un'. simpl. rewrite list_lookup_alter.
  destruct (decide (i = u)) as [<-|Hne].
  - destruct (w_units w !! i) as [un|]; simpl; [|discriminate].
    intros [= <-]. right. exists un. split; [reflexivity | symmetry; apply Hf].
  - intros H. right. eauto.
Qed.

Lemma startNewSync_watchers filePath port w : watchers_kept w (startNewSync filePath port w).
Proof.
  unfold startNewSync. destruct (JsMap.has filePath (w_sources w)); [apply watchers_kept_refl|].
  split; [|reflexivity]. simpl. intros u un' H.
  destruct (decide (u < length (w_units w))) as [Hlt|Hge].
  - rewrite lookup_app_l in H by exact Hlt. right. eauto.
  - rewrite lookup_app_r in H by lia.
    destruct (u - length (w_units w)); simpl in H; [|destruct n; discriminate].
    injection H as <-. left. reflexivity.
Qed.

Lemma stopOldSync_watchers filePath w : watchers_kept w (stopOldSync filePath w).
Proof.
  unfold stopOldSync. destruct (negb (JsMap.has filePath (w_sources w)));
    apply watchers_kept_units; reflexivity.
Qed.

Lemma sync_listener_watchers port change w : watchers_kept w (sync_listener port change w).
Proof.
  destruct change; simpl; [apply startNewSync_watchers | apply stopOldSync_watchers].
Qed.

Lemma notify_watchers change w : watchers_kept w (notify change w).
Proof.
  unfold notify. apply watchers_kept_fold. intros w0 [port|];
    [apply sync_listener_watchers | apply watchers_kept_refl].
Qed.

Lemma addSyncingFile_watchers file w : watchers_kept w (addSyncingFile file w).
Proof.
  unfold addSyncingFile. destruct (existsb (String.eqb file) (w_files w));
    [apply watchers_kept_refl|].
  eapply watchers_kept_trans; [|apply notify_watchers].
  apply watchers_kept_units; reflexivity.
Qed.

Lemma removeSyncingFile_watchers file w : watchers_kept w (removeSyncingFile file w).
Proof.
  unfold removeSyncingFile. destruct (existsb (String.eqb file) (w_files w));
    [|apply watchers_kept_refl].
  eapply watchers_kept_trans; [|apply notify_watchers].
  apply watchers_kept_units; reflexivity.
Qed.

Lemma fromStore_watchers files w : watchers_kept w (fromStore files w).
Proof.
  unfold fromStore.
  apply (watchers_kept_trans w
           (fold_left (fun w file => removeSyncingFile file w) (w_files w) w)).
  - apply watchers_kept_fold. intros; apply removeSyncingFile_watchers.
  - apply watchers_kept_fold. intros; apply addSyncingFile_watchers.
Qed.

Lemma startSync_watchers port w : watchers_inv w -> watchers_inv (startSync port w).
Proof.
  intros Hinv. unfold startSync. destruct (w_syncing w); [exact Hinv|].
  set (w1 := with_heap (logger info "[KUBECONFIG-SYNC]: starting requested syncs" "" None) w).
  assert (H1 : watchers_inv
                 (fold_left (fun w filePath => startNewSync filePath port w) (w_files w1) w1)).
  { apply (watchers_kept_inv w1).
    - apply watchers_kept_fold. intros; apply startNewSync_watchers.
    - exact Hinv. }
  destruct H1 as [Hu _]. split.
  - exact Hu.
  - simpl. intros d [= <-]. eauto.
Qed.

(** The disposer of the listener leaves the units alone. *)
Lemma syncListDisposer_units w :
  watchers_inv w ->
  w_units (call_optional (w_syncListDisposer w) w) = w_units w
  /\ w_reads (call_optional (w_syncListDisposer w) w) = w_reads w
  /\ w_heap (call_optional (w_syncListDisposer w) w) = w_heap w
  /\ w_files (call_optional (w_syncListDisposer w) w) = w_files w
  /\ w_syncListDisposer (call_optional (w_syncListDisposer w) w) = w_syncListDisposer w.
Proof.
  intros [_ Hd]. destruct (w_syncListDisposer w) as [d|] eqn:Heq; simpl.
  - destruct (Hd d eq_refl) as [i ->]. simpl. auto.
  - auto.
Qed.

Lemma stopSync_watchers w : watchers_inv w -> watchers_kept w (stopSync w).
Proof.
  intros Hinv. unfold stopSync.
  destruct (syncListDisposer_units w Hinv) as [Hu [_ [_ [_ Hd]]]].
  apply (watchers_kept_trans w (call_optional (w_syncListDisposer w) w)).
  - apply watchers_kept_units; assumption.
  - eapply watchers_kept_trans; [|apply watchers_kept_units; reflexivity].
    apply watchers_kept_fold. intros; apply stopOldSync_watchers.
Qed.

(** Cancelling the read of a unit leaves the units alone. *)
Lemma cancel_units u w :
  stops_inv w ->
  w_units (call_optional (stopPrevious_at u w) w) = w_units w
  /\ w_syncListDisposer (call_optional (stopPrevious_at u w) w) = w_syncListDisposer w.
Proof.
  intros H. destruct (stopPrevious_at u w) as [d|] eqn:Hd; simpl.
  - destruct (H _ _ Hd) as [r ->]. simpl. auto.
  - auto.
Qed.

Lemma on_watcher_change_watchers u w :
  stops_inv w -> watchers_kept w (on_watcher_change u w).
Proof.
  intros Hstops. unfold on_watcher_change, diffChangedConfig, set_stopPrevious.
  destruct (cancel_units u w Hstops) as [Hu Hd].
  apply (watchers_kept_trans w (call_optional (stopPrevious_at u w) w)).
  - apply watchers_kept_units; assumption.
  - eapply watchers_kept_trans; [|apply watchers_kept_alter; reflexivity].
    apply watchers_kept_units; reflexivity.
Qed.

Lemma on_end_watchers r w : watchers_kept w (on_end r w).
Proof.
  unfold on_end.
  destruct (w_reads w !! r) as [rd|]; [|apply watchers_kept_refl].
  destruct (negb (r_closed rd)); [|apply watchers_kept_refl].
  destruct (w_units w !! r_unit rd) as [un|]; [|apply watchers_kept_refl].
  destruct (computeDiff _ _ _ _ _) as [source h].
  eapply watchers_kept_trans; [|apply watchers_kept_alter; reflexivity].
  apply watchers_kept_units; reflexivity.
Qed.

Lemma step_watchers w ev :
  stops_inv w -> watchers_inv w -> watchers_inv (step w ev).
Proof.
  intros Hstops Hinv.
  destruct ev as [port| |file|file|files|u e|r chunk|r|r]; simpl.
  - now apply startSync_watchers.
  - apply (watchers_kept_inv w); [now apply stopSync_watchers | exact Hinv].
  - apply (watchers_kept_inv w); [apply addSyncingFile_watchers | exact Hinv].
  - apply (watchers_kept_inv w); [apply removeSyncingFile_watchers | exact Hinv].
  - apply (watchers_kept_inv w); [apply fromStore_watchers | exact Hinv].
  - destruct (w_units w !! u) as [un|]; [|exact Hinv].
    destruct (u_watching un); [|exact Hinv].
    destruct e.
    + apply (watchers_kept_inv w); [now apply on_watcher_change_watchers | exact Hinv].
    + apply (watchers_kept_inv w); [now apply on_watcher_change_watchers | exact Hinv].
    + apply (watchers_kept_inv w); [|exact Hinv].
      unfold on_watcher_unlink. destruct (cancel_units u w Hstops).
      apply watchers_kept_units; assumption.
  - apply (watchers_kept_inv w); [|exact Hinv]. apply watchers_kept_units; reflexivity.
  - apply (watchers_kept_inv w); [|exact Hinv]. apply watchers_kept_units; reflexivity.
  - apply (watchers_kept_inv w); [apply on_end_watchers | exact Hinv].
Qed.

Lemma initial_watchers : watchers_inv initial_world.
Proof. split; simpl; [intros u un H; destruct u; discriminate | discriminate]. Qed.

Lemma run_watchers events w :
  stops_inv w /\ watchers_inv w ->
  stops_inv (run events w) /\ watchers_inv (run events w).
Proof.
  unfold run. revert w. induction events as [|ev events IH]; simpl; intros w H; auto.
  apply IH. destruct H as [H1 H2]. split; [now apply step_stops | now apply step_watchers].
Qed.

Lemma reachable_watchers events :
  stops_inv (run events initial_world) /\ watchers_inv (run events initial_world).
Proof.
  apply run_watchers. split; [apply initial_manager | apply initial_watchers].
Qed.

(** X14. In every state the program reaches, the watcher of every unit
    ever created is still open: nothing calls the disposer
    [() => watcher.close()] that [watchFileChanges] returns, neither
    [stopSync] nor the removal of a file from the store. *)
Theorem watcher_never_closed (events : list Event) (u : nat) (un : WatchUnit) :
  w_units (run events initial_world) !! u = Some un -> u_watching un = true.
Proof.
  destruct (reachable_watchers events) as [_ [Hu _]]. apply Hu.
Qed.

Lemma fold_stopOldSync_store ks w :
  clusters (w_heap (fold_left (fun w f => stopOldSync f w) ks w)) = clusters (w_heap w)
  /\ w_units (fold_left (fun w f => stopOldSync f w) ks w) = w_units w
  /\ w_reads (fold_left (fun w f => stopOldSync f w) ks w) = w_reads w.
Proof.
  revert w. induction ks as [|f fs IH]; simpl; intros w; auto.
  destruct (IH (stopOldSync f w)) as [H1 [H2 H3]]. rewrite H1, H2, H3.
  unfold stopOldSync. destruct (negb (JsMap.has f (w_sources w))); auto.
Qed.

(** X15. In every state the program reaches, [stopSync] disconnects no
    cluster, cancels no read and changes no unit (its map, its watcher,
    its pending read), and leaves the files of the store as they are. *)
Theorem stopSync_keeps_store (events : list Event) :
  clusters (w_heap (stopSync (run events initial_world)))
  = clusters (w_heap (run events initial_world))
  /\ w_units (stopSync (run events initial_world)) = w_units (run events initial_world)
  /\ w_reads (stopSync (run events initial_world)) = w_reads (run events initial_world)
  /\ w_files (stopSync (run events initial_world)) = w_files (run events initial_world).
Proof.
  destruct (reachable_watchers events) as [_ Hinv].
  set (w := run events initial_world) in *.
  destruct (syncListDisposer_units w Hinv) as [Hu [Hr [Hh [Hf _]]]].
  unfold stopSync. simpl.
  destruct (fold_stopOldSync_store (JsMap.keys (w_sources (call_optional (w_syncListDisposer w) w)))
              (call_optional (w_syncListDisposer w) w)) as [H1 [H2 H3]].
  destruct (fold_stopOldSync_fields (JsMap.keys (w_sources (call_optional (w_syncListDisposer w) w)))
              (call_optional (w_syncListDisposer w) w)) as [H4 _].
  rewrite H1, H2, H3, H4, Hu, Hr, Hh, Hf. auto.
Qed.

(** X16. In every state the program reaches, when the watcher of a unit
    reports that its file was deleted ([unlink]), no record is removed and
    no cluster disconnected: the heap, the units and the items of the
    catalog are as before; and afterwards no read of that unit is open. *)
Theorem unlink_keeps_records (events : list Event) (u : nat) :
  w_heap (step (run events initial_world) (watcher_emits u fs_unlink))
  = w_heap (run events initial_world)
  /\ w_units (step (run events initial_world) (watcher_emits u fs_unlink))
     = w_units (run events initial_world)
  /\ CatalogEntityRegistry.items (step (run events initial_world) (watcher_emits u fs_unlink))
     = CatalogEntityRegistry.items (run events initial_world)
  /\ (forall r rd,
        w_reads (step (run events initial_world) (watcher_emits u fs_unlink)) !! r = Some rd ->
        r_unit rd = u -> r_closed rd = true).
Proof.
  destruct (reachable_watchers events) as [Hstops [Hwatch _]].
  pose proof (run_inv events initial_world initial_inv) as [Hopen _].
  set (w := run events initial_world) in *.
  assert (Hnone : stopPrevious_at u w = None ->
            forall r rd, w_reads w !! r = Some rd -> r_unit rd = u -> r_closed rd = true).
  { intros Hsp r rd Hr Hu. destruct (r_closed rd) eqn:Hc; [reflexivity|].
    pose proof (Hopen _ _ Hr Hc) as H. rewrite Hu, Hsp in H. discriminate. }
  simpl. destruct (w_units w !! u) as [un|] eqn:Hun.
  - rewrite (Hwatch _ _ Hun). unfold on_watcher_unlink.
    destruct (stopPrevious_at u w) as [d|] eqn:Hsp; simpl.
    + destruct (Hstops _ _ Hsp) as [r0 ->]. simpl.
      split; [reflexivity|]. split; [reflexivity|]. split; [reflexivity|].
      intros r rd. rewrite list_lookup_alter.
      destruct (decide (r0 = r)) as [<-|Hne].
      * destruct (w_reads w !! r0); simpl; [|discriminate]. intros [= <-] _. reflexivity.
      * intros Hr Hu. destruct (r_closed rd) eqn:Hc; [reflexivity|].
        pose proof (Hopen _ _ Hr Hc) as H. rewrite Hu, Hsp in H. congruence.
    + split; [reflexivity|]. split; [reflexivity|]. split; [reflexivity|].
      apply Hnone. reflexivity.
  - split; [reflexivity|]. split; [reflexivity|]. split; [reflexivity|].
    apply Hnone. unfold stopPrevious_at. now rewrite Hun.
Qed.

End WatcherFacts.

(** ** The files of the store *)
Section StoreFiles.

Lemma sync_listener_files port change w :
  w_files (sync_listener port change w) = w_files w.
Proof.
  destruct change; simpl; [apply startNewSync_fields | apply stopOldSync_fields].
Qed.

Lemma notify_files change w : w_files (notify change w) = w_files w.
Proof.
  unfold notify. generalize (w_observers w) as obs. intros obs. revert w.
  induction obs as [|o obs IH]; simpl; intros w; auto.
  rewrite IH. destruct o; [apply sync_listener_files | reflexivity].
Qed.

Lemma existsb_eqb_In (f : string) (l : list string) :
  existsb (String.eqb f) l = true <-> In f l.
Proof.
  rewrite existsb_exists. split.
  - intros [x [Hin Heq]]. apply String.eqb_eq in Heq. now subst.
  - intros H. exists f. split; [exact H | apply String.eqb_refl].
Qed.

Lemma addSyncingFile_files file w :
  w_files (addSyncingFile file w)
  = if existsb (String.eqb file) (w_files w) then w_files w else w_files w ++ [file].
Proof.
  unfold addSyncingFile. destruct (existsb (String.eqb file) (w_files w)); [reflexivity|].
  now rewrite notify_files.
Qed.

Lemma filter_absent (file : string) (l : list string) :
  existsb (String.eqb file) l = false ->
  List.filter (fun f => negb (String.eqb file f)) l = l.
Proof.
  induction l as [|x l IH]; simpl; auto.
  destruct (String.eqb file x); simpl; [discriminate|]. intros H. now rewrite IH.
Qed.

Lemma removeSyncingFile_files file w :
  w_files (removeSyncingFile file w)
  = List.filter (fun f => negb (String.eqb file f)) (w_files w).
Proof.
  unfold removeSyncingFile. destruct (existsb (String.eqb file) (w_files w)) eqn:Hex.
  - now rewrite notify_files.
  - symmetry. now apply filter_absent.
Qed.

Lemma fold_removeSyncingFile_files (l : list string) w :
  w_files (fold_left (fun w file => removeSyncingFile file w) l w)
  = List.filter (fun f => negb (existsb (String.eqb f) l)) (w_files w).
Proof.
  revert w. induction l as [|x l IH]; simpl; intros w.
  - induction (w_files w) as [|y ys IHy]; simpl; congruence.
  - rewrite IH, removeSyncingFile_files.
    induction (w_files w) as [|y ys IHy]; simpl; auto.
    rewrite (String.eqb_sym y x).
    destruct (String.eqb x y); simpl; [exact IHy|].
    destruct (existsb (String.eqb y) l); simpl; [exact IHy | now rewrite IHy].
Qed.

Lemma fold_addSyncingFile_files (l : list string) w :
  List.NoDup (w_files w ++ l) ->
  w_files (fold_left (fun w file => addSyncingFile file w) l w) = w_files w ++ l.
Proof.
  revert w. induction l as [|x l IH]; simpl; intros w Hnd.
  - now rewrite app_nil_r.
  - assert (Hx : existsb (String.eqb x) (w_files w) = false).
    { destruct (existsb (String.eqb x) (w_files w)) eqn:Hex; [|reflexivity].
      apply existsb_eqb_In in Hex. apply List.NoDup_remove_2 in Hnd.
      exfalso. apply Hnd. apply in_or_app. now left. }
    assert (Hw : w_files (addSyncingFile x w) = w_files w ++ [x]).
    { now rewrite addSyncingFile_files, Hx. }
    rewrite IH; rewrite Hw, <- app_assoc; [reflexivity | exact Hnd].
Qed.

Lemma fromStore_files (files : list string) w :
  List.NoDup files -> w_files (fromStore files w) = files.
Proof.
  intros Hnd. unfold fromStore.
  assert (Hempty : w_files (fold_left (fun w file => removeSyncingFile file w) (w_files w) w)
                   = []).
  { rewrite fold_removeSyncingFile_files.
    assert (H : forall l l' : list string, (forall f, In f l -> In f l') ->
              List.filter (fun f => negb (existsb (String.eqb f) l')) l = []).
    { induction l as [|y ys IHy]; simpl; intros l' Hsub; auto.
      assert (Hy : existsb (String.eqb y) l' = true) by (apply existsb_eqb_In; auto).
      rewrite Hy. simpl. apply IHy. auto. }
    apply H. auto. }
  rewrite fold_addSyncingFile_files; rewrite Hempty; simpl; auto.
Qed.

Lemma addSyncingFile_nodup file w :
  List.NoDup (w_files w) -> List.NoDup (w_files (addSyncingFile file w)).
Proof.
  intros H. rewrite addSyncingFile_files.
  destruct (existsb (String.eqb file) (w_files w)) eqn:Hex; [exact H|].
  apply List.NoDup_app; [exact H | repeat constructor; simpl; tauto |].
  intros f Hin [<-|[]]. apply existsb_eqb_In in Hin. congruence.
Qed.

Lemma removeSyncingFile_nodup file w :
  List.NoDup (w_files w) -> List.NoDup (w_files (removeSyncingFile file w)).
Proof. intros H. rewrite removeSyncingFile_files. now apply List.NoDup_filter. Qed.

Lemma fold_nodup {A : Type} (f : World -> A -> World) (l : list A) w :
  (forall w a, List.NoDup (w_files w) -> List.NoDup (w_files (f w a))) ->
  List.NoDup (w_files w) -> List.NoDup (w_files (fold_left f l w)).
Proof.
  intros Hf. revert w. induction l as [|a l IH]; simpl; intros w H; auto.
Qed.

Lemma call_optional_files d w : w_files (call_optional d w) = w_files w.
Proof. destruct d as [[u|r|i]|]; reflexivity. Qed.

End StoreFiles.

Section StoreRoundTrip.
Context `{E : Externals}.

Lemma step_files_nodup w ev :
  List.NoDup (w_files w) -> List.NoDup (w_files (step w ev)).
Proof.
  intros H. destruct ev as [port| |file|file|files|u e|r chunk|r|r]; simpl.
  - unfold startSync. destruct (w_syncing w); [exact H|]. simpl.
    now rewrite (proj1 (fold_startNewSync_fields _ _ _)).
  - unfold stopSync. simpl.
    now rewrite (proj1 (fold_stopOldSync_fields _ _)), call_optional_files.
  - now apply addSyncingFile_nodup.
  - now apply removeSyncingFile_nodup.
  - unfold fromStore. apply fold_nodup; [intros; now apply addSyncingFile_nodup|].
    apply fold_nodup; [intros; now apply removeSyncingFile_nodup | exact H].
  - destruct (w_units w !! u) as [un|]; [|exact H].
    destruct (u_watching un); [|exact H].
    destruct e; unfold on_watcher_change, on_watcher_add, on_watcher_unlink; simpl;
      now rewrite call_optional_files.
  - exact H.
  - exact H.
  - unfold on_end.
    destruct (w_reads w !! r) as [rd|]; [|exact H].
    destruct (negb (r_closed rd)); [|exact H].
    destruct (w_units w !! r_unit rd) as [un|]; [|exact H].
    destruct (computeDiff _ _ _ _ _) as [source h]. exact H.
Qed.

Lemma run_files_nodup events : List.NoDup (w_files (run events initial_world)).
Proof.
  unfold run.
  assert (H : forall w, List.NoDup (w_files w) ->
            List.NoDup (w_files (fold_left step events w))).
  { induction events as [|ev events IH]; simpl; intros w Hw; auto.
    apply IH. now apply step_files_nodup. }
  apply H. constructor.
Qed.

(** X17. Round trip of the store: [fromStore] applied to what [toJSON]
    returned in any state the program reaches sets the files of a store,
    whatever it held and whoever observes it, to the same list in the
    same order. *)
Theorem fromStore_toJSON (events : list Event) (w : World) :
  toJSON (fromStore (toJSON (run events initial_world)) w)
  = toJSON (run events initial_world).
Proof.
  unfold toJSON. apply fromStore_files. apply run_files_nodup.
Qed.

End StoreRoundTrip.

Section Renderer.

Lemma addSyncFile_files (file : SyncKubeconfig.File + string) w :
  exists added,
    w_files (SyncKubeconfig.addSyncFile file w) = w_files w ++ added
    /\ forall f, In f added <->
         ~ In f (w_files w)
         /\ (file = inr f \/ file = inl (SyncKubeconfig.mkFile f)).
Proof.
  assert (H : forall p, exists added,
            w_files (addSyncingFile p w) = w_files w ++ added
            /\ forall f, In f added <-> ~ In f (w_files w) /\ p = f).
  { intros p. rewrite addSyncingFile_files.
    destruct (existsb (String.eqb p) (w_files w)) eqn:Hex.
    - exists []. split; [now rewrite app_nil_r|]. intros f. split; [intros []|].
      intros [Hn <-]. apply existsb_eqb_In in Hex. contradiction.
    - exists [p]. split; [reflexivity|]. intros f. simpl. split.
      + intros [<-|[]]. split; [|reflexivity]. intros Hin.
        apply existsb_eqb_In in Hin. congruence.
      + intros [_ ->]. now left. }
  destruct file as [[p]|p]; simpl; destruct (H p) as [added [Heq Hin]];
    exists added; (split; [exact Heq|]); intros f; rewrite Hin; split.
  - intros [Hn <-]. auto.
  - intros [Hn [Hd|Hd]]; [discriminate | injection Hd as ->; auto].
  - intros [Hn <-]. auto.
  - intros [Hn [Hd|Hd]]; [injection Hd as ->; auto | discriminate].
Qed.

(** X18. [syncManyFiles] keeps the files of the store in their places and
    appends to them exactly the paths given (a string itself, the [path]
    of a [File]) that the store did not hold. *)
Theorem syncManyFiles_files (files : list (SyncKubeconfig.File + string)) (w : World) :
  exists added,
    toJSON (SyncKubeconfig.syncManyFiles files w) = toJSON w ++ added
    /\ forall f, In f added <->
         ~ In f (toJSON w)
         /\ (In (inr f) files \/ In (inl (SyncKubeconfig.mkFile f)) files).
Proof.
  unfold toJSON, SyncKubeconfig.syncManyFiles. revert w.
  induction files as [|file files IH]; simpl; intros w.
  - exists []. split; [now rewrite app_nil_r|]. intros f. split; [intros []|tauto].
  - destruct (addSyncFile_files file w) as [a1 [Heq1 Hin1]].
    destruct (IH (SyncKubeconfig.addSyncFile file w)) as [a2 [Heq2 Hin2]].
    exists (a1 ++ a2). split.
    + rewrite Heq2, Heq1. now rewrite app_assoc.
    + intros f. rewrite in_app_iff, Hin1, Hin2, Heq1, in_app_iff, Hin1. simpl.
      assert (Hdec : (file = inr f \/ file = inl (SyncKubeconfig.mkFile f))
                     \/ ~ (file = inr f \/ file = inl (SyncKubeconfig.mkFile f))).
      { destruct file as [[p]|p]; destruct (string_dec p f) as [->|Hne];
          try (left; auto; fail); right; intros [H|H]; congruence. }
      tauto.
Qed.

End Renderer.

(** ** Stopping twice *)
Section StopTwice.

Lemma fold_stopOldSync_disposer ks w :
  w_syncListDisposer (fold_left (fun w f => stopOldSync f w) ks w) = w_syncListDisposer w.
Proof.
  revert w. induction ks as [|f fs IH]; simpl; intros w; auto.
  rewrite IH. apply stopOldSync_fields.
Qed.

Lemma call_optional_sources d w : w_sources (call_optional d w) = w_sources w.
Proof. destruct d as [[u|r|i]|]; reflexivity. Qed.

Lemma alter_twice {A : Type} (f : A -> A) (i : nat) (l : list A) :
  (forall x, f (f x) = f x) -> alter f i (alter f i l) = alter f i l.
Proof.
  intros Hf. revert i. induction l as [|x l IH]; intros [|i]; simpl; auto.
  - now rewrite Hf.
  - f_equal. apply IH.
Qed.

(** X19. [stopSync] called a second time changes nothing: the listener on
    the store is already removed, the table of the manager is already
    empty. *)
Theorem stopSync_twice (w : World) : stopSync (stopSync w) = stopSync w.
Proof.
  set (w0 := call_optional (w_syncListDisposer w) w).
  set (X := fold_left (fun w f => stopOldSync f w) (JsMap.keys (w_sources w0)) w0).
  assert (Hw1 : stopSync w = with_syncing false X) by reflexivity.
  destruct (fold_stopOldSync_fields (JsMap.keys (w_sources w0)) w0) as [_ [Hobs Hsrc]].
  destruct (fold_stopOldSync_store (JsMap.keys (w_sources w0)) w0) as [_ [Hunits Hreads]].
  pose proof (fold_stopOldSync_disposer (JsMap.keys (w_sources w0)) w0) as Hdisp.
  fold X in Hobs, Hsrc, Hunits, Hreads, Hdisp.
  rewrite delete_all_covered in Hsrc by auto.
  assert (Hd0 : w_syncListDisposer w0 = w_syncListDisposer w).
  { unfold w0. destruct (w_syncListDisposer w) as [[u|r|i]|] eqn:Hd; simpl; auto. }
  rewrite Hw1. unfold stopSync at 1.
  rewrite call_optional_sources. simpl. rewrite Hsrc, Hdisp, Hd0. simpl.
  unfold with_syncing. simpl.
  destruct (w_syncListDisposer w) as [[u|r|i]|] eqn:Hd; simpl; f_equal.
  - rewrite Hunits. unfold w0. simpl. apply alter_twice. reflexivity.
  - rewrite Hreads. unfold w0. simpl. apply alter_twice. reflexivity.
  - rewrite Hobs. unfold w0. simpl. generalize (w_observers w) as obs. intros obs.
    generalize i as j. clear.
    induction obs as [|o obs IH]; intros [|j]; simpl; auto.
    f_equal. apply IH.
Qed.

End StopTwice.

(** ** Starting again *)
Section StartAgain.
Context `{E : Externals}.

Lemma fold_startNewSync_units (l : list string) port w :
  List.NoDup l ->
  (forall f, In f l -> JsMap.has f (w_sources w) = false) ->
  length (w_units (fold_left (fun w f => startNewSync f port w) l w))
  = length (w_units w) + length l.
Proof.
  revert w. induction l as [|x l IH]; simpl; intros w Hnd Hnew; [lia|].
  apply List.NoDup_cons_iff in Hnd as [Hx Hnd].
  rewrite IH.
  - unfold startNewSync. rewrite (Hnew x) by auto. simpl.
    rewrite length_app. simpl. lia.
  - exact Hnd.
  - intros g Hg. rewrite startNewSync_has, (Hnew g) by auto.
    destruct (String.eqb g x) eqn:Heq; [|reflexivity].
    apply String.eqb_eq in Heq. subst g. contradiction.
Qed.

(** X20. In every state the program reaches in which the manager is not
    syncing, [startSync] creates one new unit, with its own watcher, for
    every file of the store, whether or not a unit created for that file
    by an earlier [startSync] still exists. *)
Theorem startSync_creates_units (events : list Event) (port : nat) :
  w_syncing (run events initial_world) = false ->
  length (w_units (startSync port (run events initial_world)))
  = length (w_units (run events initial_world))
    + length (w_files (run events initial_world)).
Proof.
  intros Hs.
  destruct (run_manager events initial_world initial_manager) as [[_ Hsync] _].
  pose proof (run_files_nodup events) as Hnd.
  set (w := run events initial_world) in *.
  unfold sync_inv in Hsync. rewrite Hs in Hsync. destruct Hsync as [Hsrc _].
  unfold startSync. rewrite Hs. simpl.
  rewrite fold_startNewSync_units; [reflexivity | exact Hnd |].
  intros f _. simpl. now rewrite Hsrc.
Qed.

End StartAgain.

(** Witnesses on the run that syncs c.yaml, takes it off the list and
    stops. *)
Lemma watcher_never_closed_witness : u_watching Demo.unit_a = true.
Proof.
  apply (watcher_never_closed (E := Demo.externals)
           (Demo.events_a ++ [call_removeSyncingFile "c.yaml"; call_stopSync])
           0 Demo.unit_a).
  vm_compute. reflexivity.
Defined.

Lemma startSync_creates_units_witness :
  length (w_units (startSync 80
            (run (E := Demo.externals) (Demo.events_a ++ [call_stopSync]) initial_world)))
  = length (w_units (run (E := Demo.externals) (Demo.events_a ++ [call_stopSync])
                       initial_world))
    + length (w_files (run (E := Demo.externals) (Demo.events_a ++ [call_stopSync])
                         initial_world)).
Proof.
  apply (startSync_creates_units (E := Demo.externals)
           (Demo.events_a ++ [call_stopSync]) 80).
  vm_compute. reflexivity.
Defined.

(** * Reads of one path, invalid contexts in a pass *)

(** C5, as stated for a path.  [stopPrevious] belongs to one call of
    [watchFileChanges]: when c.yaml has two units, the read of the first
    is still open after the second has started its own, and its [end]
    fills the map of the first unit. *)
Lemma earlier_read_of_same_path_applied :
  w_reads Demo.two_units = [mkRead 0 [Demo.text "a"] false; mkRead 1 [Demo.text "b"] false]
  /\ map u_filePath (w_units Demo.two_units) = ["c.yaml"; "c.yaml"]
  /\ map u_source (w_units Demo.two_units) = [[]; []]
  /\ map u_source (w_units (step (E := Demo.externals) Demo.two_units (stream_end 0)))
     = [[("a", (0, Demo.record_entity "a"))]; []].
Proof. vm_compute. repeat split. Qed.

Section InvalidContexts.
Context `{E : Externals}.

Lemma add_events_Construct filePath (ms : list (string * ClusterModel)) n k m :
  In (k, m) ms -> In (Construct m) (add_events n filePath ms).
Proof.
  revert n. induction ms as [|[k0 m0] ms IH]; simpl; intros n; [tauto|].
  intros [Heq|Hin].
  - injection Heq as -> ->.
    destruct (new_Cluster m) as [err|url]; [|destruct (truthy url)]; simpl; auto.
  - destruct (new_Cluster m0) as [err|url]; [|destruct (truthy url)]; simpl;
      right; right; try right; now apply IH.
Qed.

(** C8. In a pass over a buffer that parses, a context that fails
    validation is dropped on its own, with a debug diagnostic carrying
    the path, the context name and the reason: unless a valid context
    has the same name, the name has no record after the pass.  The pass
    goes on to every valid context: one that has a record keeps it and
    [updateModel] is called on its cluster with the model of the context;
    for one that has none, [new Cluster] is called on the model of the
    context, and the context has a record after the pass exactly when
    that gave a cluster with an apiUrl. *)
Theorem computeDiff_isolates_invalid
    buf (source : RootSource) port filePath h kubeconfigs config :
  JsMap.wf source ->
  parse buf = inr kubeconfigs ->
  In config kubeconfigs ->
  match validateKubeConfig config (currentContext config) with
  | Some error =>
      In (Log debug ("[KUBECONFIG-SYNC]: context failed validation: " ++ error)
              filePath (Some (currentContext config)))
         (pass_events h (snd (computeDiff buf source port filePath h)))
      /\ (~ In (currentContext config)
              (map currentContext (List.filter passes_validation kubeconfigs)) ->
          JsMap.get (currentContext config) (fst (computeDiff buf source port filePath h))
          = None)
  | None =>
      exists m,
        JsMap.get (currentContext config) (target_models kubeconfigs filePath h) = Some m
        /\ contextName m = currentContext config
        /\ kubeConfigPath m = filePath
        /\ match JsMap.get (currentContext config) source with
           | Some (c, e) =>
               JsMap.get (currentContext config)
                         (fst (computeDiff buf source port filePath h)) = Some (c, e)
               /\ In (UpdateModel c m)
                     (pass_events h (snd (computeDiff buf source port filePath h)))
           | None =>
               In (Construct m)
                  (pass_events h (snd (computeDiff buf source port filePath h)))
               /\ (In (currentContext config)
                      (JsMap.keys (fst (computeDiff buf source port filePath h)))
                   <-> constructs m = true)
           end
  end.
Proof.
  intros Hwf Hp Hin.
  pose proof (computeDiff_success buf source port filePath h kubeconfigs Hwf Hp) as Hs.
  cbv zeta in Hs.
  set (models := target_models kubeconfigs filePath h) in *.
  set (cls := update_clusters source models (clusters h)) in *.
  set (fresh := delete_all (JsMap.keys source) models) in *.
  assert (Hev : pass_events h (snd (computeDiff buf source port filePath h))
                = validation_log filePath kubeconfigs
                  ++ update_events filePath source models
                  ++ add_events (length cls) filePath fresh).
  { rewrite Hs. unfold pass_events. simpl. now rewrite drop_app_length. }
  pose proof (target_models_wf kubeconfigs filePath h) as Hmwf. fold models in Hmwf.
  destruct (validateKubeConfig config (currentContext config)) as [error|] eqn:Hv.
  - split.
    + rewrite Hev. apply in_or_app. left.
      unfold validation_log. apply in_flat_map. exists config. split; [exact Hin|].
      rewrite Hv. simpl. auto.
    + intros Hn. apply get_None_keys. intros Hk. apply Hn.
      now apply (computeDiff_keys_valid buf source port filePath h).
  - assert (Hname : In (currentContext config)
                      (map currentContext (List.filter passes_validation kubeconfigs))).
    { apply in_map. apply filter_In. split; [exact Hin|].
      unfold passes_validation. now rewrite Hv. }
    apply (target_models_keys kubeconfigs filePath h) in Hname. fold models in Hname.
    apply keys_get in Hname as [m Hm].
    exists m. split; [exact Hm|].
    split; [now apply (target_models_named kubeconfigs filePath h)|].
    split; [now apply (target_models_path kubeconfigs filePath h (currentContext config))|].
    destruct (JsMap.get (currentContext config) source) as [[c e]|] eqn:Hrec.
    + split.
      * rewrite Hs. cbn [fst]. rewrite fold_set_get_skip.
        -- rewrite get_kept. fold models. rewrite Hm. exact Hrec.
        -- intros Hadd. apply In_added_from in Hadd as [m' [Hadd _]].
           apply In_fresh in Hadd as [_ Hadd]; [|exact Hmwf].
           apply Hadd. eapply get_Some_keys; eauto.
      * rewrite Hev. apply in_or_app. right. apply in_or_app. left.
        unfold update_events. apply in_flat_map.
        exists (currentContext config, (c, e)). split; [now apply get_Some_In|].
        simpl. rewrite Hm. simpl. auto.
    + assert (Hnk : ~ In (currentContext config) (JsMap.keys source))
        by now apply get_None_keys.
      assert (Hfresh : In (currentContext config, m) fresh).
      { apply In_fresh; [exact Hmwf | auto]. }
      split.
      * rewrite Hev. apply in_or_app. right. apply in_or_app. right.
        now apply (add_events_Construct filePath fresh _ (currentContext config)).
      * rewrite Hs. cbn [fst]. rewrite fold_set_keys, In_added_from, In_keys_kept.
        split.
        -- intros [[m' [Hin' Hc]]|[Hk _]]; [|contradiction].
           apply In_fresh in Hin' as [Hg _]; [|exact Hmwf].
           fold models in Hg. congruence.
        -- intros Hc. left. exists m. auto.
Qed.

End InvalidContexts.

(** A run of C8: the map holds [a] and [b]; the file now reads [a], an
    invalid [1] and a new [c]. *)
Lemma computeDiff_isolates_invalid_witness :
  (In (Log debug
         "[KUBECONFIG-SYNC]: context failed validation: Error: No valid cluster object provided in kubeconfig"
         "c.yaml" (Some "1"))
      (pass_events (snd Demo.after_ab) (snd (Demo.pass "a1c" Demo.after_ab)))
   /\ JsMap.get "1" (fst (Demo.pass "a1c" Demo.after_ab)) = None)
  /\ JsMap.get "a" (fst (Demo.pass "a1c" Demo.after_ab)) = Some (0, Demo.record_entity "a")
  /\ In "c" (JsMap.keys (fst (Demo.pass "a1c" Demo.after_ab))).
Proof.
  assert (Hwf : JsMap.wf (fst Demo.after_ab)) by demo_list.
  pose proof (computeDiff_isolates_invalid (E := Demo.externals)
                (Demo.text "a1c") (fst Demo.after_ab) 80 "c.yaml" (snd Demo.after_ab)
                (Demo.split "a1c")) as H.
  assert (H1 : In ("1" : string) (Demo.split "a1c")) by demo_list.
  assert (Ha : In ("a" : string) (Demo.split "a1c")) by demo_list.
  assert (Hc : In ("c" : string) (Demo.split "a1c")) by demo_list.
  pose proof (H "1" Hwf eq_refl H1) as R1.
  pose proof (H "a" Hwf eq_refl Ha) as Ra.
  pose proof (H "c" Hwf eq_refl Hc) as Rc.
  clear H. simpl in R1, Ra, Rc.
  split; [|split].
  - destruct R1 as [R1 R2]. split; [exact R1|]. apply R2. demo_list.
  - destruct Ra as [m [_ [_ [_ [Hrec _]]]]]. exact Hrec.
  - destruct Rc as [m [Hm [_ [_ [_ Hk]]]]].
    apply Hk. vm_compute in Hm. injection Hm as <-. reflexivity.
Defined.
